(** * Slovak-to-Czech article translator: the text pipeline of
      [article_translator.py] (class [SlovakCzechTranslator]).

    The development embeds the text-in/text-out core of the translator:
    tag shielding ([preprocess_for_translation], [restore_html_tags]),
    the translation invoker ([translate_with_google],
    [_translate_long_text]), the term overrides ([apply_critical_terms]),
    the spacing repairs ([fix_html_spacing],
    [post_translation_spacing_fix], [force_strong_tag_spacing]), the
    capitalisation repair ([fix_capitalization]) and the driver
    [translate_text]; and, of the class [ArticleTranslator], the methods
    that work on text alone: [detect_software_topic],
    [get_czech_topic_name] and [get_czech_cta_links].

    Python strings are sequences of Unicode code points, so a string is a
    [list N].  The regular expressions of the source are kept as regular
    expressions: a small abstract syntax covering the constructs the source
    uses, with a backtracking matcher that enumerates the possible matches
    in the priority order of Python's [re] module. *)

From Stdlib Require Import Ascii String NArith Bool Arith DecimalNat Lia List.
Import ListNotations.



(* ================================================================== *)
(** ** Code points and string literals *)
(* ================================================================== *)

Definition char := N.
Bind Scope N_scope with char.
Definition str := list char.

Definition ch (a : ascii) : char := N_of_ascii a.

Fixpoint bytes_of (s : string) : list N :=
  match s with
  | EmptyString => []
  | String a s' => N_of_ascii a :: bytes_of s'
  end.

(** The source file is UTF-8; so are the string literals of this file.
    [utf8] decodes one- to four-byte sequences into code points. *)
Fixpoint utf8 (bs : list N) : str :=
  match bs with
  | [] => []
  | b :: r1 =>
      if (b <? 0x80)%N then b :: utf8 r1
      else match r1 with
      | [] => [b]
      | c1 :: r2 =>
          if (b <? 0xE0)%N then
            (N.lor (N.shiftl (N.land b 0x1F) 6) (N.land c1 0x3F)) :: utf8 r2
          else match r2 with
          | [] => [b]
          | c2 :: r3 =>
              if (b <? 0xF0)%N then
                (N.lor (N.shiftl (N.land b 0x0F) 12)
                   (N.lor (N.shiftl (N.land c1 0x3F) 6) (N.land c2 0x3F)))
                :: utf8 r3
              else match r3 with
              | [] => [b]
              | c3 :: r4 =>
                  (N.lor (N.shiftl (N.land b 0x07) 18)
                     (N.lor (N.shiftl (N.land c1 0x3F) 12)
                        (N.lor (N.shiftl (N.land c2 0x3F) 6) (N.land c3 0x3F))))
                  :: utf8 r4
              end
          end
      end
  end.

(** [u "text"] is the Python string literal ['text']. *)
Definition u (s : string) : str := utf8 (bytes_of s).
Definition uu (a b : string) : str * str := (u a, u b).
Definition us (l : list string) : list str := map u l.
Arguments u s%_string.
Arguments uu (a b)%_string.
Arguments us l%_string.

Definition str_eqb (a b : str) : bool :=
  if list_eq_dec N.eq_dec a b then true else false.

Definition between (lo hi c : char) : bool := ((lo <=? c) && (c <=? hi))%N.
Definition elem (s : str) (c : char) : bool := existsb (N.eqb c) s.
Definition only (a : ascii) (c : char) : bool := N.eqb c (ch a).
Definition except (a : ascii) (c : char) : bool := negb (N.eqb c (ch a)).
Definition rng (a b : ascii) (c : char) : bool := between (ch a) (ch b) c.
Arguments ch a%_char.
Arguments only a%_char c.
Arguments except a%_char c.
Arguments rng (a b)%_char c.

(* ================================================================== *)
(** ** The part of the Unicode database the pipeline consults

    The tables are those of CPython for U+0000..U+017F (Basic Latin,
    Latin-1 Supplement, Latin Extended-A), the repertoire of Slovak and
    Czech text; white space is listed in full.  Code points above U+017F
    are outside the tables: apart from white space they are neither word
    characters nor letters and have no case. *)
(* ================================================================== *)

(** [str.isspace] on one character, the class [\s]. *)
Definition isspace (c : char) : bool :=
  between 0x09 0x0D c || between 0x1C 0x20 c || N.eqb c 0x85 || N.eqb c 0xA0
  || N.eqb c 0x1680 || between 0x2000 0x200A c || N.eqb c 0x2028
  || N.eqb c 0x2029 || N.eqb c 0x202F || N.eqb c 0x205F || N.eqb c 0x3000.

(** [str.isalpha] on one character. *)
Definition isalpha (c : char) : bool :=
  between 0x41 0x5A c || between 0x61 0x7A c
  || N.eqb c 0xAA || N.eqb c 0xB5 || N.eqb c 0xBA
  || between 0xC0 0xD6 c || between 0xD8 0xF6 c || between 0xF8 0x17F c.

(** The class [\w] of a [str] pattern: alphanumeric or underscore. *)
Definition isword (c : char) : bool :=
  isalpha c || between 0x30 0x39 c || N.eqb c 0x5F
  || N.eqb c 0xB2 || N.eqb c 0xB3 || N.eqb c 0xB9 || between 0xBC 0xBE c.

(** Simple (one-to-one) lower-case mapping. *)
Definition simple_lower (c : char) : char :=
  if between 0x41 0x5A c then (c + 0x20)%N
  else if between 0xC0 0xDE c && negb (N.eqb c 0xD7) then (c + 0x20)%N
  else if N.eqb c 0x130 then 0x69%N
  else if N.eqb c 0x178 then 0xFF%N
  else if (between 0x100 0x12F c || between 0x132 0x137 c
           || between 0x14A 0x177 c) && N.even c then (c + 1)%N
  else if (between 0x139 0x148 c || between 0x179 0x17E c) && N.odd c
       then (c + 1)%N
  else c.

(** Simple (one-to-one) upper-case mapping. *)
Definition simple_upper (c : char) : char :=
  if between 0x61 0x7A c then (c - 0x20)%N
  else if N.eqb c 0xB5 then 0x39C%N
  else if between 0xE0 0xFE c && negb (N.eqb c 0xF7) then (c - 0x20)%N
  else if N.eqb c 0xFF then 0x178%N
  else if N.eqb c 0x131 then 0x49%N
  else if N.eqb c 0x17F then 0x53%N
  else if (between 0x100 0x12F c || between 0x132 0x137 c
           || between 0x14A 0x177 c) && N.odd c then (c - 1)%N
  else if (between 0x139 0x148 c || between 0x179 0x17E c) && N.even c
       then (c - 1)%N
  else c.

(** [str.upper] on one character; two characters of the range expand. *)
Definition upper (c : char) : str :=
  if N.eqb c 0xDF then [0x53; 0x53]%N
  else if N.eqb c 0x149 then [0x2BC; 0x4E]%N
  else [simple_upper c].

(** [str.isupper] on one character. *)
Definition isupper (c : char) : bool := negb (N.eqb (simple_lower c) c).

(** [str.strip] yields the empty string: every character is white space. *)
Definition blank (s : str) : bool := forallb isspace s.

(* ================================================================== *)
(** ** Regular expressions

    The constructs of Python's [re] that the source uses.  Repetition is
    only ever applied to a character class in the source, hence [Rep]. *)
(* ================================================================== *)

Inductive regex : Type :=
| Lit (s : str)                      (* a literal string *)
| Cls (p : char -> bool)             (* one character of a class: [...] *)
| Rep (n : nat) (p : char -> bool)   (* greedy [...]{n,}: n=0 is *, n=1 is + *)
| Cat (r1 r2 : regex)                (* r1 r2 *)
| Alt (r1 r2 : regex)                (* r1|r2 *)
| Grp (i : nat) (r : regex)          (* capture group number i: (r) *)
| WordB                              (* \b *)
| NotAhead (r : regex)               (* (?!r) *)
| Bol                                (* ^ *)
| Eol.                               (* $ *)

Declare Scope re_scope.
Delimit Scope re_scope with re.
Bind Scope re_scope with regex.
Infix "+++" := Cat (at level 60, right associativity) : re_scope.
Infix "<|>" := Alt (at level 65, right associativity) : re_scope.

Definition groups := nat -> str.
Definition no_groups : groups := fun _ => [].
Definition set_group (i : nat) (v : str) (g : groups) : groups :=
  fun j => if Nat.eqb j i then v else g j.

(** A matcher position: the character before it (for [\b] and [^]), the
    text still to read, and the groups captured so far. *)
Record mstate : Type := MState
  { m_prev : option char; m_rest : str; m_groups : groups }.

(** Character comparison and class membership, with or without
    [re.IGNORECASE]. *)
Definition char_eq (ic : bool) (a b : char) : bool :=
  if ic then N.eqb (simple_lower a) (simple_lower b)
            || N.eqb (simple_upper a) (simple_upper b)
  else N.eqb a b.

Definition in_class (ic : bool) (p : char -> bool) (c : char) : bool :=
  if ic then p c || p (simple_lower c) || p (simple_upper c) else p c.

Fixpoint lit_match (ic : bool) (l : str) (prev : option char) (s : str)
  : option (option char * str) :=
  match l with
  | [] => Some (prev, s)
  | a :: l' =>
      match s with
      | c :: s' => if char_eq ic a c then lit_match ic l' (Some c) s' else None
      | [] => None
      end
  end.

(** All ways to read at least [n] characters of class [p], longest first. *)
Fixpoint rep_match (ic : bool) (p : char -> bool) (n : nat)
    (prev : option char) (s : str) : list (option char * str) :=
  (match s with
   | c :: s' => if in_class ic p c then rep_match ic p (pred n) (Some c) s'
                else []
   | [] => []
   end)
  ++ (match n with O => [(prev, s)] | S _ => [] end).

Definition is_word_opt (o : option char) : bool :=
  match o with Some c => isword c | None => false end.

(** [rmatch ic r st]: every way in which [r] matches at [st], in the order
    in which a backtracking matcher tries them; the head is the match that
    [re] reports. *)
Fixpoint rmatch (ic : bool) (r : regex) (st : mstate) : list mstate :=
  match r with
  | Lit l =>
      match lit_match ic l (m_prev st) (m_rest st) with
      | Some (p, s) => [MState p s (m_groups st)]
      | None => []
      end
  | Cls p =>
      match m_rest st with
      | c :: s => if in_class ic p c then [MState (Some c) s (m_groups st)]
                  else []
      | [] => []
      end
  | Rep n p =>
      map (fun ps => MState (fst ps) (snd ps) (m_groups st))
          (rep_match ic p n (m_prev st) (m_rest st))
  | Cat r1 r2 => flat_map (rmatch ic r2) (rmatch ic r1 st)
  | Alt r1 r2 => rmatch ic r1 st ++ rmatch ic r2 st
  | Grp i r1 =>
      map (fun st' =>
             MState (m_prev st') (m_rest st')
               (set_group i
                  (firstn (length (m_rest st) - length (m_rest st'))
                          (m_rest st))
                  (m_groups st')))
          (rmatch ic r1 st)
  | WordB =>
      if xorb (is_word_opt (m_prev st)) (is_word_opt (hd_error (m_rest st)))
      then [st] else []
  | NotAhead r1 =>
      match rmatch ic r1 st with [] => [st] | _ :: _ => [] end
  | Bol => match m_prev st with None => [st] | Some _ => [] end
  | Eol =>
      match m_rest st with
      | [] => [st]
      | [c] => if N.eqb c 0x0A then [st] else []
      | _ => []
      end
  end.

(** The match reported at a position: its length and its groups, group 0
    being the whole match.  Every pattern of the translator reads at least
    one character; a match of length 0 counts as no match. *)
Definition match_at (ic : bool) (r : regex) (prev : option char) (s : str)
  : option (nat * groups) :=
  match rmatch ic r (MState prev s no_groups) with
  | st' :: _ =>
      let n := length s - length (m_rest st') in
      match n with
      | O => None
      | S _ => Some (n, set_group 0 (firstn n s) (m_groups st'))
      end
  | [] => None
  end.

(** [re.match(r, s)]: does [r] match at the start of [s]? *)
Definition re_match (r : regex) (s : str) : bool :=
  match match_at false r None s with Some _ => true | None => false end.

(** [re.sub] with a callback that may carry state (the tag counter and the
    placeholder map of [preprocess_for_translation]).  [skip] counts the
    characters of the current match still to be passed over. *)
Fixpoint sub_loop {S : Type} (ic : bool) (r : regex)
    (f : S -> groups -> S * str)
    (skip : nat) (prev : option char) (s : str) (st : S) : S * str :=
  match s with
  | [] => (st, [])
  | c :: s' =>
      match skip with
      | S k => sub_loop ic r f k (Some c) s' st
      | O =>
          match match_at ic r prev s with
          | Some (n, g) =>
              let (st1, out) := f st g in
              let (st2, tl) := sub_loop ic r f (pred n) (Some c) s' st1 in
              (st2, out ++ tl)
          | None =>
              let (st2, tl) := sub_loop ic r f 0 (Some c) s' st in
              (st2, c :: tl)
          end
      end
  end.

Definition re_sub_state {S : Type} (ic : bool) (r : regex)
    (f : S -> groups -> S * str) (s : str) (st : S) : S * str :=
  sub_loop ic r f 0 None s st.

(** [re.sub(r, f, s)] with a pure callback or a template. *)
Definition re_sub_with (ic : bool) (r : regex) (f : groups -> str) (s : str)
  : str :=
  snd (re_sub_state ic r (fun (_ : unit) g => (tt, f g)) s tt).

Definition re_sub (r : regex) (f : groups -> str) (s : str) : str :=
  re_sub_with false r f s.

Definition re_sub_ic (r : regex) (f : groups -> str) (s : str) : str :=
  re_sub_with true r f s.

(** [re.split(r, s)] for a pattern that is one capture group: the pieces
    between the matches, with the matched separators in between. *)
Fixpoint split_loop (r : regex) (skip : nat) (prev : option char) (s : str)
    (cur : str) : list str :=
  match s with
  | [] => [rev cur]
  | c :: s' =>
      match skip with
      | S k => split_loop r k (Some c) s' cur
      | O =>
          match match_at false r prev s with
          | Some (n, g) => rev cur :: g 1 :: split_loop r (pred n) (Some c) s' []
          | None => split_loop r 0 (Some c) s' (c :: cur)
          end
      end
  end.

Definition re_split (r : regex) (s : str) : list str :=
  split_loop r 0 None s [].

(** The templates of the source: [r'\1 \2'] and a constant string. *)
Definition tpl_1_sp_2 : groups -> str := fun g => g 1 ++ u " " ++ g 2.
Definition tpl_const (s : str) : groups -> str := fun _ => s.

Definition space : char := 0x20%N.

(** [s.replace(old, new)] for a non-empty [old]: the left-most occurrences
    of [old] that do not overlap, which is what [re.sub] does with the
    literal pattern [old]. *)
Definition replace (old new : str) (s : str) : str :=
  re_sub (Lit old) (tpl_const new) s.

(** [str(n)] for a non-negative integer. *)
Fixpoint uint_chars (d : Decimal.uint) : str :=
  match d with
  | Decimal.Nil => []
  | Decimal.D0 d' => 0x30%N :: uint_chars d'
  | Decimal.D1 d' => 0x31%N :: uint_chars d'
  | Decimal.D2 d' => 0x32%N :: uint_chars d'
  | Decimal.D3 d' => 0x33%N :: uint_chars d'
  | Decimal.D4 d' => 0x34%N :: uint_chars d'
  | Decimal.D5 d' => 0x35%N :: uint_chars d'
  | Decimal.D6 d' => 0x36%N :: uint_chars d'
  | Decimal.D7 d' => 0x37%N :: uint_chars d'
  | Decimal.D8 d' => 0x38%N :: uint_chars d'
  | Decimal.D9 d' => 0x39%N :: uint_chars d'
  end.

Definition str_of_nat (n : nat) : str := uint_chars (Nat.to_uint n).

(** A Python [dict] with string keys, in insertion order. *)
Definition dict := list (str * str).

Fixpoint dict_set (k v : str) (d : dict) : dict :=
  match d with
  | [] => [(k, v)]
  | (k', v') :: d' =>
      if str_eqb k' k then (k, v) :: d' else (k', v') :: dict_set k v d'
  end.

(* ================================================================== *)
(** ** Patterns shared by the methods *)
(* ================================================================== *)

Definition opt (r : regex) : regex := Alt r (Lit []).

(** [(?:strong|em|b|i|u|span)] *)
Definition tag_names : regex :=
  (Lit (u "strong") <|> Lit (u "em") <|> Lit (u "b") <|> Lit (u "i")
   <|> Lit (u "u") <|> Lit (u "span"))%re.

(** [(?:em|b|i|u|span)] *)
Definition tag_names_not_strong : regex :=
  (Lit (u "em") <|> Lit (u "b") <|> Lit (u "i") <|> Lit (u "u")
   <|> Lit (u "span"))%re.

(** [<(?:strong|em|b|i|u|span)[^>]*>] *)
Definition any_open_tag : regex :=
  (Lit (u "<") +++ tag_names +++ Rep 0 (except ">") +++ Lit (u ">"))%re.

(** [</(?:strong|em|b|i|u|span)>] *)
Definition any_close_tag : regex :=
  (Lit (u "</") +++ tag_names +++ Lit (u ">"))%re.

(** [<tag[^>]*>] for one tag name *)
Definition open_tag (tag : str) : regex :=
  (Lit (u "<" ++ tag) +++ Rep 0 (except ">") +++ Lit (u ">"))%re.

(** [</tag>] for one tag name *)
Definition close_tag (tag : str) : regex := Lit (u "</" ++ tag ++ u ">").

(** [ {2,}] *)
Definition spaces2 : regex := Rep 2 (only " ").

Definition cz_lower : str := Eval vm_compute in u "áčďéěíňóřšťúůýž".
Definition cz_upper : str := Eval vm_compute in u "ÁČĎÉĚÍŇÓŘŠŤÚŮÝŽ".
Definition punct6 : str := Eval vm_compute in u ".,;:!?".

(** [[a-záčďéěíňóřšťúůýž]] *)
Definition lower_cz (c : char) : bool := rng "a" "z" c || elem cz_lower c.
(** [[A-ZÁČĎÉĚÍŇÓŘŠŤÚŮÝŽ]] *)
Definition upper_cz (c : char) : bool := rng "A" "Z" c || elem cz_upper c.
(** [[a-zA-ZÀ-ſ]] *)
Definition latin_letter (c : char) : bool :=
  rng "a" "z" c || rng "A" "Z" c || between 0xC0 0x17F c.
(** [[a-zA-Z0-9À-ſ]] *)
Definition latin_alnum (c : char) : bool :=
  rng "a" "z" c || rng "A" "Z" c || rng "0" "9" c || between 0xC0 0x17F c.
(** [[a-zA-Z0-9À-ſ.,;:!?\-]] *)
Definition latin_alnum_punct (c : char) : bool :=
  latin_alnum c || elem punct6 c || only "-" c.
(** [[a-zA-Z0-9áčďéěíňóřšťúůýžÁČĎÉĚÍŇÓŘŠŤÚŮÝŽ.,;:!?]] *)
Definition cz_alnum_punct (c : char) : bool :=
  rng "a" "z" c || rng "A" "Z" c || rng "0" "9" c
  || elem cz_lower c || elem cz_upper c || elem punct6 c.
(** [[\w.,;:!?]] *)
Definition word_punct (c : char) : bool := isword c || elem punct6 c.
(** [[^\s]] *)
Definition nonspace (c : char) : bool := negb (isspace c).

(** A loop [for (a, b) in pairs: text = text.replace(a, b)]. *)
Definition replace_all (pairs : list (str * str)) (text : str) : str :=
  fold_left (fun acc p => replace (fst p) (snd p) acc) pairs text.

(* ================================================================== *)
(** ** The translator object and the translation engine

    [SlovakCzechTranslator] keeps one mutable attribute that matters to
    the text pipeline: [html_replacements], set by
    [preprocess_for_translation] and read by [restore_html_tags]; it does
    not exist before the first shielding ([None]).  The calls to the
    translation engine and to [time.sleep] are recorded in a trace. *)
(* ================================================================== *)

Inductive event : Type :=
| EvTranslate (text : str)
| EvSleep (seconds : nat).

Record translator : Type := Translator
  { html_replacements : option dict;
    trace : list event }.

Definition new_translator : translator := Translator None [].

Definition M (A : Type) : Type := translator -> A * translator.
Definition ret {A} (a : A) : M A := fun self => (a, self).
Definition bind {A B} (m : M A) (f : A -> M B) : M B :=
  fun self => let (a, self') := m self in f a self'.
Notation "x <- m ;; k" := (bind m (fun x => k))
  (at level 61, m at next level, right associativity).
Notation "m ;;; k" := (bind m (fun _ => k))
  (at level 61, right associativity).

Definition max_retries : nat := 3.
Definition retry_delay : nat := 1.

Definition is_call (e : event) : bool :=
  match e with EvTranslate _ => true | EvSleep _ => false end.

Definition calls (t : list event) : nat := length (filter is_call t).
Definition sleeps (t : list event) : list nat :=
  flat_map (fun e => match e with EvSleep n => [n] | _ => [] end) t.

Definition sleep (seconds : nat) : M unit :=
  fun self => (tt, Translator (html_replacements self)
                              (trace self ++ [EvSleep seconds])).

Section Translator.

(** [self.translator.translate(text, src='sk', dest='cs').text]: the
    answer to the call number [n] (counted from 0) on [text], or [None]
    when the call raises. *)
Variable engine : nat -> str -> option str.

Definition translate_call (text : str) : M (option str) :=
  fun self => (engine (calls (trace self)) text,
               Translator (html_replacements self)
                          (trace self ++ [EvTranslate text])).

(** *** Tag shielding *)

(** [</?(?:strong|em|b|i|u|span)[^>]*>] *)
Definition html_pattern : regex :=
  (Lit (u "<") +++ opt (Lit (u "/")) +++ tag_names
   +++ Rep 0 (except ">") +++ Lit (u ">"))%re.

Definition placeholder (counter : nat) : str :=
  u "HTMLTAG" ++ str_of_nat counter ++ u "ENDTAG".

(** The callback [replace_tag]; its state is the local [counter] and the
    dictionary [self.html_replacements]. *)
Definition replace_tag (st : nat * dict) (m : groups) : (nat * dict) * str :=
  let (counter, replacements) := st in
  let tag := m 0 in
  ((S counter, dict_set (placeholder counter) tag replacements),
   u " " ++ placeholder counter ++ u " ").

Definition preprocess_for_translation (text : str) : M str :=
  fun self =>
    match text with
    | [] => (text, self)
    | _ :: _ =>
        let '((_, replacements), result) :=
          re_sub_state false html_pattern replace_tag text (0, []) in
        let result := re_sub spaces2 (tpl_const (u " ")) result in
        (result, Translator (Some replacements) (trace self))
    end.

Definition restore_html_tags (text : str) : M str :=
  fun self =>
    match text, html_replacements self with
    | [], _ => (text, self)
    | _, None => (text, self)
    | _ :: _, Some replacements =>
        let result := replace_all replacements text in
        let result :=
          re_sub (Grp 1 (Cls latin_alnum_punct) +++ Grp 2 (open_tag (u "strong")))
                 tpl_1_sp_2 result in
        let result :=
          re_sub (Grp 1 (Lit (u "</strong>")) +++ Grp 2 (Cls latin_alnum_punct))
                 tpl_1_sp_2 result in
        let result :=
          re_sub (Grp 1 (Cls latin_alnum_punct)
                  +++ Grp 2 (Lit (u "<") +++ tag_names_not_strong
                             +++ Rep 0 (except ">") +++ Lit (u ">")))
                 tpl_1_sp_2 result in
        let result :=
          re_sub (Grp 1 (Lit (u "</") +++ tag_names_not_strong +++ Lit (u ">"))
                  +++ Grp 2 (Cls latin_alnum_punct))
                 tpl_1_sp_2 result in
        let result := re_sub spaces2 (tpl_const (u " ")) result in
        (result, self)
    end.

(** *** Translation with retries and chunking *)

(** [[.!?]+\s*], the whole of it capture group 1 *)
Definition sentence_end : regex :=
  Grp 1 (Rep 1 (elem (u ".!?")) +++ Rep 0 isspace).

(** One chunk of [_translate_long_text]: shield, one engine call, unshield;
    when the call raises the shielded chunk is unshielded instead. *)
Definition translate_chunk (current_chunk : str) : M str :=
  preprocessed_chunk <- preprocess_for_translation current_chunk ;;
  result <- translate_call preprocessed_chunk ;;
  match result with
  | Some text => restore_html_tags text
  | None => restore_html_tags preprocessed_chunk
  end.

(** [if current_chunk: ... translated_parts.append(...)]: the flush of a
    non-empty chunk, written out twice in the source (inside the loop and
    after it). *)
Definition flush_chunk (current_chunk : str) (translated_parts : list str)
  : M (list str) :=
  match current_chunk with
  | [] => ret translated_parts
  | _ :: _ =>
      translated_chunk <- translate_chunk current_chunk ;;
      ret (translated_parts ++ [translated_chunk])
  end.

(** The [for part in sentences] loop; its state is [current_chunk] and
    [translated_parts]. *)
Fixpoint chunk_loop (sentences : list str) (current_chunk : str)
    (translated_parts : list str) : M (str * list str) :=
  match sentences with
  | [] => ret (current_chunk, translated_parts)
  | part :: sentences' =>
      if length (current_chunk ++ part) <? 4500
      then chunk_loop sentences' (current_chunk ++ part) translated_parts
      else
        parts <- flush_chunk current_chunk translated_parts ;;
        chunk_loop sentences' part parts
  end.

Definition _translate_long_text (text : str) : M str :=
  let sentences := re_split sentence_end text in
  st <- chunk_loop sentences [] [] ;;
  let (current_chunk, translated_parts) := st in
  parts <- flush_chunk current_chunk translated_parts ;;
  ret (concat parts).

(** The [for attempt in range(self.max_retries)] loop.  A loop that runs
    out returns Python's [None]; with three attempts the last one always
    returns. *)
Fixpoint translate_attempts (attempts : list nat) (preprocessed_text : str)
  : M (option str) :=
  match attempts with
  | [] => ret None
  | attempt :: attempts' =>
      if 4500 <? length preprocessed_text
      then r <- _translate_long_text preprocessed_text ;; ret (Some r)
      else
        result <- translate_call preprocessed_text ;;
        match result with
        | Some text =>
            translated_text <- restore_html_tags text ;;
            ret (Some translated_text)
        | None =>
            if attempt <? max_retries - 1
            then sleep retry_delay ;;; translate_attempts attempts' preprocessed_text
            else ret (Some preprocessed_text)
        end
  end.

Definition translate_with_google (text : str) : M (option str) :=
  if blank text then ret (Some text)
  else
    preprocessed_text <- preprocess_for_translation text ;;
    translate_attempts (seq 0 max_retries) preprocessed_text.

End Translator.

(* ================================================================== *)
(** ** Term overrides *)
(* ================================================================== *)

Definition critical_terms : list (str * str) := Eval vm_compute in
  [ uu "SketchUp" "SketchUp"; uu "skicip" "SketchUp";
    uu "skicipu" "SketchUp"; uu "skicipup" "SketchUp";
    uu "D5 Render" "D5 Render"; uu "vykreslování D5" "D5 Render";
    uu "vykreslení D5" "D5 Render"; uu "LiveSync" "LiveSync";
    uu "Lifesync" "LiveSync"; uu "D5 Converter" "D5 Converter";
    uu "Převodník D5" "D5 Converter"; uu "převodníku D5" "D5 Converter";
    uu "PBR materiály" "PBR materiály"; uu "HDRI mapy" "HDRI mapy";
    uu "LED pásy" "LED pásy"; uu "LED proužky" "LED pásy";
    uu "fotorealistické" "fotorealistické"; uu "Fotorealistické" "Fotorealistické";
    uu "360°" "360°"; uu "4K" "4K";
    uu "konzultace" "konzultace"; uu "konzultaci" "konzultaci";
    uu "konzultovat" "konzultovat"; uu "kontaktujte" "kontaktujte";
    uu "Kontaktuj" "Kontaktuj"; uu "kurz" "kurz";
    uu "kurzu" "kurz"; uu "Přihlásit se na kurz" "Přihlásit se na kurz";
    uu "Přihlaste se do kurzu" "Přihlásit se na kurz"; uu "za 3 minuty" "za 3 minuty";
    uu "za pár minut" "za pár minut"; uu "v reálném čase" "v reálném čase";
    uu "bez kompromisů" "bez kompromisů"; uu "profesionální účely" "profesionální účely";
    uu "modelování" "modelování"; uu "vizualizace" "vizualizace";
    uu "kombinace" "kombinace"; uu "nástroj" "nástroj";
    uu "nástroje" "nástroje"; uu "program" "program";
    uu "programy" "programy"; uu "projekt" "projekt";
    uu "projekty" "projekty"; uu "materiál" "materiál";
    uu "materiály" "materiály"; uu "textury" "textury";
    uu "osvětlení" "osvětlení"; uu "geometrie" "geometrie";
    uu "komponenty" "komponenty"; uu "objekty" "objekty";
    uu "kamery" "kamery"; uu "animace" "animace";
    uu "export" "export"; uu "rozlišení" "rozlišení" ].

(** [sorted(items, key=lambda x: len(x[0]), reverse=True)]: stable, longest
    key first. *)
Fixpoint insert_by_len (x : str * str) (l : list (str * str))
  : list (str * str) :=
  match l with
  | [] => [x]
  | y :: l' =>
      if length (fst x) <? length (fst y) then y :: insert_by_len x l'
      else x :: l
  end.

Definition sorted_by_len (l : list (str * str)) : list (str * str) :=
  fold_right insert_by_len [] l.

Definition exact_names : list str :=
  Eval vm_compute in
  us ["SketchUp"; "D5 Render"; "LiveSync"; "D5 Converter"]%string.

Definition apply_term (result : str) (term : str * str) : str :=
  let (slovak_term, czech_term) := term in
  if existsb isupper slovak_term || existsb (str_eqb slovak_term) exact_names
  then replace slovak_term czech_term result
  else re_sub_ic (WordB +++ Lit slovak_term +++ WordB) (tpl_const czech_term)
                 result.

Definition apply_critical_terms (text : str) : str :=
  match text with
  | [] => text
  | _ :: _ => fold_left apply_term (sorted_by_len critical_terms) text
  end.

(* ================================================================== *)
(** ** Capitalisation *)
(* ================================================================== *)

(** The first character for which [isalpha] holds is replaced by its
    upper case; nothing else changes. *)
Fixpoint capitalize_first_letter (text : str) : str :=
  match text with
  | [] => []
  | c :: rest =>
      if isalpha c then upper c ++ rest
      else c :: capitalize_first_letter rest
  end.

(** [lambda m: m.group(1) + m.group(2).upper()] *)
Definition upper_group2 : groups -> str :=
  fun m => m 1 ++ flat_map upper (m 2).

(** The body of the loop over the pieces of the split text. *)
Definition fix_sentence (sentence : str) : str :=
  if negb (blank sentence) then
    if negb (re_match (Bol +++ Rep 1 (fun c => elem (u ".!?") c || isspace c)
                       +++ Eol) sentence)
    then
      let sentence := capitalize_first_letter sentence in
      let sentence :=
        re_sub (Grp 1 (Cls (elem (u ".!?")) +++ Rep 1 isspace)
                +++ Grp 2 (Cls lower_cz))
               upper_group2 sentence in
      re_sub (WordB +++ Lit (u "i") +++ WordB) (tpl_const (u "I")) sentence
    else sentence
  else sentence.

(** [</[^>]+>\s*], capture group 1, then one lower-case letter, group 2 *)
Definition after_closing_tag : regex :=
  (Grp 1 (Lit (u "</") +++ Rep 1 (except ">") +++ Lit (u ">") +++ Rep 0 isspace)
   +++ Grp 2 (Cls lower_cz))%re.

(** [\n\s*], capture group 1, then one lower-case letter, group 2 *)
Definition after_line_break : regex :=
  (Grp 1 (Lit [0x0A%N] +++ Rep 0 isspace) +++ Grp 2 (Cls lower_cz))%re.

Definition fix_capitalization (text : str) : str :=
  match text with
  | [] => text
  | _ :: _ =>
      let sentences := re_split sentence_end text in
      let fixed_sentences := map fix_sentence sentences in
      let result := concat fixed_sentences in
      let result := re_sub after_closing_tag upper_group2 result in
      re_sub after_line_break upper_group2 result
  end.

(* ================================================================== *)
(** ** Spacing repair *)
(* ================================================================== *)

Definition html_tags : list str :=
  Eval vm_compute in us ["strong"; "em"; "b"; "i"; "u"; "span"]%string.

Definition czech_words : list str := Eval vm_compute in
  us ["na"; "pro"; "do"; "za"; "od"; "po"; "při"; "před"; "nad"; "pod"; "mezi";
      "v"; "s"; "k"; "o"; "u"; "z"; "i"; "a"; "ale"; "nebo"; "že"; "aby";
      "nástroj"; "program"; "funkce"; "možnost"; "způsob"; "metoda"]%string.

Definition brand_fixes : list (str * str) := Eval vm_compute in
  [ uu "Sketch Up" "SketchUp"; uu "sketch up" "SketchUp";
    uu "Live Sync" "LiveSync"; uu "live sync" "LiveSync";
    uu "D5 Render" "D5 Render"; uu "3ds Max" "3ds Max";
    uu "Archi CAD" "ArchiCAD"; uu "archi cad" "ArchiCAD" ].

(** [(?!Up|Sync|Render|Max|CAD|Live)] *)
Definition not_brand_suffix : regex :=
  NotAhead (Lit (u "Up") <|> Lit (u "Sync") <|> Lit (u "Render")
            <|> Lit (u "Max") <|> Lit (u "CAD") <|> Lit (u "Live")).

(** [([a-z...]{2,})([A-Z...])(?!Up|...)], the camel-case split of phase 5 *)
Definition camel_case : regex :=
  (Grp 1 (Rep 2 lower_cz) +++ Grp 2 (Cls upper_cz) +++ not_brand_suffix)%re.

Definition fix_html_spacing (text : str) : str :=
  match text with
  | [] => text
  | _ :: _ =>
      let result := text in
      (* PHASE 1 *)
      let result :=
        fold_left (fun result tag =>
                     re_sub (Grp 1 (Cls word_punct) +++ Grp 2 (open_tag tag))
                            tpl_1_sp_2 result)
                  html_tags result in
      (* PHASE 2 *)
      let result :=
        fold_left (fun result tag =>
                     re_sub (Grp 1 (close_tag tag) +++ Grp 2 (Cls isword))
                            tpl_1_sp_2 result)
                  html_tags result in
      (* PHASE 3 *)
      let result :=
        re_sub (Grp 1 (Cls (elem (u ".!?:;,"))) +++ Grp 2 any_open_tag)
               tpl_1_sp_2 result in
      (* PHASE 4 *)
      let result :=
        fold_left (fun result word =>
                     fold_left (fun result tag =>
                                  re_sub (WordB +++ Lit word
                                          +++ Grp 1 (open_tag tag))
                                         (fun m => word ++ u " " ++ m 1)
                                         result)
                               html_tags result)
                  czech_words result in
      (* PHASE 5 *)
      let result := re_sub camel_case tpl_1_sp_2 result in
      (* PHASE 6 *)
      let result := re_sub spaces2 (tpl_const (u " ")) result in
      (* PHASE 7 *)
      replace_all brand_fixes result
  end.

Definition czech_prepositions : list str := Eval vm_compute in
  us ["na"; "pro"; "do"; "za"; "od"; "po"; "při"; "před"; "nad"; "pod"; "mezi";
      "bez"; "podle"; "během"; "kolem"; "okolo"; "vedle"; "mimo"; "skrz"; "přes";
      "v"; "s"; "k"; "o"; "u"; "z"; "i"; "a"; "ale"; "nebo"; "že"; "aby";
      "obsahuje"; "nabízí"; "umožní"; "můžete"; "budete"; "budou"; "mají"; "jsou";
      "této"; "tohoto"; "této"; "tomto"; "tyto"; "také"; "více"; "všechny";
      "práce"; "nástroj"; "program"; "software"; "funkce"; "možnost"]%string.

Definition post_translation_spacing_fix (text : str) : str :=
  match text with
  | [] => text
  | _ :: _ =>
      let result := text in
      (* PHASE 1 *)
      let result :=
        re_sub (Grp 1 (Cls isword) +++ Grp 2 any_open_tag) tpl_1_sp_2 result in
      (* PHASE 2 *)
      let result :=
        re_sub (Grp 1 any_close_tag +++ Grp 2 (Cls isword)) tpl_1_sp_2 result in
      (* PHASE 3 *)
      let result :=
        re_sub (Grp 1 (Cls (elem (u ".,;:!?"))) +++ Grp 2 any_open_tag)
               tpl_1_sp_2 result in
      (* PHASE 4 *)
      let result :=
        fold_left (fun result word =>
                     let result :=
                       re_sub (Lit (word ++ u "<strong>"))
                              (tpl_const (word ++ u " <strong>")) result in
                     re_sub (Lit (word ++ u "<em>"))
                            (tpl_const (word ++ u " <em>")) result)
                  czech_prepositions result in
      (* PHASE 5 *)
      let result :=
        re_sub (Grp 1 (Cls (elem (u ".!?"))) +++ Grp 2 any_open_tag)
               tpl_1_sp_2 result in
      (* PHASE 6 *)
      let result :=
        re_sub (Grp 1 any_close_tag
                +++ Grp 2 (Cls (fun c => rng "A" "Z" c || between 0xC0 0x17F c)))
               tpl_1_sp_2 result in
      (* PHASE 7 *)
      let result :=
        re_sub (Grp 1 (Cls latin_alnum) +++ Grp 2 (open_tag (u "strong")))
               tpl_1_sp_2 result in
      let result :=
        re_sub (Grp 1 (Lit (u "</strong>")) +++ Grp 2 (Cls latin_letter))
               tpl_1_sp_2 result in
      let result :=
        re_sub (Grp 1 (Cls latin_alnum) +++ Grp 2 (open_tag (u "em")))
               tpl_1_sp_2 result in
      let result :=
        re_sub (Grp 1 (Lit (u "</em>")) +++ Grp 2 (Cls latin_letter))
               tpl_1_sp_2 result in
      (* PHASE 8 *)
      re_sub spaces2 (tpl_const (u " ")) result
  end.

Definition problematic_patterns : list (str * str) := Eval vm_compute in
  [ uu "na<strong>" "na <strong>"; uu "pro<strong>" "pro <strong>";
    uu "do<strong>" "do <strong>"; uu "za<strong>" "za <strong>";
    uu "od<strong>" "od <strong>"; uu "po<strong>" "po <strong>";
    uu "při<strong>" "při <strong>"; uu "před<strong>" "před <strong>";
    uu "nad<strong>" "nad <strong>"; uu "pod<strong>" "pod <strong>";
    uu "mezi<strong>" "mezi <strong>"; uu "bez<strong>" "bez <strong>";
    uu "podle<strong>" "podle <strong>"; uu "během<strong>" "během <strong>";
    uu "kolem<strong>" "kolem <strong>"; uu "nástroj<strong>" "nástroj <strong>";
    uu "program<strong>" "program <strong>"; uu "software<strong>" "software <strong>";
    uu "funkce<strong>" "funkce <strong>"; uu "možnost<strong>" "možnost <strong>";
    uu "způsob<strong>" "způsob <strong>"; uu "metoda<strong>" "metoda <strong>";
    uu "a<strong>" "a <strong>"; uu "e<strong>" "e <strong>";
    uu "i<strong>" "i <strong>"; uu "o<strong>" "o <strong>";
    uu "u<strong>" "u <strong>"; uu "y<strong>" "y <strong>";
    uu "v<strong>" "v <strong>"; uu "s<strong>" "s <strong>";
    uu "k<strong>" "k <strong>"; uu "z<strong>" "z <strong>";
    uu "ě<strong>" "ě <strong>"; uu "á<strong>" "á <strong>";
    uu "é<strong>" "é <strong>"; uu "í<strong>" "í <strong>";
    uu "ó<strong>" "ó <strong>"; uu "ú<strong>" "ú <strong>";
    uu "ů<strong>" "ů <strong>"; uu "ý<strong>" "ý <strong>";
    uu "č<strong>" "č <strong>"; uu "ď<strong>" "ď <strong>";
    uu "ň<strong>" "ň <strong>"; uu "ř<strong>" "ř <strong>";
    uu "š<strong>" "š <strong>"; uu "ť<strong>" "ť <strong>";
    uu "ž<strong>" "ž <strong>"; uu "0<strong>" "0 <strong>";
    uu "1<strong>" "1 <strong>"; uu "2<strong>" "2 <strong>";
    uu "3<strong>" "3 <strong>"; uu "4<strong>" "4 <strong>";
    uu "5<strong>" "5 <strong>"; uu "6<strong>" "6 <strong>";
    uu "7<strong>" "7 <strong>"; uu "8<strong>" "8 <strong>";
    uu "9<strong>" "9 <strong>"; uu ".<strong>" ". <strong>";
    uu ",<strong>" ", <strong>"; uu ";<strong>" "; <strong>";
    uu ":<strong>" ": <strong>"; uu "!<strong>" "! <strong>";
    uu "?<strong>" "? <strong>" ].

Definition closing_patterns : list (str * str) := Eval vm_compute in
  [ uu "</strong>V" "</strong> V"; uu "</strong>T" "</strong> T";
    uu "</strong>A" "</strong> A"; uu "</strong>I" "</strong> I";
    uu "</strong>O" "</strong> O"; uu "</strong>U" "</strong> U";
    uu "</strong>E" "</strong> E"; uu "</strong>N" "</strong> N";
    uu "</strong>S" "</strong> S"; uu "</strong>K" "</strong> K";
    uu "</strong>P" "</strong> P"; uu "</strong>R" "</strong> R";
    uu "</strong>L" "</strong> L"; uu "</strong>M" "</strong> M";
    uu "</strong>D" "</strong> D"; uu "</strong>B" "</strong> B";
    uu "</strong>C" "</strong> C"; uu "</strong>F" "</strong> F";
    uu "</strong>G" "</strong> G"; uu "</strong>H" "</strong> H";
    uu "</strong>J" "</strong> J"; uu "</strong>Q" "</strong> Q";
    uu "</strong>W" "</strong> W"; uu "</strong>X" "</strong> X";
    uu "</strong>Y" "</strong> Y"; uu "</strong>Z" "</strong> Z";
    uu "</strong>Á" "</strong> Á"; uu "</strong>É" "</strong> É";
    uu "</strong>Í" "</strong> Í"; uu "</strong>Ó" "</strong> Ó";
    uu "</strong>Ú" "</strong> Ú"; uu "</strong>Ů" "</strong> Ů";
    uu "</strong>Ý" "</strong> Ý"; uu "</strong>Č" "</strong> Č";
    uu "</strong>Ď" "</strong> Ď"; uu "</strong>Ě" "</strong> Ě";
    uu "</strong>Ň" "</strong> Ň"; uu "</strong>Ř" "</strong> Ř";
    uu "</strong>Š" "</strong> Š"; uu "</strong>Ť" "</strong> Ť";
    uu "</strong>Ž" "</strong> Ž"; uu "</strong>0" "</strong> 0";
    uu "</strong>1" "</strong> 1"; uu "</strong>2" "</strong> 2";
    uu "</strong>3" "</strong> 3"; uu "</strong>4" "</strong> 4";
    uu "</strong>5" "</strong> 5"; uu "</strong>6" "</strong> 6";
    uu "</strong>7" "</strong> 7"; uu "</strong>8" "</strong> 8";
    uu "</strong>9" "</strong> 9" ].

Definition force_strong_tag_spacing (text : str) : str :=
  match text with
  | [] => text
  | _ :: _ =>
      let result := text in
      (* Pass 1 *)
      let result :=
        re_sub (Grp 1 (Cls nonspace) +++ Grp 2 (Lit (u "<strong")))
               tpl_1_sp_2 result in
      (* Pass 2 *)
      let result :=
        re_sub (Grp 1 (Lit (u "</strong>")) +++ Grp 2 (Cls nonspace))
               tpl_1_sp_2 result in
      (* Pass 3 *)
      let result := replace_all problematic_patterns result in
      (* Pass 4 *)
      let result := replace_all closing_patterns result in
      (* Pass 5 *)
      let result :=
        re_sub (Grp 1 (Cls cz_alnum_punct) +++ Grp 2 (Lit (u "<strong")))
               tpl_1_sp_2 result in
      let result :=
        re_sub (Grp 1 (Lit (u "</strong>")) +++ Grp 2 (Cls cz_alnum_punct))
               tpl_1_sp_2 result in
      (* Pass 6 *)
      re_sub spaces2 (tpl_const (u " ")) result
  end.

(* ================================================================== *)
(** ** The driver *)
(* ================================================================== *)

Definition problematic_before : list str := Eval vm_compute in
  us ["na"; "pro"; "do"; "za"; "od"; "po"; "v"; "s"; "k"; "o"; "se"; "na ";
      "nástroje"; "při"; "před"; "nad"; "pod"; "mezi"; "bez"; "podle"; "během";
      "kolem"; "nástroj"; "program"; "software"; "funkce"; "možnost"; "způsob";
      "metoda"]%string.

Definition problematic_after : list str := Eval vm_compute in
  us ["V"; "T"; "A"; "I"; "O"; "U"; "E"; "N"; "S"; "K"; "P"; "R"; "L"; "M";
      "D"; "B"; "C"; "F"; "G"; "H"; "J"; "Q"; "W"; "X"; "Y"; "Z"]%string.

Definition nuclear_patterns : list (str * str) := Eval vm_compute in
  [ uu "na<strong>" "na <strong>"; uu "pro<strong>" "pro <strong>";
    uu "do<strong>" "do <strong>"; uu "za<strong>" "za <strong>";
    uu "od<strong>" "od <strong>"; uu "po<strong>" "po <strong>";
    uu "v<strong>" "v <strong>"; uu "s<strong>" "s <strong>";
    uu "k<strong>" "k <strong>"; uu "o<strong>" "o <strong>";
    uu "na<strong>" "na <strong>"; uu "nástroje<strong>" "nástroje <strong>";
    uu "při<strong>" "při <strong>"; uu "před<strong>" "před <strong>";
    uu "nad<strong>" "nad <strong>"; uu "pod<strong>" "pod <strong>";
    uu "mezi<strong>" "mezi <strong>"; uu "bez<strong>" "bez <strong>";
    uu "podle<strong>" "podle <strong>"; uu "během<strong>" "během <strong>";
    uu "kolem<strong>" "kolem <strong>"; uu "nástroj<strong>" "nástroj <strong>";
    uu "program<strong>" "program <strong>"; uu "software<strong>" "software <strong>";
    uu "funkce<strong>" "funkce <strong>"; uu "možnost<strong>" "možnost <strong>";
    uu "způsob<strong>" "způsob <strong>"; uu "metoda<strong>" "metoda <strong>";
    uu "</strong>V" "</strong> V"; uu "</strong>T" "</strong> T";
    uu "</strong>A" "</strong> A"; uu "</strong>I" "</strong> I";
    uu "</strong>O" "</strong> O"; uu "</strong>U" "</strong> U";
    uu "</strong>E" "</strong> E"; uu "</strong>N" "</strong> N";
    uu "</strong>S" "</strong> S"; uu "</strong>K" "</strong> K";
    uu "</strong>P" "</strong> P"; uu "</strong>R" "</strong> R";
    uu "</strong>L" "</strong> L"; uu "</strong>M" "</strong> M";
    uu "</strong>D" "</strong> D"; uu "</strong>B" "</strong> B";
    uu "</strong>C" "</strong> C"; uu "</strong>F" "</strong> F";
    uu "</strong>G" "</strong> G"; uu "</strong>H" "</strong> H";
    uu "</strong>J" "</strong> J"; uu "</strong>Q" "</strong> Q";
    uu "</strong>W" "</strong> W"; uu "</strong>X" "</strong> X";
    uu "</strong>Y" "</strong> Y"; uu "</strong>Z" "</strong> Z" ].

(** The steps of [translate_text] after the term overrides and the three
    spacing methods: the direct replacements and passes 1 to 7. *)
Definition final_passes (translated : str) : str :=
  let translated := replace (u "na<strong>") (u "na <strong>") translated in
  let translated := replace (u "</strong>V") (u "</strong> V") translated in
  let translated := replace (u "</strong>T") (u "</strong> T") translated in
  let translated := replace (u "</strong>A") (u "</strong> A") translated in
  let translated := replace (u "</strong>I") (u "</strong> I") translated in
  let translated := replace (u "</strong>O") (u "</strong> O") translated in
  let translated := replace (u "</strong>U") (u "</strong> U") translated in
  (* Pass 1 *)
  let translated :=
    re_sub_ic (Grp 1 (Cls (rng "a" "z")) +++ Grp 2 (Lit (u "<strong")))
              tpl_1_sp_2 translated in
  let translated :=
    re_sub_ic (Grp 1 (Lit (u "</strong>")) +++ Grp 2 (Cls (rng "a" "z")))
              tpl_1_sp_2 translated in
  (* Pass 2 *)
  let translated :=
    fold_left (fun translated word =>
                 replace (word ++ u "<strong>") (word ++ u " <strong>")
                         translated)
              problematic_before translated in
  (* Pass 3 *)
  let translated :=
    fold_left (fun translated letter =>
                 replace (u "</strong>" ++ letter) (u "</strong> " ++ letter)
                         translated)
              problematic_after translated in
  (* Pass 4 *)
  let translated :=
    re_sub (Grp 1 (Cls nonspace) +++ Grp 2 (Lit (u "<strong>")))
           tpl_1_sp_2 translated in
  let translated :=
    re_sub (Grp 1 (Lit (u "</strong>")) +++ Grp 2 (Cls nonspace))
           tpl_1_sp_2 translated in
  (* Pass 5 *)
  let translated := replace_all nuclear_patterns translated in
  (* Pass 6 *)
  let translated := re_sub (Rep 2 isspace) (tpl_const (u " ")) translated in
  (* Pass 7 *)
  let translated :=
    re_sub (Grp 1 (Cls cz_alnum_punct) +++ Grp 2 (Lit (u "<strong")))
           tpl_1_sp_2 translated in
  re_sub (Grp 1 (Lit (u "</strong>")) +++ Grp 2 (Cls cz_alnum_punct))
         tpl_1_sp_2 translated.

(** Everything [translate_text] does to the text that comes back from
    [translate_with_google]. *)
Definition after_translation (translated : str) : str :=
  let translated := apply_critical_terms translated in
  let translated := fix_html_spacing translated in
  let translated := post_translation_spacing_fix translated in
  let translated := fix_capitalization translated in
  let translated := force_strong_tag_spacing translated in
  final_passes translated.

(** [translate_text]; [None] stands for the [None] that a retry loop
    without attempts would hand on. *)
Definition translate_text (engine : nat -> str -> option str) (text : str)
  : M (option str) :=
  if blank text then ret (Some text)
  else
    translated <- translate_with_google engine text ;;
    ret (option_map after_translation translated).

(** The spacing passes in the order in which [translate_text] runs them. *)
Definition reconcile (s : str) : str :=
  force_strong_tag_spacing (post_translation_spacing_fix (fix_html_spacing s)).

(** An engine that returns its input unchanged, and one that always
    fails. *)
Definition passthrough : nat -> str -> option str := fun _ text => Some text.
Definition unreachable : nat -> str -> option str := fun _ _ => None.

(* ================================================================== *)
(** ** Topic detection and call-to-action links

    The text-only methods of [ArticleTranslator]: which software an
    article is about ([detect_software_topic]), the Czech topic line
    ([get_czech_topic_name]) and the Czech target of a call-to-action link
    ([get_czech_cta_links]).  The other methods of the class work on a
    parsed document, on the network or on files. *)
(* ================================================================== *)

(** [s.startswith(p)] *)
Definition starts_with (p s : str) : bool :=
  match lit_match false p None s with Some _ => true | None => false end.

(** [p in s] for two strings. *)
Fixpoint contains (s p : str) : bool :=
  starts_with p s
  || match s with
     | [] => false
     | _ :: s' => contains s' p
     end.

(** [str.lower] on one character.  One character of the tables expands;
    three code points above the tables have their lower case inside them
    (U+1E9E, the Kelvin sign U+212A and the Angstrom sign U+212B).  The
    lower case of every other code point above U+017F lies above U+017F
    as well, where no pattern of the source has a character; such a code
    point is kept as it is. *)
Definition lower_char (c : char) : str :=
  if N.eqb c 0x130 then [0x69; 0x307]%N
  else if N.eqb c 0x1E9E then [0xDF]%N
  else if N.eqb c 0x212A then [0x6B]%N
  else if N.eqb c 0x212B then [0xE5]%N
  else [simple_lower c].

(** [s.lower()] *)
Definition lower (s : str) : str := flat_map lower_char s.

(** [d.get(k, default)] *)
Fixpoint dict_get {V : Type} (d : list (str * V)) (k : str) (default : V) : V :=
  match d with
  | [] => default
  | (k', v) :: d' => if str_eqb k' k then v else dict_get d' k default
  end.

Definition software_patterns : list (str * list str) := Eval vm_compute in
  [ (u "sketchup", us ["sketchup"; "sketch up"]%string);
    (u "d5-render", us ["d5 render"; "d5render"; "d5 rendering"]%string);
    (u "archicad", us ["archicad"; "archi cad"]%string);
    (u "revit", us ["revit"; "autodesk revit"]%string);
    (u "rhino", us ["rhino"; "rhinoceros"; "rhino3d"]%string);
    (u "3dsmax", us ["3ds max"; "3dsmax"; "autodesk 3ds"]%string);
    (u "blender", us ["blender"]%string);
    (u "lumion", us ["lumion"]%string);
    (u "twinmotion", us ["twinmotion"; "twin motion"]%string);
    (u "vray", us ["v-ray"; "vray"; "v ray"]%string);
    (u "corona", us ["corona render"; "corona"]%string);
    (u "cinema4d", us ["cinema 4d"; "cinema4d"; "c4d"]%string) ].

(** The loop over the patterns of one software; the first pattern found
    ends it ([break]). *)
Fixpoint scan_patterns (title_lower content_lower software : str)
    (patterns : list str) (detected_software : list str) : list str :=
  match patterns with
  | [] => detected_software
  | pattern :: patterns' =>
      if contains title_lower pattern || contains content_lower pattern
      then detected_software ++ [software]
      else scan_patterns title_lower content_lower software patterns'
                         detected_software
  end.

Definition detect_software_topic (title content_text : str) : list str :=
  let title_lower := lower title in
  let content_lower := lower content_text in
  fold_left (fun detected_software entry =>
               scan_patterns title_lower content_lower (fst entry) (snd entry)
                             detected_software)
            software_patterns [].

Definition czech_topics : dict := Eval vm_compute in
  [ uu "sketchup" "SketchUp - 3D modelování";
    uu "d5-render" "D5 Render - Vizuální renderování";
    uu "archicad" "ArchiCAD - Architektonický návrh";
    uu "revit" "Revit - BIM a architektura";
    uu "rhino" "Rhino - 3D modelování a design";
    uu "3dsmax" "3ds Max - 3D animace a rendering";
    uu "blender" "Blender - 3D tvůrba a animace";
    uu "lumion" "Lumion - Architektonická vizualizace";
    uu "twinmotion" "Twinmotion - Reálný čas vizualizace";
    uu "vray" "V-Ray - Fotorealistický rendering";
    uu "corona" "Corona Renderer - Realistický rendering";
    uu "cinema4d" "Cinema 4D - 3D animace a design" ].

(** The topic line of an article about no known software; the source
    writes the literal twice. *)
Definition default_topic : str :=
  Eval vm_compute in u "Softwarové nástroje - Návody a tipy".

Definition get_czech_topic_name (software_list : list str) : str :=
  match software_list with
  | primary_software :: _ =>
      dict_get czech_topics primary_software default_topic
  | [] => default_topic
  end.

Definition czech_links : list (str * dict) := Eval vm_compute in
  [ (u "sketchup",
     [ uu "product" "/sketchup/";
       uu "courses" "/kurzy/sketchup-kurz/";
       uu "tutorials" "/navody/sketchup/";
       uu "licenses" "/sketchup-licence/" ]);
    (u "d5-render",
     [ uu "product" "/d5-render/";
       uu "courses" "/kurzy/d5-render-kurz/";
       uu "tutorials" "/navody/d5-render/";
       uu "licenses" "/d5-render-licence/" ]);
    (u "archicad",
     [ uu "product" "/archicad/";
       uu "courses" "/kurzy/archicad-kurz/";
       uu "tutorials" "/navody/archicad/";
       uu "licenses" "/archicad-licence/" ]);
    (u "revit",
     [ uu "product" "/revit/";
       uu "courses" "/kurzy/revit-kurz/";
       uu "tutorials" "/navody/revit/";
       uu "licenses" "/revit-licence/" ]);
    (u "rhino",
     [ uu "product" "/rhino/";
       uu "courses" "/kurzy/rhino-kurz/";
       uu "tutorials" "/navody/rhino/";
       uu "licenses" "/rhino-licence/" ]);
    (u "general",
     [ uu "product" "/software/";
       uu "courses" "/kurzy/";
       uu "tutorials" "/navody/";
       uu "contact" "/kontakt/";
       uu "consultation" "/konzultace/" ]) ].

(** [any(word in original_lower for word in words)] *)
Definition any_in (original_lower : str) (words : list str) : bool :=
  existsb (contains original_lower) words.

Definition get_czech_cta_links (software_list : list str)
    (original_href : str) : str :=
  let original_lower := lower original_href in
  let software_list :=
    match software_list with
    | [] => [u "general"]
    | _ :: _ => software_list
    end in
  let primary_software := hd [] software_list in
  let links :=
    dict_get czech_links primary_software
             (dict_get czech_links (u "general") []) in
  if any_in original_lower (us ["licenc"; "license"; "predaj"; "shop"]%string)
  then dict_get links (u "licenses") (u "/software/")
  else if any_in original_lower (us ["kurz"; "skoleni"; "training"; "learn"]%string)
  then dict_get links (u "courses") (u "/kurzy/")
  else if any_in original_lower (us ["navod"; "tutorial"; "guide"; "help"]%string)
  then dict_get links (u "tutorials") (u "/navody/")
  else if any_in original_lower (us ["kontakt"; "contact"; "konzultac"]%string)
  then dict_get links (u "consultation") (u "/konzultace/")
  else dict_get links (u "product") (u "/software/").

(* ================================================================== *)
(** ** Vocabulary of the specification *)
(* ================================================================== *)

(** The character before a position, once [w] has been read. *)
Fixpoint last_opt (w : str) (prev : option char) : option char :=
  match w with
  | [] => prev
  | c :: w' => last_opt w' (Some c)
  end.

(** [re.sub] started in the middle of a text, after the character [prev]. *)
Definition sub_from (ic : bool) (r : regex) (f : groups -> str)
    (prev : option char) (s : str) : str :=
  snd (sub_loop ic r (fun (_ : unit) g => (tt, f g)) 0 prev s tt).

(** [occurs w s]: the string [w] occurs in [s]. *)
Definition occurs (w s : str) : Prop := exists a b, s = a ++ w ++ b.

(** [spaced P s t]: [t] is [s] with single spaces put between some adjacent
    characters [c], [d] of [s] for which [P c d] holds. *)
Inductive spaced (P : char -> char -> bool) : str -> str -> Prop :=
| spaced_nil : spaced P [] []
| spaced_keep c s t : spaced P s t -> spaced P (c :: s) (c :: t)
| spaced_ins c d s t :
    P c d = true -> spaced P (d :: s) t ->
    spaced P (c :: d :: s) (c :: space :: t).

(** [respaced s t]: [t] is [s] up to white space: white-space characters
    may be added, exchanged for other white space, or dropped where white
    space remains in their place. *)
Inductive respaced : str -> str -> Prop :=
| respaced_nil : respaced [] []
| respaced_keep c s t : respaced s t -> respaced (c :: s) (c :: t)
| respaced_ins w s t : isspace w = true -> respaced s t -> respaced s (w :: t)
| respaced_swap c w s t :
    isspace c = true -> isspace w = true -> respaced s t ->
    respaced (c :: s) (w :: t)
| respaced_del c w s t :
    isspace c = true -> isspace w = true -> respaced s (w :: t) ->
    respaced (c :: s) (w :: t).

(** No white space in [x]. *)
Definition ws_free (x : str) : bool := forallb nonspace x.

(** Does the pattern hold a capture group? *)
Fixpoint groupless (r : regex) : bool :=
  match r with
  | Grp _ _ => false
  | Cat r1 r2 | Alt r1 r2 => groupless r1 && groupless r2
  | NotAhead r1 => groupless r1
  | _ => true
  end.

(** No two adjacent characters of [s] are both in the class [p]. *)
Fixpoint no_double (p : char -> bool) (s : str) : bool :=
  match s with
  | c :: ((d :: _) as s') => negb (p c && p d) && no_double p s'
  | _ => true
  end.

(** The ways in which a match of [html_pattern] can begin. *)
Definition tag_prefixes : list str := Eval vm_compute in
  us ["<strong"; "<em"; "<b"; "<i"; "<u"; "<span";
      "</strong"; "</em"; "</b"; "</i"; "</u"; "</span"]%string.

(** An inline tag, in the sense of [html_pattern], begins here: one of the
    prefixes, and a [>] somewhere after it. *)
Definition tag_here (s : str) : bool :=
  existsb (fun p => starts_with p s) tag_prefixes && elem s (ch ">").

(** An inline tag begins somewhere in [s]. *)
Fixpoint has_tag (s : str) : bool :=
  match s with
  | [] => false
  | _ :: s' => tag_here s || has_tag s'
  end.

(** The chunks that [_translate_long_text] hands to the engine, in order:
    the loop over the pieces of the split text without the engine calls. *)
Definition flush (current_chunk : str) : list str :=
  match current_chunk with [] => [] | _ :: _ => [current_chunk] end.

Fixpoint chunks_loop (sentences : list str) (current_chunk : str)
  : list str :=
  match sentences with
  | [] => flush current_chunk
  | part :: sentences' =>
      if length (current_chunk ++ part) <? 4500
      then chunks_loop sentences' (current_chunk ++ part)
      else flush current_chunk ++ chunks_loop sentences' part
  end.

Definition chunks (text : str) : list str :=
  chunks_loop (re_split sentence_end text) [].

(** What a match reads: [w] lies between the two positions. *)
Definition reads (st st' : mstate) (w : str) : Prop :=
  m_rest st = w ++ m_rest st' /\ m_prev st' = last_opt w (m_prev st).

(* ================================================================== *)
(** ** Vocabulary of the proofs *)
(* ================================================================== *)

Definition space_free (x : str) : bool :=
  forallb (fun c => negb (N.eqb c space)) x.

(** A prefix without spaces of [t] is a prefix of [s]. *)
Definition prefix_transfer (s t : str) : Prop :=
  forall x, space_free x = true -> starts_with x t = true ->
            starts_with x s = true.

(** A [>] in [t] comes from [s]. *)
Definition gt_transfer (s t : str) : Prop :=
  elem t (ch ">") = true -> elem s (ch ">") = true.

(** What a replacement may be without creating a tag: it begins with a
    space and holds neither [<] nor [>]. *)
Definition neutral (out : str) : Prop :=
  (exists o, out = space :: o) /\ elem out (ch "<") = false
  /\ elem out (ch ">") = false.

Definition digit (c : char) : bool := rng "0" "9" c.

Definition shield_clean (c : str) : Prop :=
  has_tag c = false /\ no_double (only " ") c = true.






(** Where the tag phases and the camel-case phase may put a space. *)
Definition P_tag (c d : char) : bool := N.eqb d (ch "<") || N.eqb c (ch ">").

Definition P_camel (c d : char) : bool := lower_cz c && upper_cz d.








Definition small_chars : list char := map N.of_nat (seq 0 384).

(** [recased s t]: [t] is [s] with some characters replaced by their upper
    case. *)
Inductive recased : str -> str -> Prop :=
| recased_nil : recased [] []
| recased_keep c s t : recased s t -> recased (c :: s) (c :: t)
| recased_upper c s t : recased s t -> recased (c :: s) (upper c ++ t).

(** Every character of [x] is its own upper case. *)
Definition stable (x : str) : bool :=
  forallb (fun d => str_eqb (upper d) [d]) x.

(** One character, kept or, if it is a letter of [[a-z...]], upper-cased. *)
Definition uppered_char (d e : char) : Prop :=
  e = d \/ (lower_cz d = true /\ e = simple_upper d).

Definition uppered : str -> str -> Prop := Forall2 uppered_char.

Definition head_lower (r : str) : bool :=
  match r with
  | c :: _ => lower_cz c
  | [] => false
  end.

(** The rest of a tag name, its [>] and a lower-case letter. *)
Fixpoint after_name (s : str) : bool :=
  match s with
  | [] => false
  | d :: s' => if N.eqb d (ch ">") then head_lower s' else after_name s'
  end.

(** [s] begins with a closing tag and a lower-case letter glued to it. *)
Definition close_here (s : str) : bool :=
  match s with
  | a :: b :: d :: s' =>
      N.eqb a (ch "<") && N.eqb b (ch "/") && negb (N.eqb d (ch ">"))
      && after_name s'
  | _ => false
  end.

(** Somewhere in [s] a lower-case letter is glued to a closing tag. *)
Fixpoint bad_close (s : str) : bool :=
  match s with
  | [] => false
  | d :: s' => close_here (d :: s') || bad_close s'
  end.

(** The shielded form of a text and the translator object shielding leaves
    behind. *)
Definition shield (text : str) : str :=
  fst (preprocess_for_translation text new_translator).

Definition shield_state (text : str) : translator :=
  snd (preprocess_for_translation text new_translator).

(** What one chunk contributes when its engine call is call number [i]. *)
Definition chunk_result (engine : nat -> str -> option str) (i : nat)
    (c : str) : str :=
  fst (restore_html_tags
         (match engine i (shield c) with
          | Some answer => answer
          | None => shield c
          end)
         (shield_state c)).

Definition results_from (engine : nat -> str -> option str) (n : nat)
    (cs : list str) : list str :=
  map (fun ic => chunk_result engine (fst ic) (snd ic))
      (combine (seq n (length cs)) cs).

(** A text with two tags whose shielded form is longer than 4500
    characters. *)
Definition long_input : str := u "<b>bold</b>. " ++ repeat (ch "a") 4500.

(** [k] failed attempts, each followed by the delay, then one more call. *)
Definition retries (p : str) (k : nat) : list event :=
  concat (repeat [EvTranslate p; EvSleep retry_delay] k) ++ [EvTranslate p].

(** Every text without white space that occurs in [t] occurs in [s]. *)
Definition pulls_back (s t : str) : Prop :=
  forall tok, ws_free tok = true -> occurs tok t -> occurs tok s.

(** A pass after which no new text without white space can be found. *)
Definition gentle (f : str -> str) : Prop := forall s, pulls_back s (f s).

(** [new] is [old] with one space put between two of its characters. *)
Fixpoint insertion (old new : str) : bool :=
  match old, new with
  | c :: old', c' :: new' =>
      N.eqb c c'
      && ((match old' with
           | _ :: _ => str_eqb new' (space :: old')
           | [] => false
           end)
          || insertion old' new')
  | _, _ => false
  end.

(** With [ctx] before it, [t] has a character other than white space
    directly before [<strong] only where that character ends a [<strong]
    that follows a space. *)
Definition open_inv (ctx t : str) : Prop :=
  forall v c b, t = v ++ c :: u "<strong" ++ b -> nonspace c = true ->
    exists v', ctx ++ v ++ [c] = v' ++ u " <strong".

(** What a pass [(K)(<strong)] needs of its input to leave nothing glued:
    a glued character is of the class [K], and no [<strong<strong] has a
    character other than white space before it. *)
Definition open_ready (K : char -> bool) (t : str) : Prop :=
  (forall c, nonspace c = true -> K c = false ->
             ~ occurs (c :: u "<strong") t)
  /\ (forall c, nonspace c = true ->
                ~ occurs (c :: u "<strong" ++ u "<strong") t).

(** Nothing but white space stands directly before [<strong]. *)
Definition open_clean (t : str) : Prop :=
  forall c, nonspace c = true -> ~ occurs (c :: u "<strong") t.


(** No [</strong></strong>] with a character other than white space after
    it. *)
Definition close_ready (t : str) : Prop :=
  forall d, nonspace d = true ->
    ~ occurs (u "</strong>" ++ u "</strong>" ++ [d]) t.


(** Pass 1 and pass 2 of [force_strong_tag_spacing], and the passes after
    them. *)
Definition force_pass1 (s : str) : str :=
  re_sub (Grp 1 (Cls nonspace) +++ Grp 2 (Lit (u "<strong"))) tpl_1_sp_2 s.

Definition force_pass2 (s : str) : str :=
  re_sub (Grp 1 (Lit (u "</strong>")) +++ Grp 2 (Cls nonspace)) tpl_1_sp_2 s.

Definition force_rest (result : str) : str :=
  let result := replace_all problematic_patterns result in
  let result := replace_all closing_patterns result in
  let result :=
    re_sub (Grp 1 (Cls cz_alnum_punct) +++ Grp 2 (Lit (u "<strong")))
           tpl_1_sp_2 result in
  let result :=
    re_sub (Grp 1 (Lit (u "</strong>")) +++ Grp 2 (Cls cz_alnum_punct))
           tpl_1_sp_2 result in
  re_sub spaces2 (tpl_const (u " ")) result.






(** The text without its space characters. *)
Definition strip (s : str) : str := filter (fun c => negb (N.eqb c space)) s.

(** No space character in [w]. *)
Definition spaceless (w : str) : bool :=
  forallb (fun c => negb (N.eqb c space)) w.

(** The pieces of [s] between its space characters. *)
Fixpoint words (s : str) : list str :=
  match s with
  | [] => [[]]
  | c :: s' =>
      if N.eqb c space then [] :: words s'
      else match words s' with
           | w :: ws => (c :: w) :: ws
           | [] => [[c]]
           end
  end.

(** The pieces put together again, one space between two of them. *)
Definition unwords (ws : list str) : str :=
  match ws with
  | [] => []
  | w :: ws' => w ++ flat_map (fun x => space :: x) ws'
  end.

(** The text after a piece: nothing, or a space and more. *)
Definition at_gap (rest : str) : Prop :=
  rest = [] \/ exists rest', rest = space :: rest'.

(** What [replace] has to find in the pieces of a text. *)
Definition piece_ok (P w : str) : Prop :=
  spaceless w = true /\ (w = P \/ ~ occurs P w).

Definition swap (P tag w : str) : str := if str_eqb w P then tag else w.

(** The text [HTMLTAG] does not occur in [x]. *)
Definition tag_free (x : str) : Prop := ~ occurs (u "HTMLTAG") x.

Definition not_H (c : char) : bool := negb (N.eqb c (ch "H")).

Fixpoint lookup (d : dict) (w : str) : option str :=
  match d with
  | [] => None
  | (k, v) :: d' => if str_eqb w k then Some v else lookup d' w
  end.

(** What a piece of the shielded text stands for, spaces apart. *)
Definition subst (d : dict) (w : str) : str :=
  match lookup d w with
  | Some tag => strip tag
  | None => w
  end.

Definition is_key (d : dict) (w : str) : Prop := In w (map fst d).

(** The keys are placeholders, and no tag holds the text [HTMLTAG]. *)
Definition dict_ok (d : dict) : Prop :=
  Forall (fun p => (exists j, fst p = placeholder j) /\ tag_free (snd p)) d.

Definition word_ok (d : dict) (w : str) : Prop :=
  spaceless w = true /\ (is_key d w \/ tag_free w).

Definition nonempty (w : str) : bool :=
  match w with [] => false | _ :: _ => true end.

(** The same pieces, empty pieces after the first apart. *)
Definition same_pieces (s t : str) : Prop :=
  hd [] (words t) = hd [] (words s)
  /\ filter nonempty (tl (words t)) = filter nonempty (tl (words s)).

(** The keys of [d] are placeholders numbered below [k]. *)
Definition keys_below (k : nat) (d : dict) : Prop :=
  Forall (fun p => exists j, j < k /\ fst p = placeholder j) d.

(** The entries made for the tags numbered from [k] up to [k']. *)
Definition entries (k k' : nat) (new : dict) : Prop :=
  Forall (fun p => (exists j, k <= j < k' /\ fst p = placeholder j)
                   /\ tag_free (snd p)) new.

(** What the pieces of the shielded text [out] say about the text [s] it
    was made from. *)
Definition shielded_as (s : str) (new : dict) (out : str) : Prop :=
  (exists b, s = hd [] (words out) ++ b)
  /\ Forall (fun w => is_key new w \/ tag_free w) (words out)
  /\ concat (map (subst new) (words out)) = strip s.

(** The part of [restore_html_tags] after the placeholders are replaced. *)
Definition restore_spacing (result : str) : str :=
  let result :=
    re_sub (Grp 1 (Cls latin_alnum_punct) +++ Grp 2 (open_tag (u "strong")))
           tpl_1_sp_2 result in
  let result :=
    re_sub (Grp 1 (Lit (u "</strong>")) +++ Grp 2 (Cls latin_alnum_punct))
           tpl_1_sp_2 result in
  let result :=
    re_sub (Grp 1 (Cls latin_alnum_punct)
            +++ Grp 2 (Lit (u "<") +++ tag_names_not_strong
                       +++ Rep 0 (except ">") +++ Lit (u ">")))
           tpl_1_sp_2 result in
  let result :=
    re_sub (Grp 1 (Lit (u "</") +++ tag_names_not_strong +++ Lit (u ">"))
            +++ Grp 2 (Cls latin_alnum_punct))
           tpl_1_sp_2 result in
  re_sub spaces2 (tpl_const (u " ")) result.


(** Running a method on a fresh translator object. *)
Definition run {A} (m : M A) : A * translator := m new_translator.

(* ================================================================== *)

Definition scenario_input : str :=
  Eval vm_compute in u "tool for<strong>3D modeling</strong>.".

(** [tag] is one whole inline tag: [html_pattern] matches all of it. *)
Definition whole_tag (tag : str) : Prop :=
  exists g, match_at false html_pattern None tag = Some (length tag, g).

(** [space_only F]: [F] adds and removes space characters and does
    nothing else. *)
Definition space_only (F : str -> str) : Prop :=
  forall s, strip (F s) = strip s.

(** [A-Z] to [a-z], every other character kept. *)
Definition ascii_lower (c : char) : char :=
  if rng "A" "Z" c then (c + 32)%N else c.

(** A text without its spaces and without the case of its ASCII letters. *)
Definition skeleton (s : str) : str := map ascii_lower (strip s).

(** A replacement text that cannot bring two spaces together: it is not
    empty, has no space at either end and no two adjacent spaces. *)
Definition tight (new : str) : bool :=
  match new with [] => false | _ :: _ => true end
  && negb (only " " (hd 0%N new)) && negb (only " " (last new 0%N))
  && no_double (only " ") new.

(** A character of the tables that upper-casing does not change. *)
Definition cased_up (c : char) : bool :=
  N.ltb c 384 && str_eqb (upper c) [c].

(** The characters with which a match of one of the four patterns of
    [fix_capitalization] can begin: sentence punctuation, [i], [<] and
    the line feed. *)
Definition starter (c : char) : bool :=
  elem (u ".!?") c || N.eqb c (ch "i") || N.eqb c (ch "<") || N.eqb c 0x0A.

(** [subsequence l l']: [l] is [l'] with some elements left out, the
    order kept. *)
Inductive subsequence {A : Type} : list A -> list A -> Prop :=
| subsequence_nil : subsequence [] []
| subsequence_skip x l l' : subsequence l l' -> subsequence l (x :: l')
| subsequence_take x l l' : subsequence l l' -> subsequence (x :: l) (x :: l').

(** Is one of the patterns of a software found in the title or in the
    content? *)
Definition found (title_lower content_lower : str) (patterns : list str)
  : bool :=
  existsb (fun pattern => contains title_lower pattern
                          || contains content_lower pattern) patterns.

(** The choice of [get_czech_cta_links] once the link table of the
    software is known. *)
Definition cta_choice (links : dict) (original_lower : str) : str :=
  if any_in original_lower (us ["licenc"; "license"; "predaj"; "shop"]%string)
  then dict_get links (u "licenses") (u "/software/")
  else if any_in original_lower
                 (us ["kurz"; "skoleni"; "training"; "learn"]%string)
  then dict_get links (u "courses") (u "/kurzy/")
  else if any_in original_lower
                 (us ["navod"; "tutorial"; "guide"; "help"]%string)
  then dict_get links (u "tutorials") (u "/navody/")
  else if any_in original_lower (us ["kontakt"; "contact"; "konzultac"]%string)
  then dict_get links (u "consultation") (u "/konzultace/")
  else dict_get links (u "product") (u "/software/").

(** The link table that [get_czech_cta_links] uses for a software list. *)
Definition links_of (software_list : list str) : dict :=
  dict_get czech_links
           (hd [] (match software_list with
                   | [] => [u "general"]
                   | _ :: _ => software_list
                   end))
           (dict_get czech_links (u "general") []).

(** The softwares with a link table of their own. *)
Definition softwares_with_links : list str := Eval vm_compute in
  us ["sketchup"; "d5-render"; "archicad"; "revit"; "rhino"]%string.

(* ================================================================== *)
(** ** Facts about the matcher *)
(* ================================================================== *)

Lemma last_opt_app w1 w2 prev :
  last_opt (w1 ++ w2) prev = last_opt w2 (last_opt w1 prev).
Proof. revert prev; induction w1; simpl; auto. Qed.

Lemma lit_match_sound ic l : forall prev s p' s',
  lit_match ic l prev s = Some (p', s') ->
  exists w, s = w ++ s' /\ p' = last_opt w prev /\ length w = length l
            /\ Forall2 (fun a c => char_eq ic a c = true) l w.
Proof.
  induction l as [|a l IH]; simpl; intros prev s p' s' H.
  - inversion H; subst. exists []; simpl; auto.
  - destruct s as [|c s]; [discriminate|].
    destruct (char_eq ic a c) eqn:E; [|discriminate].
    destruct (IH _ _ _ _ H) as (w & -> & -> & Hl & HF).
    exists (c :: w); simpl; auto.
Qed.

Lemma lit_match_exact l : forall prev s,
  lit_match false l prev (l ++ s) = Some (last_opt l prev, s).
Proof.
  induction l as [|a l IH]; simpl; intros; auto.
  unfold char_eq. rewrite N.eqb_refl. apply IH.
Qed.

Lemma lit_match_false l prev s p' s' :
  lit_match false l prev s = Some (p', s') <->
  s = l ++ s' /\ p' = last_opt l prev.
Proof.
  split.
  - intros H. destruct (lit_match_sound _ _ _ _ _ _ H) as (w & -> & -> & Hl & HF).
    assert (w = l) as ->.
    { clear -HF. induction HF; auto. unfold char_eq in H.
      apply N.eqb_eq in H. subst; f_equal; auto. }
    auto.
  - intros [-> ->]. apply lit_match_exact.
Qed.

Lemma rep_match_In ic p : forall s n prev p' s',
  In (p', s') (rep_match ic p n prev s) <->
  exists w, s = w ++ s' /\ forallb (in_class ic p) w = true
            /\ n <= length w /\ p' = last_opt w prev.
Proof.
  induction s as [|c s IH]; intros n prev p' s'; simpl.
  - split.
    + destruct n; simpl; [|tauto]. intros [H|[]]. inversion H; subst.
      exists []; simpl; auto.
    + intros (w & Hw & _ & Hn & ->). destruct w; [|discriminate].
      simpl in *. subst. destruct n; [simpl; auto | lia].
  - rewrite in_app_iff. split.
    + intros [H|H].
      * destruct (in_class ic p c) eqn:E; [|destruct H].
        apply IH in H. destruct H as (w & -> & Hf & Hn & ->).
        exists (c :: w); simpl. rewrite E, Hf. repeat split; auto; lia.
      * destruct n; [|destruct H]. destruct H as [H|[]]. inversion H; subst.
        exists []; simpl; auto.
    + intros (w & Hw & Hf & Hn & ->). destruct w as [|d w]; simpl in *.
      * right. subst s'. destruct n; [simpl; auto | lia].
      * left. inversion Hw; subst. apply andb_prop in Hf as [E Hf].
        rewrite E. apply IH. exists w. repeat split; auto. lia.
Qed.

Lemma reads_length st st' w :
  reads st st' w ->
  firstn (length (m_rest st) - length (m_rest st')) (m_rest st) = w
  /\ length (m_rest st) - length (m_rest st') = length w.
Proof.
  intros [H _]. rewrite H, length_app.
  replace (length w + length (m_rest st') - length (m_rest st'))
    with (length w) by lia.
  split; auto. rewrite firstn_app, firstn_all, Nat.sub_diag. simpl.
  apply app_nil_r.
Qed.

Lemma reads_unique st st' w1 w2 : reads st st' w1 -> reads st st' w2 -> w1 = w2.
Proof.
  intros H1 H2. apply reads_length in H1, H2.
  destruct H1 as [H1 _], H2 as [H2 _]. congruence.
Qed.

Lemma rmatch_reads ic r : forall st st',
  In st' (rmatch ic r st) -> exists w, reads st st' w.
Proof.
  unfold reads.
  induction r; intros st st' H; simpl in H.
  - destruct (lit_match ic s (m_prev st) (m_rest st)) as [[p' s']|] eqn:E;
      [|destruct H].
    destruct H as [<-|[]]. simpl.
    destruct (lit_match_sound _ _ _ _ _ _ E) as (w & ? & ? & _). eauto.
  - destruct (m_rest st) as [|c s] eqn:E; [destruct H|].
    destruct (in_class ic p c); [|destruct H].
    destruct H as [<-|[]]. exists [c]; simpl; auto.
  - apply in_map_iff in H. destruct H as ([p' s'] & <- & H). simpl.
    apply rep_match_In in H. destruct H as (w & ? & _ & _ & ?). eauto.
  - apply in_flat_map in H. destruct H as (m & H1 & H2).
    destruct (IHr1 _ _ H1) as (w1 & E1 & P1).
    destruct (IHr2 _ _ H2) as (w2 & E2 & P2).
    exists (w1 ++ w2). rewrite <- app_assoc, <- E2, E1, last_opt_app, <- P1.
    auto.
  - apply in_app_iff in H. destruct H; eauto.
  - apply in_map_iff in H. destruct H as (m & <- & H). simpl. eauto.
  - destruct (xorb _ _); [|destruct H]. destruct H as [<-|[]].
    exists []; auto.
  - destruct (rmatch ic r st); [|destruct H]. destruct H as [<-|[]].
    exists []; auto.
  - destruct (m_prev st) eqn:E; [destruct H|]. destruct H as [<-|[]].
    exists []; auto.
  - destruct (m_rest st) as [|c [|d s]] eqn:E; try (destruct H; fail).
    + destruct H as [<-|[]]. exists []; auto.
    + destruct (N.eqb c 10); [|destruct H]. destruct H as [<-|[]].
      exists []; auto.
Qed.

(** What [match_at] reports. *)
Lemma match_at_Some ic r prev s n g :
  match_at ic r prev s = Some (n, g) ->
  exists st' w, rmatch ic r (MState prev s no_groups) = st' :: tl (rmatch ic r (MState prev s no_groups))
    /\ s = w ++ m_rest st' /\ length w = n /\ w <> []
    /\ m_prev st' = last_opt w prev
    /\ g = set_group 0 w (m_groups st').
Proof.
  unfold match_at. intros H.
  destruct (rmatch ic r (MState prev s no_groups)) as [|st' l] eqn:E;
    [discriminate|].
  assert (Hin : In st' (rmatch ic r (MState prev s no_groups)))
    by (rewrite E; left; auto).
  destruct (rmatch_reads _ _ _ _ Hin) as (w & Hr).
  destruct (reads_length _ _ _ Hr) as [Hf Hl]. destruct Hr as [Hs Hp].
  simpl in Hf, Hl, Hs, Hp. cbv zeta in H. rewrite Hf, Hl in H.
  destruct (length w) eqn:Ew; [discriminate|]. inversion H; subst.
  exists st', w. repeat split; auto. intros ->. discriminate.
Qed.

Lemma match_at_None ic r prev s :
  rmatch ic r (MState prev s no_groups) = [] -> match_at ic r prev s = None.
Proof. unfold match_at. intros ->. reflexivity. Qed.

(** *** The equations of [re.sub] *)

Lemma sub_loop_skip {S} ic r (f : S -> groups -> S * str) :
  forall w s prev st,
  sub_loop ic r f (length w) prev (w ++ s) st
  = sub_loop ic r f 0 (last_opt w prev) s st.
Proof.
  induction w as [|c w IH]; intros; simpl.
  - destruct s; reflexivity.
  - apply IH.
Qed.

Lemma sub_loop_match {S} ic r (f : S -> groups -> S * str) prev w s n g st :
  match_at ic r prev (w ++ s) = Some (n, g) -> length w = n ->
  sub_loop ic r f 0 prev (w ++ s) st
  = let (st1, out) := f st g in
    let (st2, tl) := sub_loop ic r f 0 (last_opt w prev) s st1 in
    (st2, out ++ tl).
Proof.
  intros H Hl. destruct w as [|c w].
  - simpl in Hl. subst n. apply match_at_Some in H.
    destruct H as (? & w & _ & _ & Hw & Hne & _). destruct w; simpl in *; congruence.
  - simpl app in *. simpl sub_loop. rewrite H. simpl in Hl. subst n. simpl pred.
    destruct (f st g) as [st1 out]. rewrite sub_loop_skip. reflexivity.
Qed.

Lemma sub_from_nil ic r f prev : sub_from ic r f prev [] = [].
Proof. reflexivity. Qed.

Lemma sub_from_copy ic r f prev c s :
  match_at ic r prev (c :: s) = None ->
  sub_from ic r f prev (c :: s) = c :: sub_from ic r f (Some c) s.
Proof.
  unfold sub_from. intros H. simpl. rewrite H.
  destruct (sub_loop ic r _ 0 (Some c) s tt). reflexivity.
Qed.

Lemma sub_from_match ic r f prev w s n g :
  match_at ic r prev (w ++ s) = Some (n, g) -> length w = n ->
  sub_from ic r f prev (w ++ s) = f g ++ sub_from ic r f (last_opt w prev) s.
Proof.
  unfold sub_from. intros H Hl. rewrite (sub_loop_match ic r _ prev w s n g tt H Hl).
  destruct (sub_loop ic r _ 0 (last_opt w prev) s tt). reflexivity.
Qed.

Lemma re_sub_with_from ic r f s : re_sub_with ic r f s = sub_from ic r f None s.
Proof. reflexivity. Qed.

(** Induction along a run of [re.sub]: at each position either no match is
    reported and one character is copied, or a match [w] is replaced. *)
Lemma sub_from_ind ic r f (Q : option char -> str -> str -> Prop) :
  (forall prev, Q prev [] []) ->
  (forall prev c s,
      match_at ic r prev (c :: s) = None ->
      Q (Some c) s (sub_from ic r f (Some c) s) ->
      Q prev (c :: s) (c :: sub_from ic r f (Some c) s)) ->
  (forall prev w s g,
      match_at ic r prev (w ++ s) = Some (length w, g) -> w <> [] ->
      g 0 = w ->
      Q (last_opt w prev) s (sub_from ic r f (last_opt w prev) s) ->
      Q prev (w ++ s) (f g ++ sub_from ic r f (last_opt w prev) s)) ->
  forall s prev, Q prev s (sub_from ic r f prev s).
Proof.
  intros Hnil Hcopy Hmatch s.
  remember (length s) as k eqn:Hk. revert s Hk.
  induction k as [k IH] using lt_wf_ind. intros s Hk prev.
  destruct s as [|c s].
  - apply Hnil.
  - destruct (match_at ic r prev (c :: s)) as [[n g]|] eqn:E.
    + destruct (match_at_Some _ _ _ _ _ _ E) as (st' & w & _ & Hs & Hl & Hne & Hp & Hg).
      rewrite Hs in E |- *. rewrite (sub_from_match _ _ _ _ _ _ _ _ E Hl).
      subst n. apply Hmatch; auto.
      * subst g. unfold set_group. simpl. reflexivity.
      * apply (IH (length (m_rest st'))); auto.
        subst k. rewrite Hs, length_app. destruct w; [congruence|simpl; lia].
    + rewrite (sub_from_copy _ _ _ _ _ _ E). apply Hcopy; auto.
      apply (IH (length s)); auto. subst k. simpl; lia.
Qed.

Lemma str_eqb_eq a b : str_eqb a b = true <-> a = b.
Proof.
  unfold str_eqb. destruct (list_eq_dec N.eq_dec a b); split; congruence.
Qed.

Lemma str_eqb_neq a b : str_eqb a b = false -> a <> b.
Proof. intros H E. apply str_eqb_eq in E. congruence. Qed.

(** Induction along a run of [re.sub] whose callback carries state. *)
Lemma sub_loop_ind {S} ic r (f : S -> groups -> S * str)
    (Q : option char -> str -> S -> S * str -> Prop) :
  (forall prev st, Q prev [] st (st, [])) ->
  (forall prev c s st st2 t,
      match_at ic r prev (c :: s) = None ->
      sub_loop ic r f 0 (Some c) s st = (st2, t) ->
      Q (Some c) s st (st2, t) ->
      Q prev (c :: s) st (st2, c :: t)) ->
  (forall prev w s g st st1 out st2 t,
      match_at ic r prev (w ++ s) = Some (length w, g) -> w <> [] ->
      g 0 = w ->
      f st g = (st1, out) ->
      sub_loop ic r f 0 (last_opt w prev) s st1 = (st2, t) ->
      Q (last_opt w prev) s st1 (st2, t) ->
      Q prev (w ++ s) st (st2, out ++ t)) ->
  forall s prev st, Q prev s st (sub_loop ic r f 0 prev s st).
Proof.
  intros Hnil Hcopy Hmatch s.
  remember (length s) as k eqn:Hk. revert s Hk.
  induction k as [k IH] using lt_wf_ind. intros s Hk prev st.
  destruct s as [|c s].
  - apply Hnil.
  - destruct (match_at ic r prev (c :: s)) as [[n g]|] eqn:E.
    + destruct (match_at_Some _ _ _ _ _ _ E)
        as (st' & w & _ & Hs & Hl & Hne & Hp & Hg).
      rewrite Hs in E |- *.
      rewrite (sub_loop_match ic r f prev w (m_rest st') n g st E Hl).
      destruct (f st g) as [st1 out] eqn:Ef.
      destruct (sub_loop ic r f 0 (last_opt w prev) (m_rest st') st1)
        as [st2 t] eqn:El.
      subst n. eapply Hmatch; eauto.
      * subst g. reflexivity.
      * rewrite <- El. apply (IH (length (m_rest st'))); auto.
        subst k. rewrite Hs, length_app. destruct w; [congruence|simpl; lia].
    + simpl. rewrite E.
      destruct (sub_loop ic r f 0 (Some c) s st) as [st2 t] eqn:El.
      apply Hcopy; auto. rewrite <- El.
      apply (IH (length s)); auto. subst k. simpl; lia.
Qed.

(** *** Membership in [rmatch], construct by construct *)

Lemma mstate_eta st : st = MState (m_prev st) (m_rest st) (m_groups st).
Proof. destruct st; reflexivity. Qed.

Lemma rmatch_Cat_In ic r1 r2 st st' :
  In st' (rmatch ic (Cat r1 r2) st) <->
  exists m, In m (rmatch ic r1 st) /\ In st' (rmatch ic r2 m).
Proof. simpl. apply in_flat_map. Qed.

Lemma rmatch_Alt_In ic r1 r2 st st' :
  In st' (rmatch ic (Alt r1 r2) st) <->
  In st' (rmatch ic r1 st) \/ In st' (rmatch ic r2 st).
Proof. simpl. apply in_app_iff. Qed.

Lemma rmatch_Lit_In l st st' :
  In st' (rmatch false (Lit l) st) <->
  m_rest st = l ++ m_rest st' /\ m_prev st' = last_opt l (m_prev st)
  /\ m_groups st' = m_groups st.
Proof.
  simpl. split.
  - destruct (lit_match false l (m_prev st) (m_rest st)) as [[p s]|] eqn:E;
      [|intros []].
    intros [<-|[]]. simpl. apply lit_match_false in E. tauto.
  - intros (H1 & H2 & H3).
    rewrite H1, lit_match_exact. left.
    destruct st'; simpl in *; congruence.
Qed.

Lemma rmatch_Cls_In ic p st st' :
  In st' (rmatch ic (Cls p) st) <->
  exists c, m_rest st = c :: m_rest st' /\ in_class ic p c = true
            /\ m_prev st' = Some c /\ m_groups st' = m_groups st.
Proof.
  simpl. split.
  - destruct (m_rest st) as [|c s]; [intros []|].
    destruct (in_class ic p c) eqn:E; [|intros []].
    intros [<-|[]]. exists c. simpl. auto.
  - intros (c & H1 & H2 & H3 & H4). rewrite H1, H2. left.
    destruct st'; simpl in *; congruence.
Qed.

Lemma rmatch_Rep_In ic n p st st' :
  In st' (rmatch ic (Rep n p) st) <->
  exists w, m_rest st = w ++ m_rest st'
            /\ forallb (in_class ic p) w = true /\ n <= length w
            /\ m_prev st' = last_opt w (m_prev st)
            /\ m_groups st' = m_groups st.
Proof.
  simpl. rewrite in_map_iff. split.
  - intros ([p' s'] & <- & H). simpl. apply rep_match_In in H.
    destruct H as (w & ? & ? & ? & ?). exists w. auto.
  - intros (w & H1 & H2 & H3 & H4 & H5).
    exists (m_prev st', m_rest st'). split.
    + destruct st'; simpl in *; congruence.
    + apply rep_match_In. exists w. auto.
Qed.

Lemma rmatch_Grp_In ic i r st st' :
  In st' (rmatch ic (Grp i r) st) <->
  exists m w, In m (rmatch ic r st) /\ reads st m w
              /\ st' = MState (m_prev m) (m_rest m)
                              (set_group i w (m_groups m)).
Proof.
  simpl. rewrite in_map_iff. split.
  - intros (m & <- & H). destruct (rmatch_reads _ _ _ _ H) as (w & Hw).
    exists m, w. destruct (reads_length _ _ _ Hw) as [-> _]. auto.
  - intros (m & w & H & Hw & ->). exists m.
    destruct (reads_length _ _ _ Hw) as [-> _]. auto.
Qed.

Lemma rmatch_opt_In ic r st st' :
  In st' (rmatch ic (opt r) st) <-> In st' (rmatch ic r st) \/ st' = st.
Proof.
  unfold opt. rewrite rmatch_Alt_In. destruct st as [p s g]. simpl.
  split; intros [H|H]; auto.
  all: try (destruct H as [H|[]]; right; auto; fail).
  all: try (right; left; auto; fail).
Qed.

(** A pattern all of whose matches read something is reported by
    [match_at] whenever it matches. *)
Lemma match_at_complete ic r prev s :
  (forall st', In st' (rmatch ic r (MState prev s no_groups)) ->
               m_rest st' <> s) ->
  rmatch ic r (MState prev s no_groups) <> [] ->
  exists n g, match_at ic r prev s = Some (n, g).
Proof.
  intros Hne Hm. unfold match_at.
  destruct (rmatch ic r (MState prev s no_groups)) as [|st' l] eqn:E;
    [congruence|].
  assert (Hin : In st' (rmatch ic r (MState prev s no_groups)))
    by (rewrite E; left; auto).
  destruct (rmatch_reads _ _ _ _ Hin) as (w & Hr).
  destruct (reads_length _ _ _ Hr) as [Hf Hl]. simpl in Hf, Hl.
  cbv zeta. rewrite Hf, Hl.
  destruct w as [|c w].
  - exfalso. apply (Hne st'); [left; auto|]. destruct Hr as [Hr _].
    simpl in Hr. auto.
  - simpl. eauto.
Qed.

Lemma match_at_None_inv ic r prev s :
  (forall st', In st' (rmatch ic r (MState prev s no_groups)) ->
               m_rest st' <> s) ->
  match_at ic r prev s = None -> rmatch ic r (MState prev s no_groups) = [].
Proof.
  intros Hne H.
  assert (D : forall l : list mstate, l = [] \/ l <> [])
    by (intros [|]; [left|right]; congruence).
  destruct (D (rmatch ic r (MState prev s no_groups))) as [E|E]; auto.
  destruct (match_at_complete ic r prev s Hne E) as (n & g & Hg). congruence.
Qed.

(** A [re.sub] that finds no match anywhere changes nothing. *)
Lemma sub_loop_no_match {S} ic r (f : S -> groups -> S * str)
    (good : str -> Prop) :
  (forall c s, good (c :: s) -> good s) ->
  (forall prev s, good s -> match_at ic r prev s = None) ->
  forall s prev st, good s -> sub_loop ic r f 0 prev s st = (st, s).
Proof.
  intros Hsuf Hnone. induction s as [|c s IH]; intros prev st Hg.
  - reflexivity.
  - simpl. rewrite (Hnone prev _ Hg). rewrite IH; eauto.
Qed.

Lemma sub_from_no_match ic r f (good : str -> Prop) :
  (forall c s, good (c :: s) -> good s) ->
  (forall prev s, good s -> match_at ic r prev s = None) ->
  forall s prev, good s -> sub_from ic r f prev s = s.
Proof.
  intros Hsuf Hnone s prev Hg. unfold sub_from.
  rewrite (sub_loop_no_match ic r _ good Hsuf Hnone); auto.
Qed.

(** *** Prefixes and inline tags *)

Lemma starts_with_iff p s : starts_with p s = true <-> exists s', s = p ++ s'.
Proof.
  unfold starts_with. split.
  - destruct (lit_match false p None s) as [[q s']|] eqn:E; [|discriminate].
    intros _. apply lit_match_false in E. destruct E; eauto.
  - intros (s' & ->). rewrite lit_match_exact. reflexivity.
Qed.

Lemma starts_with_cons c p d s :
  starts_with (c :: p) (d :: s) = (N.eqb c d && starts_with p s)%bool.
Proof.
  unfold starts_with. simpl. unfold char_eq.
  destruct (N.eqb c d) eqn:E; simpl; auto.
  destruct (lit_match false p (Some d) s) as [[q s']|] eqn:E1;
    destruct (lit_match false p None s) as [[q' s'']|] eqn:E2; auto.
  - apply lit_match_false in E1. destruct E1 as [-> _].
    rewrite lit_match_exact in E2. discriminate.
  - apply lit_match_false in E2. destruct E2 as [-> _].
    rewrite lit_match_exact in E1. discriminate.
Qed.

Lemma elem_app s1 s2 c : elem (s1 ++ s2) c = (elem s1 c || elem s2 c)%bool.
Proof. unfold elem. apply existsb_app. Qed.

Lemma elem_split s c :
  elem s c = true ->
  exists a b, s = a ++ c :: b /\ forallb (fun d => negb (N.eqb d c)) a = true.
Proof.
  induction s as [|d s IH]; simpl; [discriminate|].
  destruct (N.eqb c d) eqn:E; simpl.
  - intros _. apply N.eqb_eq in E. subst d. exists [], s. auto.
  - intros H. destruct (IH H) as (a & b & -> & Ha).
    exists (d :: a), b. simpl. rewrite Ha, N.eqb_sym, E. auto.
Qed.

Lemma tag_prefixes_shape pfx :
  In pfx tag_prefixes <->
  exists slash name, (slash = [] \/ slash = u "/") /\ In name html_tags
                     /\ pfx = u "<" ++ slash ++ name.
Proof.
  split.
  - intros H.
    repeat (destruct H as [<-|H];
      [ first
          [ exists [], (u "strong"); vm_compute; tauto
          | exists [], (u "em"); vm_compute; tauto
          | exists [], (u "b"); vm_compute; tauto
          | exists [], (u "i"); vm_compute; tauto
          | exists [], (u "u"); vm_compute; tauto
          | exists [], (u "span"); vm_compute; tauto
          | exists (u "/"), (u "strong"); vm_compute; tauto
          | exists (u "/"), (u "em"); vm_compute; tauto
          | exists (u "/"), (u "b"); vm_compute; tauto
          | exists (u "/"), (u "i"); vm_compute; tauto
          | exists (u "/"), (u "u"); vm_compute; tauto
          | exists (u "/"), (u "span"); vm_compute; tauto ] | ]).
    destruct H.
  - intros (slash & name & Hs & Hn & ->).
    destruct Hs as [-> | ->];
      repeat (destruct Hn as [<-|Hn]; [vm_compute; tauto|]); destruct Hn.
Qed.

Lemma tag_names_In st st' :
  In st' (rmatch false tag_names st) <->
  exists name, In name html_tags /\ m_rest st = name ++ m_rest st'
               /\ m_prev st' = last_opt name (m_prev st)
               /\ m_groups st' = m_groups st.
Proof.
  unfold tag_names. repeat rewrite rmatch_Alt_In. repeat rewrite rmatch_Lit_In.
  split.
  - intros H.
    repeat (destruct H as [H|H];
            [eexists; split; [|exact H]; vm_compute; tauto|]).
    eexists; split; [|exact H]; vm_compute; tauto.
  - intros (name & Hn & H).
    repeat (destruct Hn as [<-|Hn]; [tauto|]). destruct Hn.
Qed.

Lemma html_pattern_In st st' :
  In st' (rmatch false html_pattern st) <->
  exists pfx body, In pfx tag_prefixes
    /\ m_rest st = pfx ++ body ++ ch ">" :: m_rest st'
    /\ forallb (except ">") body = true
    /\ m_prev st' = Some (ch ">")
    /\ m_groups st' = m_groups st.
Proof.
  unfold html_pattern. split.
  - intros H.
    apply rmatch_Cat_In in H. destruct H as (m1 & H1 & H).
    apply rmatch_Cat_In in H. destruct H as (m2 & H2 & H).
    apply rmatch_Cat_In in H. destruct H as (m3 & H3 & H).
    apply rmatch_Cat_In in H. destruct H as (m4 & H4 & H5).
    apply rmatch_Lit_In in H1. destruct H1 as (E1 & P1 & G1).
    apply rmatch_opt_In in H2.
    apply tag_names_In in H3. destruct H3 as (name & Hn & E3 & P3 & G3).
    apply rmatch_Rep_In in H4. destruct H4 as (body & E4 & F4 & _ & P4 & G4).
    apply rmatch_Lit_In in H5. destruct H5 as (E5 & P5 & G5).
    destruct H2 as [H2| ->].
    + apply rmatch_Lit_In in H2. destruct H2 as (E2 & P2 & G2).
      exists (u "<" ++ u "/" ++ name), body. repeat split.
      * apply tag_prefixes_shape. exists (u "/"), name. auto.
      * rewrite E1, E2, E3, E4, E5. repeat rewrite <- app_assoc. reflexivity.
      * exact F4.
      * rewrite P5. reflexivity.
      * congruence.
    + exists (u "<" ++ name), body. repeat split.
      * apply tag_prefixes_shape. exists [], name. auto.
      * rewrite E1, E3, E4, E5. repeat rewrite <- app_assoc. reflexivity.
      * exact F4.
      * rewrite P5. reflexivity.
      * congruence.
  - intros (pfx & body & Hp & E & F & P & G).
    apply tag_prefixes_shape in Hp. destruct Hp as (slash & name & Hs & Hn & ->).
    destruct st as [p0 s0 g0]. simpl in E, G. subst s0.
    apply rmatch_Cat_In.
    exists (MState (Some (ch "<")) (slash ++ name ++ body ++ ch ">" :: m_rest st') g0).
    split. { apply rmatch_Lit_In. simpl. repeat rewrite <- app_assoc. auto. }
    apply rmatch_Cat_In.
    exists (MState (last_opt slash (Some (ch "<")))
                   (name ++ body ++ ch ">" :: m_rest st') g0).
    split.
    { apply rmatch_opt_In. destruct Hs as [-> | ->].
      - right. reflexivity.
      - left. apply rmatch_Lit_In. simpl. auto. }
    apply rmatch_Cat_In.
    exists (MState (last_opt name (last_opt slash (Some (ch "<"))))
                   (body ++ ch ">" :: m_rest st') g0).
    split. { apply tag_names_In. exists name. simpl. auto. }
    apply rmatch_Cat_In.
    exists (MState (last_opt body (last_opt name (last_opt slash (Some (ch "<")))))
                   (ch ">" :: m_rest st') g0).
    split. { apply rmatch_Rep_In. exists body. simpl. repeat split; auto. lia. }
    apply rmatch_Lit_In. simpl. auto.
Qed.

Lemma tag_here_iff s :
  tag_here s = true <->
  exists pfx body rest, In pfx tag_prefixes
    /\ s = pfx ++ body ++ ch ">" :: rest
    /\ forallb (except ">") body = true.
Proof.
  unfold tag_here. rewrite andb_true_iff, existsb_exists. split.
  - intros ((pfx & Hp & Hs) & He).
    apply starts_with_iff in Hs. destruct Hs as (s' & ->).
    rewrite elem_app in He.
    assert (Hno : elem pfx (ch ">") = false).
    { clear -Hp. repeat (destruct Hp as [<-|Hp]; [vm_compute; reflexivity|]).
      destruct Hp. }
    rewrite Hno in He. simpl in He.
    destruct (elem_split _ _ He) as (a & b & -> & Ha).
    exists pfx, a, b. repeat split; auto.
  - intros (pfx & body & rest & Hp & -> & F). split.
    + exists pfx. split; auto. apply starts_with_iff. eauto.
    + assert (He : elem (ch ">" :: rest) (ch ">") = true).
      { unfold elem. apply existsb_exists. exists (ch ">").
        split; [left; auto | apply N.eqb_refl]. }
      repeat rewrite elem_app. rewrite He.
      rewrite orb_true_r. apply orb_true_r.
Qed.

Lemma html_pattern_tag_here prev s g :
  rmatch false html_pattern (MState prev s g) <> [] <-> tag_here s = true.
Proof.
  rewrite tag_here_iff. split.
  - intros H. destruct (rmatch false html_pattern (MState prev s g))
      as [|st' l] eqn:E; [congruence|].
    assert (Hin : In st' (rmatch false html_pattern (MState prev s g)))
      by (rewrite E; left; auto).
    apply html_pattern_In in Hin.
    destruct Hin as (pfx & body & Hp & Hs & F & _). simpl in Hs.
    exists pfx, body, (m_rest st'). auto.
  - intros (pfx & body & rest & Hp & Hs & F) E.
    assert (Hin : In (MState (Some (ch ">")) rest g)
                     (rmatch false html_pattern (MState prev s g))).
    { apply html_pattern_In. exists pfx, body. simpl. auto. }
    rewrite E in Hin. destruct Hin.
Qed.

(** *** Texts without inline tags *)

Lemma tag_prefix_space_free pfx : In pfx tag_prefixes -> space_free pfx = true.
Proof.
  intros H. repeat (destruct H as [<-|H]; [vm_compute; reflexivity|]).
  destruct H.
Qed.

Lemma tag_prefix_lt pfx :
  In pfx tag_prefixes -> exists p, pfx = ch "<" :: p.
Proof.
  intros H. repeat (destruct H as [<-|H]; [eexists; reflexivity|]).
  destruct H.
Qed.

Lemma tag_here_lt c s : tag_here (c :: s) = true -> c = ch "<".
Proof.
  intros H. apply tag_here_iff in H.
  destruct H as (pfx & body & rest & Hp & E & _).
  destruct (tag_prefix_lt _ Hp) as (p & ->). simpl in E.
  inversion E. reflexivity.
Qed.

Lemma tag_here_transfer s t :
  prefix_transfer s t -> gt_transfer s t ->
  tag_here t = true -> tag_here s = true.
Proof.
  unfold tag_here. intros PT MT H. apply andb_true_iff in H as [H1 H2].
  apply andb_true_iff. split; [|auto].
  apply existsb_exists in H1. destruct H1 as (pfx & Hp & Hs).
  apply existsb_exists. exists pfx. split; auto.
  apply PT; auto. apply tag_prefix_space_free; auto.
Qed.

Lemma tag_here_app s b : tag_here s = true -> tag_here (s ++ b) = true.
Proof.
  intros H. apply tag_here_iff in H.
  destruct H as (pfx & body & rest & Hp & -> & F).
  apply tag_here_iff. exists pfx, body, (rest ++ b).
  repeat rewrite <- app_assoc. simpl. auto.
Qed.

Lemma has_tag_suffix a s : has_tag (a ++ s) = false -> has_tag s = false.
Proof.
  induction a as [|c a IH]; simpl; auto.
  intros H. apply orb_false_iff in H. tauto.
Qed.

Lemma has_tag_prefix s b : has_tag (s ++ b) = false -> has_tag s = false.
Proof.
  induction s as [|c s IH]; simpl; auto.
  intros H. apply orb_false_iff in H as [H1 H2].
  apply orb_false_iff. split; auto.
  destruct (tag_here (c :: s)) eqn:E; auto.
  apply (tag_here_app _ b) in E. simpl in E. congruence.
Qed.

Lemma has_tag_neutral out t :
  elem out (ch "<") = false -> has_tag (out ++ t) = has_tag t.
Proof.
  induction out as [|c out IH]; simpl; auto.
  intros H. apply orb_false_iff in H as [H1 H2].
  rewrite IH by auto.
  destruct (tag_here (c :: out ++ t)) eqn:E; auto.
  apply tag_here_lt in E. subst c. vm_compute in H1. discriminate.
Qed.

Lemma sub_loop_tagless {S} ic r (f : S -> groups -> S * str)
    (ok : str -> Prop) :
  (forall w s, ok (w ++ s) -> ok s) ->
  (forall prev c s, ok (c :: s) -> match_at ic r prev (c :: s) = None ->
                    tag_here (c :: s) = false) ->
  (forall st g, neutral (snd (f st g))) ->
  forall s prev st, ok s ->
    has_tag (snd (sub_loop ic r f 0 prev s st)) = false
    /\ prefix_transfer s (snd (sub_loop ic r f 0 prev s st))
    /\ gt_transfer s (snd (sub_loop ic r f 0 prev s st)).
Proof.
  intros Hok Hcopy Hout s prev st.
  apply (sub_loop_ind ic r f
    (fun prev s st res => ok s ->
       has_tag (snd res) = false /\ prefix_transfer s (snd res)
       /\ gt_transfer s (snd res))).
  - intros. simpl. repeat split; auto; intros x; auto.
  - intros prev0 c s0 st0 st2 t Hnone Hrun IH Hk. simpl snd in *.
    destruct (IH (Hok [c] s0 Hk)) as (IH1 & IH2 & IH3).
    assert (PT : prefix_transfer (c :: s0) (c :: t)).
    { intros x Hx Hs. destruct x as [|d x]; [reflexivity|].
      rewrite starts_with_cons in *. apply andb_true_iff in Hs as [E Hs].
      simpl in Hx. apply andb_true_iff in Hx as [_ Hx].
      rewrite E. simpl. apply IH2; auto. }
    assert (MT : gt_transfer (c :: s0) (c :: t)).
    { unfold gt_transfer, elem in *. simpl. intros H.
      apply orb_true_iff in H. apply orb_true_iff. destruct H; auto. }
    repeat split; auto.
    cbn [has_tag]. rewrite IH1, orb_false_r.
    destruct (tag_here (c :: t)) eqn:E; auto.
    rewrite <- (Hcopy prev0 c s0 Hk Hnone).
    symmetry. apply (tag_here_transfer _ _ PT MT E).
  - intros prev0 w s0 g st0 st1 out st2 t Hm Hne Hg Hf Hrun IH Hk. simpl snd in *.
    destruct (IH (Hok w s0 Hk)) as (IH1 & IH2 & IH3).
    pose proof (Hout st0 g) as Hn. rewrite Hf in Hn. simpl in Hn.
    destruct Hn as ((o & ->) & Hlt & Hgt).
    repeat split.
    + rewrite has_tag_neutral; auto.
    + intros x Hx Hs. destruct x as [|d x]; [reflexivity|].
      simpl app in Hs. rewrite starts_with_cons in Hs.
      apply andb_true_iff in Hs as [E _].
      change (negb (N.eqb d space) && space_free x = true) in Hx.
      apply andb_true_iff in Hx as [Hx _]. apply negb_true_iff in Hx.
      congruence.
    + unfold gt_transfer in *. rewrite !elem_app, Hgt.
      intros H. rewrite (IH3 H). apply orb_true_r.
Qed.

(** *** Greedy repetition and the collapse of runs *)

Lemma rep_match_0_nonempty ic p prev s : rep_match ic p 0 prev s <> [].
Proof.
  destruct s as [|c s]; simpl; intros H.
  - discriminate.
  - apply app_eq_nil in H. destruct H; discriminate.
Qed.

(** The first alternative of a repetition is the longest run. *)
Lemma rep_match_head ic p : forall s n prev p' s' l,
  rep_match ic p n prev s = (p', s') :: l ->
  match s' with [] => True | d :: _ => in_class ic p d = false end.
Proof.
  induction s as [|c s IH]; intros n prev p' s' l H; simpl in H.
  - destruct n; simpl in H; [|discriminate]. inversion H; subst. exact I.
  - destruct (in_class ic p c) eqn:E.
    + destruct (rep_match ic p (pred n) (Some c) s) as [|[q t] l'] eqn:E1.
      * destruct n; simpl in H; [|discriminate].
        exfalso. simpl in E1. exact (rep_match_0_nonempty _ _ _ _ E1).
      * simpl in H. inversion H; subst. eapply IH; eauto.
    + simpl in H. destruct n; simpl in H; [|discriminate].
      inversion H; subst. exact E.
Qed.

Lemma match_at_Rep ic n p prev w s g :
  match_at ic (Rep n p) prev (w ++ s) = Some (length w, g) -> w <> [] ->
  forallb (in_class ic p) w = true /\ n <= length w
  /\ match s with [] => True | d :: _ => in_class ic p d = false end.
Proof.
  intros H Hne. apply match_at_Some in H.
  destruct H as (st' & w' & Hhd & Hs & Hl & _ & _ & _).
  assert (w' = w).
  { assert (E : firstn (length w') (w' ++ m_rest st')
                = firstn (length w) (w ++ s)) by congruence.
    rewrite !firstn_app, !firstn_all, !Nat.sub_diag in E. simpl in E.
    rewrite !app_nil_r in E. auto. }
  subst w'. apply app_inv_head in Hs. subst s.
  assert (Hin : In st' (rmatch ic (Rep n p) (MState prev (w ++ m_rest st') no_groups)))
    by (rewrite Hhd; left; auto).
  apply rmatch_Rep_In in Hin. destruct Hin as (w2 & E2 & F & Hn & _).
  simpl in E2. apply app_inv_tail in E2. subst w2.
  repeat split; auto.
  simpl in Hhd.
  destruct (rep_match ic p n prev (w ++ m_rest st')) as [|[q t] l] eqn:E;
    [discriminate|].
  simpl in Hhd. inversion Hhd; subst.
  apply rep_match_head in E. exact E.
Qed.

Lemma match_at_Rep_None ic n p prev s w s' :
  match_at ic (Rep n p) prev s = None ->
  s = w ++ s' -> forallb (in_class ic p) w = true -> n <= length w ->
  0 < n -> False.
Proof.
  intros H -> F Hn Hpos.
  destruct (match_at_complete ic (Rep n p) prev (w ++ s')) as (k & g & E).
  - intros st' Hin E. apply rmatch_Rep_In in Hin.
    destruct Hin as (w2 & E2 & _ & Hn2 & _). simpl in E2.
    rewrite E in E2. assert (length (w ++ s') = length (w2 ++ w ++ s'))
      by congruence.
    rewrite !length_app in *. lia.
  - intros E.
    assert (Hin : In (MState (last_opt w prev) s' no_groups)
                     (rmatch ic (Rep n p) (MState prev (w ++ s') no_groups))).
    { apply rmatch_Rep_In. exists w. simpl. auto. }
    rewrite E in Hin. destruct Hin.
  - congruence.
Qed.

Lemma no_double_suffix p w s :
  no_double p (w ++ s) = true -> no_double p s = true.
Proof.
  induction w as [|c w IH]; auto.
  intros H. apply IH. simpl in H. destruct (w ++ s); auto.
  apply andb_true_iff in H. tauto.
Qed.

Lemma no_double_prefix p s b :
  no_double p (s ++ b) = true -> no_double p s = true.
Proof.
  induction s as [|c s IH]; auto.
  intros H. simpl in H. destruct s as [|d s]; auto.
  simpl app in H. apply andb_true_iff in H as [H1 H2].
  simpl. rewrite H1. simpl. apply IH. exact H2.
Qed.

(** After the collapse of runs no two characters of the class are
    adjacent. *)
Lemma collapse_no_double p c0 s :
  p c0 = true ->
  no_double p (re_sub (Rep 2 p) (tpl_const [c0]) s) = true.
Proof.
  intros Hc0. unfold re_sub. rewrite re_sub_with_from.
  assert (H : no_double p (sub_from false (Rep 2 p) (tpl_const [c0]) None s)
              = true
              /\ (forall d t, sub_from false (Rep 2 p) (tpl_const [c0]) None s
                              = d :: t -> p d = true ->
                  exists e s', s = e :: s' /\ p e = true)); [|tauto].
  apply (sub_from_ind false (Rep 2 p) (tpl_const [c0])
    (fun prev s t => no_double p t = true
       /\ (forall d t', t = d :: t' -> p d = true ->
           exists e s', s = e :: s' /\ p e = true))).
  - intros. split; auto. discriminate.
  - intros prev c s0 Hnone [IH1 IH2]. split.
    + simpl. destruct (sub_from false (Rep 2 p) (tpl_const [c0]) (Some c) s0)
        as [|d t] eqn:E; auto.
      rewrite IH1, andb_true_r. apply negb_true_iff.
      destruct (p c) eqn:Ec; auto. destruct (p d) eqn:Ed; auto.
      exfalso. destruct (IH2 d t eq_refl Ed) as (e & s' & -> & Ee).
      apply (match_at_Rep_None false 2 p prev (c :: e :: s') [c; e] s' Hnone);
        auto. simpl. rewrite Ec, Ee. reflexivity.
    + intros d t' E Hd. inversion E; subst. eauto.
  - intros prev w s0 g Hm Hne Hg [IH1 IH2].
    destruct (match_at_Rep false 2 p prev w s0 g Hm Hne) as (F & Hn & Hs).
    change (tpl_const [c0] g) with [c0]. simpl app. split.
    + simpl. destruct (sub_from false (Rep 2 p) (tpl_const [c0])
                         (last_opt w prev) s0) as [|d t] eqn:E; auto.
      rewrite IH1, andb_true_r. apply negb_true_iff. rewrite Hc0. simpl.
      destruct (p d) eqn:Ed; auto. exfalso.
      destruct (IH2 d t eq_refl Ed) as (e & s' & -> & Ee).
      simpl in Hs. congruence.
    + intros d t' _ _. destruct w as [|e w]; [congruence|].
      exists e, (w ++ s0). split; auto. simpl in F.
      apply andb_true_iff in F. tauto.
Qed.

(** A text without adjacent characters of the class is left alone. *)
Lemma collapse_id p f s :
  no_double p s = true -> re_sub (Rep 2 p) f s = s.
Proof.
  intros H. unfold re_sub. rewrite re_sub_with_from.
  apply (sub_from_no_match false (Rep 2 p) f
           (fun s => no_double p s = true)); auto.
  - intros c s0. apply (no_double_suffix p [c]).
  - intros prev s0 H0.
    destruct (match_at false (Rep 2 p) prev s0) as [[n g]|] eqn:E; auto.
    exfalso. apply match_at_Some in E.
    destruct E as (st' & w & Hhd & Hs & Hl & _).
    assert (Hin : In st' (rmatch false (Rep 2 p) (MState prev s0 no_groups)))
      by (rewrite Hhd; left; auto).
    apply rmatch_Rep_In in Hin. destruct Hin as (w2 & E2 & F & Hn & _).
    simpl in E2. rewrite E2 in H0.
    destruct w2 as [|a [|b w2]]; simpl in Hn; try lia.
    simpl in F. apply andb_true_iff in F as [Fa F].
    apply andb_true_iff in F as [Fb _].
    change (negb (p a && p b) && no_double p (b :: w2 ++ m_rest st') = true)
      in H0.
    rewrite Fa, Fb in H0. discriminate.
Qed.

(** Taking a match apart, construct by construct. *)
Ltac unmatch :=
  repeat match goal with
  | H : In _ (rmatch _ (Cat _ _) _) |- _ =>
      apply rmatch_Cat_In in H; destruct H as (? & ? & ?)
  | H : In _ (rmatch _ (Alt _ _) _) |- _ =>
      apply rmatch_Alt_In in H; destruct H as [?|?]
  | H : In _ (rmatch false (Lit _) _) |- _ =>
      apply rmatch_Lit_In in H; destruct H as (? & ? & ?)
  | H : In _ (rmatch _ (Cls _) _) |- _ =>
      apply rmatch_Cls_In in H; destruct H as (? & ? & ? & ? & ?)
  | H : In _ (rmatch _ (Rep _ _) _) |- _ =>
      apply rmatch_Rep_In in H; destruct H as (? & ? & ? & ? & ? & ?)
  | H : In _ (rmatch _ (Grp _ _) _) |- _ =>
      apply rmatch_Grp_In in H; destruct H as (? & ? & ? & ? & ?)
  end.

(** *** Placeholders *)

Lemma uint_chars_digits d : forallb digit (uint_chars d) = true.
Proof. induction d; simpl; auto. Qed.

Lemma str_of_nat_digits n : forallb digit (str_of_nat n) = true.
Proof. apply uint_chars_digits. Qed.

Lemma elem_false_forall s c (p : char -> bool) :
  forallb p s = true -> p c = false -> elem s c = false.
Proof.
  intros F Hc. unfold elem. induction s as [|d s IH]; simpl; auto.
  simpl in F. apply andb_true_iff in F as [Fd F]. rewrite IH by auto.
  destruct (N.eqb c d) eqn:E; auto. apply N.eqb_eq in E. congruence.
Qed.

Lemma placeholder_padding_neutral counter :
  neutral (u " " ++ placeholder counter ++ u " ").
Proof.
  unfold neutral, placeholder. split; [eexists; reflexivity|].
  repeat rewrite elem_app.
  rewrite (elem_false_forall _ (ch "<") digit (str_of_nat_digits counter))
    by reflexivity.
  rewrite (elem_false_forall _ (ch ">") digit (str_of_nat_digits counter))
    by reflexivity.
  split; reflexivity.
Qed.

(** *** The shielded text holds no inline tag and no run of spaces *)

Lemma html_pattern_reads_something prev s st' :
  In st' (rmatch false html_pattern (MState prev s no_groups)) ->
  m_rest st' <> s.
Proof.
  intros H E. apply html_pattern_In in H.
  destruct H as (pfx & body & Hp & Hs & _). simpl in Hs. rewrite E in Hs.
  apply (f_equal (@length char)) in Hs.
  rewrite !length_app in Hs. simpl in Hs. lia.
Qed.

Lemma html_pattern_None prev s :
  match_at false html_pattern prev s = None -> tag_here s = false.
Proof.
  intros H. apply match_at_None_inv in H.
  - destruct (tag_here s) eqn:E; auto.
    apply (html_pattern_tag_here prev s no_groups) in E. congruence.
  - apply html_pattern_reads_something.
Qed.

Lemma has_tag_here s : tag_here s = true -> has_tag s = true.
Proof.
  destruct s; simpl; intros H.
  - apply tag_here_iff in H. destruct H as (pfx & body & rest & Hp & E & _).
    destruct (tag_prefix_lt _ Hp) as (p & ->). discriminate.
  - rewrite H. reflexivity.
Qed.


Lemma html_pattern_Some_tag prev s n g :
  match_at false html_pattern prev s = Some (n, g) -> has_tag s = true.
Proof.
  intros H. apply has_tag_here.
  apply (html_pattern_tag_here prev s no_groups).
  apply match_at_Some in H. destruct H as (st' & w & E & _).
  rewrite E. discriminate.
Qed.

Lemma shielding_leaves_no_tag text st0 :
  has_tag (snd (re_sub_state false html_pattern replace_tag text st0)) = false.
Proof.
  unfold re_sub_state.
  apply (sub_loop_tagless false html_pattern replace_tag (fun _ => True));
    auto.
  - intros prev c s _ H. apply (html_pattern_None prev). exact H.
  - intros [counter d] g. simpl. apply placeholder_padding_neutral.
Qed.

Lemma collapse_leaves_no_tag s :
  has_tag s = false ->
  has_tag (re_sub spaces2 (tpl_const (u " ")) s) = false.
Proof.
  intros H. unfold re_sub, re_sub_with, re_sub_state.
  apply (sub_loop_tagless false spaces2 (fun (_ : unit) g => (tt, tpl_const (u " ") g))
           (fun s => has_tag s = false)); auto.
  - intros w s0. apply has_tag_suffix.
  - intros prev c s0 Hk _. simpl in Hk. apply orb_false_iff in Hk. tauto.
  - intros st g. unfold neutral. simpl.
    split; [eexists; reflexivity | split; reflexivity].
Qed.

Lemma spaces_collapsed s :
  no_double (only " ") (re_sub spaces2 (tpl_const (u " ")) s) = true.
Proof. apply (collapse_no_double (only " ") space). reflexivity. Qed.

Lemma preprocess_shield_clean text self :
  shield_clean (fst (preprocess_for_translation text self)).
Proof.
  unfold preprocess_for_translation. destruct text as [|c text].
  - split; reflexivity.
  - destruct (re_sub_state false html_pattern replace_tag (c :: text) (0, []))
      as [[k d] r] eqn:E.
    simpl. split.
    + apply collapse_leaves_no_tag.
      pose proof (shielding_leaves_no_tag (c :: text) (0, [])) as H.
      rewrite E in H. exact H.
    + apply spaces_collapsed.
Qed.

Lemma shield_clean_suffix a s : shield_clean (a ++ s) -> shield_clean s.
Proof.
  intros [H1 H2]. split.
  - eapply has_tag_suffix; eauto.
  - eapply no_double_suffix; eauto.
Qed.

Lemma shield_clean_prefix s b : shield_clean (s ++ b) -> shield_clean s.
Proof.
  intros [H1 H2]. split.
  - eapply has_tag_prefix; eauto.
  - eapply no_double_prefix; eauto.
Qed.

(** *** Shielding and unshielding a clean text change nothing *)



Lemma open_tag_In tag st st' :
  In st' (rmatch false (open_tag tag) st) ->
  exists body, m_rest st = (u "<" ++ tag) ++ body ++ ch ">" :: m_rest st'
               /\ forallb (except ">") body = true.
Proof.
  unfold open_tag. intros H. unmatch.
  match goal with
  | H1 : m_rest st = _, H2 : m_rest ?m1 = ?b ++ m_rest ?m2,
    H3 : m_rest ?m2 = _ |- _ =>
      exists b; rewrite H1, H2, H3; split; auto
  end.
Qed.







Lemma replace_all_nil s : replace_all [] s = s.
Proof. reflexivity. Qed.


Lemma shield_tagless_id s st0 :
  has_tag s = false ->
  re_sub_state false html_pattern replace_tag s st0 = (st0, s).
Proof.
  intros H. unfold re_sub_state.
  apply (sub_loop_no_match false html_pattern replace_tag
           (fun s => has_tag s = false)); auto.
  - intros c s0. apply (has_tag_suffix [c]).
  - intros prev s0 H0.
    destruct (match_at false html_pattern prev s0) as [[n g]|] eqn:E; auto.
    apply html_pattern_Some_tag in E. congruence.
Qed.

Lemma preprocess_clean c self :
  shield_clean c -> c <> [] ->
  preprocess_for_translation c self = (c, Translator (Some []) (trace self)).
Proof.
  intros [Ht Hd] Hne. unfold preprocess_for_translation.
  destruct c as [|a c]; [congruence|].
  rewrite (shield_tagless_id _ _ Ht).
  rewrite (collapse_id _ _ _ Hd). reflexivity.
Qed.


(** *** [re.split] loses nothing *)

Lemma split_loop_skip r : forall w s prev cur,
  s <> [] \/ w = [] ->
  split_loop r (length w) prev (w ++ s) cur
  = split_loop r 0 (last_opt w prev) s cur.
Proof.
  induction w as [|c w IH]; intros s prev cur H; simpl.
  - destruct s; reflexivity.
  - destruct H as [H|H]; [|discriminate]. apply IH. auto.
Qed.

Lemma split_loop_skip_all r : forall w prev cur,
  split_loop r (length w) prev w cur = [rev cur].
Proof.
  induction w as [|c w IH]; intros prev cur; simpl; auto.
Qed.

Lemma concat_split_loop r :
  (forall prev s n g, match_at false r prev s = Some (n, g) -> g 1 = g 0) ->
  forall s prev cur, concat (split_loop r 0 prev s cur) = rev cur ++ s.
Proof.
  intros Hg s. remember (length s) as k eqn:Hk. revert s Hk.
  induction k as [k IH] using lt_wf_ind. intros s Hk prev cur.
  destruct s as [|c s]; simpl.
  - rewrite !app_nil_r. reflexivity.
  - destruct (match_at false r prev (c :: s)) as [[n g]|] eqn:E.
    + pose proof (Hg _ _ _ _ E) as Hg1.
      destruct (match_at_Some _ _ _ _ _ _ E)
        as (st' & w & _ & Hs & Hl & Hne & _ & Hg0).
      assert (Hg0' : g 0 = w) by (subst g; reflexivity).
      destruct w as [|c' w]; [congruence|]. simpl in Hs.
      injection Hs as Hc Hs'. subst c'.
      simpl in Hl. subst n. simpl pred. simpl concat. rewrite Hs'.
      destruct (m_rest st') as [|d s'] eqn:Es'.
      * rewrite app_nil_r, split_loop_skip_all. simpl.
        rewrite Hg1, Hg0'. rewrite app_nil_r. reflexivity.
      * rewrite split_loop_skip by (left; discriminate).
        rewrite (IH (length (d :: s'))); auto.
        -- simpl. rewrite Hg1, Hg0'. reflexivity.
        -- subst k. rewrite Hs'. simpl. rewrite length_app. simpl. lia.
    + rewrite (IH (length s)); auto.
      * simpl. rewrite <- app_assoc. reflexivity.
      * subst k. simpl. lia.
Qed.

Lemma sentence_end_group prev s n g :
  match_at false sentence_end prev s = Some (n, g) -> g 1 = g 0.
Proof.
  intros H. apply match_at_Some in H.
  destruct H as (st' & w & Hhd & Hs & Hl & _ & _ & Hg).
  assert (Hin : In st' (rmatch false sentence_end (MState prev s no_groups)))
    by (rewrite Hhd; left; auto).
  unfold sentence_end in Hin. apply rmatch_Grp_In in Hin.
  destruct Hin as (m & w' & _ & Hr & ->). simpl in *.
  destruct Hr as [Hr _]. simpl in Hr. rewrite Hr in Hs.
  apply app_inv_tail in Hs. subst. reflexivity.
Qed.

Lemma concat_re_split_sentences s : concat (re_split sentence_end s) = s.
Proof.
  unfold re_split. rewrite (concat_split_loop _ sentence_end_group).
  reflexivity.
Qed.

(** *** The chunk loop *)

Lemma concat_chunks_loop : forall sentences cur,
  concat (chunks_loop sentences cur) = cur ++ concat sentences.
Proof.
  induction sentences as [|part ss IH]; intros cur; simpl.
  - destruct cur; simpl; rewrite ?app_nil_r; reflexivity.
  - destruct (length (cur ++ part) <? 4500).
    + rewrite IH, app_assoc. reflexivity.
    + rewrite concat_app, IH. destruct cur; simpl; rewrite ?app_nil_r; auto.
Qed.

Lemma concat_chunks text : concat (chunks text) = text.
Proof.
  unfold chunks. rewrite concat_chunks_loop. apply concat_re_split_sentences.
Qed.






(** *** Substitutions that only put spaces in *)

Lemma spaced_refl P s : spaced P s s.
Proof. induction s; constructor; auto. Qed.

Lemma spaced_keep_prefix P w s t : spaced P s t -> spaced P (w ++ s) (w ++ t).
Proof. induction w; simpl; auto. intros. constructor; auto. Qed.

Lemma spaced_mid P w1 c d w2 s t :
  P c d = true -> spaced P s t ->
  spaced P ((w1 ++ c :: d :: w2) ++ s) ((w1 ++ c :: space :: d :: w2) ++ t).
Proof.
  intros HP H. rewrite <- !app_assoc. apply spaced_keep_prefix. simpl.
  apply spaced_ins; auto. constructor. apply spaced_keep_prefix. exact H.
Qed.

Lemma spaced_mono (P Q : char -> char -> bool) s t :
  (forall c d, P c d = true -> Q c d = true) -> spaced P s t -> spaced Q s t.
Proof.
  intros HPQ H.
  induction H; [constructor | constructor; auto | apply spaced_ins; auto].
Qed.

(** A [re.sub] each of whose replacements is the match with one space put
    inside it. *)
Lemma sub_from_spaced ic r f P :
  (forall prev s n g, match_at ic r prev s = Some (n, g) ->
     exists w1 c d w2, g 0 = w1 ++ c :: d :: w2
                       /\ f g = w1 ++ c :: space :: d :: w2
                       /\ P c d = true) ->
  forall s prev, spaced P s (sub_from ic r f prev s).
Proof.
  intros Hf. apply (sub_from_ind ic r f (fun _ s t => spaced P s t)).
  - intros. constructor.
  - intros. constructor. auto.
  - intros prev w s g Hm Hne Hg IH.
    destruct (Hf _ _ _ _ Hm) as (w1 & c & d & w2 & E0 & Ef & HP).
    rewrite Ef. assert (Ew : w = w1 ++ c :: d :: w2) by congruence.
    clear Hm Hg E0. subst w. apply spaced_mid; auto.
Qed.

Lemma rmatch_groupless ic r : forall st st',
  groupless r = true -> In st' (rmatch ic r st) -> m_groups st' = m_groups st.
Proof.
  induction r; intros st st' Hg H; simpl in Hg; try discriminate.
  - simpl in H. destruct (lit_match ic s (m_prev st) (m_rest st)) as [[? ?]|];
      [|destruct H]. destruct H as [<-|[]]. reflexivity.
  - apply rmatch_Cls_In in H. destruct H as (c & _ & _ & _ & E). exact E.
  - apply rmatch_Rep_In in H. destruct H as (w & _ & _ & _ & _ & E). exact E.
  - apply andb_true_iff in Hg as [G1 G2]. apply rmatch_Cat_In in H.
    destruct H as (m & H1 & H2).
    rewrite (IHr2 _ _ G2 H2). apply (IHr1 _ _ G1 H1).
  - apply andb_true_iff in Hg as [G1 G2]. apply rmatch_Alt_In in H.
    destruct H; eauto.
  - simpl in H. destruct (xorb _ _); [|destruct H].
    destruct H as [<-|[]]. reflexivity.
  - simpl in H. destruct (rmatch ic r st); [|destruct H].
    destruct H as [<-|[]]. reflexivity.
  - simpl in H. destruct (m_prev st); [destruct H|].
    destruct H as [<-|[]]. reflexivity.
  - simpl in H. destruct (m_rest st) as [|c [|d s]]; try (destruct H; fail).
    + destruct H as [<-|[]]. reflexivity.
    + destruct (N.eqb c 10); [|destruct H]. destruct H as [<-|[]]. reflexivity.
Qed.

Lemma reads_app st m st' w1 w2 :
  reads st m w1 -> reads m st' w2 -> reads st st' (w1 ++ w2).
Proof.
  intros [E1 P1] [E2 P2]. split.
  - rewrite E1, E2, app_assoc. reflexivity.
  - rewrite P2, P1, last_opt_app. reflexivity.
Qed.

(** What the two groups of a pattern [(A)(B)Z] hold, [Z] reading
    nothing that is kept (a look-ahead, or nothing at all). *)
Lemma two_groups ic A B Z prev s n g :
  groupless B = true -> groupless Z = true ->
  match_at ic (Grp 1 A +++ Grp 2 B +++ Z) prev s = Some (n, g) ->
  exists m1 m2 m3 w1 w2 w3,
    In m1 (rmatch ic A (MState prev s no_groups))
    /\ reads (MState prev s no_groups) m1 w1
    /\ In m2 (rmatch ic B (MState (m_prev m1) (m_rest m1)
                                  (set_group 1 w1 (m_groups m1))))
    /\ reads m1 m2 w2
    /\ In m3 (rmatch ic Z (MState (m_prev m2) (m_rest m2)
                                  (set_group 2 w2 (m_groups m2))))
    /\ reads m2 m3 w3
    /\ g 0 = w1 ++ w2 ++ w3 /\ g 1 = w1 /\ g 2 = w2.
Proof.
  intros GB GZ H. apply match_at_Some in H.
  destruct H as (st' & w & Hhd & Hs & Hl & Hne & Hp & Hg).
  assert (Hin : In st' (rmatch ic (Grp 1 A +++ Grp 2 B +++ Z)
                               (MState prev s no_groups)))
    by (rewrite Hhd; left; auto).
  apply rmatch_Cat_In in Hin. destruct Hin as (x1 & H1 & Hin).
  apply rmatch_Cat_In in Hin. destruct Hin as (x2 & H2 & H3).
  apply rmatch_Grp_In in H1. destruct H1 as (m1 & w1 & H1 & R1 & ->).
  apply rmatch_Grp_In in H2. destruct H2 as (m2 & w2 & H2 & R2 & ->).
  destruct (rmatch_reads _ _ _ _ H3) as (w3 & R3).
  pose proof (rmatch_groupless _ _ _ _ GB H2) as G2. simpl in G2.
  pose proof (rmatch_groupless _ _ _ _ GZ H3) as G3. simpl in G3.
  assert (R2' : reads m1 m2 w2).
  { destruct R2 as [E P]. split; auto. }
  assert (R3' : reads m2 st' w3).
  { destruct R3 as [E P]. split; auto. }
  assert (Ew : w = w1 ++ w2 ++ w3).
  { pose proof (reads_app _ _ _ _ _ R1 (reads_app _ _ _ _ _ R2' R3')) as R.
    assert (R0 : reads (MState prev s no_groups) st' w) by (split; auto).
    exact (reads_unique _ _ _ _ R0 R). }
  exists m1, m2, st', w1, w2, w3. repeat split; auto.
  - destruct R1; auto.
  - destruct R1; auto.
  - destruct R2'; auto.
  - destruct R2'; auto.
  - destruct R3'; auto.
  - destruct R3'; auto.
  - subst g. unfold set_group. simpl. exact Ew.
  - subst g. unfold set_group. simpl. rewrite G3. unfold set_group. simpl.
    rewrite G2. unfold set_group. simpl. reflexivity.
  - subst g. unfold set_group. simpl. rewrite G3. unfold set_group. simpl.
    reflexivity.
Qed.

(** *** Occurrences that a substitution leaves alone *)

Lemma app_eq_app_cases {A} (a b c d : list A) :
  a ++ b = c ++ d ->
  (exists l, a = c ++ l /\ d = l ++ b) \/
  (exists l, l <> [] /\ c = a ++ l /\ b = l ++ d).
Proof.
  revert c. induction a as [|x a IH]; intros c H; simpl in H.
  - destruct c as [|y c].
    + left. exists []. simpl in *. auto.
    + right. exists (y :: c). simpl. repeat split; auto. discriminate.
  - destruct c as [|y c]; simpl in H.
    + left. exists (x :: a). simpl. auto.
    + inversion H; subst. destruct (IH _ H2) as [(l & -> & ->)|(l & Hl & -> & ->)].
      * left. exists l. auto.
      * right. exists l. auto.
Qed.

Lemma app_same_length {A} (a b c d : list A) :
  a ++ b = c ++ d -> length a = length c -> a = c /\ b = d.
Proof.
  revert c. induction a as [|x a IH]; intros [|y c] H Hl; simpl in *;
    try discriminate; auto.
  injection H as -> H. destruct (IH c H) as [-> ->]; auto.
Qed.


(** *** Literal replacement *)

Lemma match_at_Lit old prev s n g :
  match_at false (Lit old) prev s = Some (n, g) ->
  exists s', s = old ++ s' /\ n = length old.
Proof.
  intros H. apply match_at_Some in H.
  destruct H as (st' & w & Hhd & Hs & Hl & _).
  assert (Hin : In st' (rmatch false (Lit old) (MState prev s no_groups)))
    by (rewrite Hhd; left; auto).
  apply rmatch_Lit_In in Hin. destruct Hin as (E & _). simpl in E.
  exists (m_rest st'). split; auto.
  rewrite E in Hs. apply (f_equal (@length char)) in Hs.
  rewrite !length_app in Hs. lia.
Qed.

Lemma match_at_Lit_hit old prev s :
  old <> [] -> match_at false (Lit old) prev (old ++ s) <> None.
Proof.
  intros Hne H. apply match_at_None_inv in H.
  - assert (Hin : In (MState (last_opt old prev) s no_groups)
                     (rmatch false (Lit old) (MState prev (old ++ s) no_groups))).
    { apply rmatch_Lit_In. simpl. auto. }
    rewrite H in Hin. destruct Hin.
  - intros st' Hin E. apply rmatch_Lit_In in Hin. destruct Hin as (E1 & _).
    simpl in E1. rewrite E in E1. apply (f_equal (@length char)) in E1.
    rewrite !length_app in E1. destruct old; [congruence|simpl in E1; lia].
Qed.







Lemma two_groups_plain ic A B prev s n g :
  groupless B = true ->
  match_at ic (Grp 1 A +++ Grp 2 B) prev s = Some (n, g) ->
  exists m1 m2 w1 w2,
    In m1 (rmatch ic A (MState prev s no_groups))
    /\ reads (MState prev s no_groups) m1 w1
    /\ In m2 (rmatch ic B (MState (m_prev m1) (m_rest m1)
                                  (set_group 1 w1 (m_groups m1))))
    /\ reads m1 m2 w2
    /\ g 0 = w1 ++ w2 /\ g 1 = w1 /\ g 2 = w2.
Proof.
  intros GB H. apply match_at_Some in H.
  destruct H as (st' & w & Hhd & Hs & Hl & Hne & Hp & Hg).
  assert (Hin : In st' (rmatch ic (Grp 1 A +++ Grp 2 B)
                               (MState prev s no_groups)))
    by (rewrite Hhd; left; auto).
  apply rmatch_Cat_In in Hin. destruct Hin as (x1 & H1 & H2).
  apply rmatch_Grp_In in H1. destruct H1 as (m1 & w1 & H1 & R1 & ->).
  apply rmatch_Grp_In in H2. destruct H2 as (m2 & w2 & H2 & R2 & ->).
  pose proof (rmatch_groupless _ _ _ _ GB H2) as G2. simpl in G2.
  assert (R2' : reads m1 m2 w2).
  { destruct R2 as [E P]. split; auto. }
  assert (Ew : w = w1 ++ w2).
  { pose proof (reads_app _ _ _ _ _ R1 R2') as R.
    assert (R0 : reads (MState prev s no_groups)
                       (MState (m_prev m2) (m_rest m2)
                               (set_group 2 w2 (m_groups m2))) w)
      by (split; auto).
    destruct R as [Ra Rb]. destruct R0 as [R0a R0b]. simpl in *.
    rewrite Ra in R0a. apply app_inv_tail in R0a. auto. }
  exists m1, m2, w1, w2. repeat split; auto.
  - destruct R1; auto.
  - destruct R1; auto.
  - destruct R2'; auto.
  - destruct R2'; auto.
  - subst g. unfold set_group. simpl. exact Ew.
  - subst g. unfold set_group. simpl. rewrite G2. unfold set_group. simpl.
    reflexivity.
  - subst g. unfold set_group. simpl. reflexivity.
Qed.

Lemma reads_Cls ic K st m w :
  In m (rmatch ic (Cls K) st) -> reads st m w ->
  exists c, w = [c] /\ in_class ic K c = true.
Proof.
  intros H R. apply rmatch_Cls_In in H. destruct H as (c & E & HK & P & _).
  exists c. split; auto.
  assert (R' : reads st m [c]) by (split; simpl; auto).
  exact (reads_unique _ _ _ _ R R').
Qed.

(** A class character in group 1, then group 2 beginning with [<]. *)
Lemma sub_before_tag K B s :
  groupless B = true ->
  (forall st m, In m (rmatch false B st) ->
                exists rest, m_rest st = ch "<" :: rest /\ m_rest st <> m_rest m) ->
  spaced P_tag s (re_sub (Grp 1 (Cls K) +++ Grp 2 B) tpl_1_sp_2 s).
Proof.
  intros GB HB. unfold re_sub. rewrite re_sub_with_from.
  apply sub_from_spaced. intros prev s0 n g Hm.
  destruct (two_groups_plain _ _ _ _ _ _ _ GB Hm)
    as (m1 & m2 & w1 & w2 & H1 & R1 & H2 & R2 & E0 & E1 & E2).
  destruct (reads_Cls _ _ _ _ _ H1 R1) as (c & -> & _).
  destruct (HB _ _ H2) as (rest & Hr & Hne). simpl in Hr, Hne.
  destruct R2 as [R2 _]. rewrite Hr in R2.
  destruct w2 as [|d w2].
  - exfalso. apply Hne. rewrite Hr. exact R2.
  - simpl in R2. injection R2 as Ed _. subst d.
    exists [], c, (ch "<"), w2. unfold tpl_1_sp_2.
    rewrite E0, E1, E2. repeat split; auto.
Qed.

(** Group 1 ending with [>], then a class character in group 2. *)
Lemma sub_after_tag A K s :
  (forall st m w, In m (rmatch false A st) -> reads st m w ->
                  exists w', w = w' ++ [ch ">"]) ->
  spaced P_tag s (re_sub (Grp 1 A +++ Grp 2 (Cls K)) tpl_1_sp_2 s).
Proof.
  intros HA. unfold re_sub. rewrite re_sub_with_from.
  apply sub_from_spaced. intros prev s0 n g Hm.
  destruct (two_groups_plain false A (Cls K) _ _ _ _ eq_refl Hm)
    as (m1 & m2 & w1 & w2 & H1 & R1 & H2 & R2 & E0 & E1 & E2).
  destruct (HA _ _ _ H1 R1) as (w' & ->).
  assert (R2' : reads (MState (m_prev m1) (m_rest m1)
                              (set_group 1 (w' ++ [ch ">"]) (m_groups m1)))
                      m2 w2) by (destruct R2; split; auto).
  destruct (reads_Cls _ _ _ _ _ H2 R2') as (d & -> & _).
  exists w', (ch ">"), d, []. unfold tpl_1_sp_2.
  rewrite E0, E1, E2. repeat split; auto.
  - rewrite <- app_assoc. reflexivity.
  - rewrite <- !app_assoc. reflexivity.
  - unfold P_tag. rewrite N.eqb_refl. apply orb_true_r.
Qed.

Lemma open_tag_lt tag st m :
  In m (rmatch false (open_tag tag) st) ->
  exists rest, m_rest st = ch "<" :: rest /\ m_rest st <> m_rest m.
Proof.
  intros H. apply open_tag_In in H. destruct H as (body & E & _).
  rewrite E. simpl. eexists. split; [reflexivity|].
  intros H. apply (f_equal (@length char)) in H. simpl in H.
  rewrite !length_app in H. simpl in H. lia.
Qed.

Lemma any_open_tag_lt st m :
  In m (rmatch false any_open_tag st) ->
  exists rest, m_rest st = ch "<" :: rest /\ m_rest st <> m_rest m.
Proof.
  unfold any_open_tag. intros H.
  destruct (rmatch_reads _ _ _ _ H) as (w & [E _]).
  apply rmatch_Cat_In in H. destruct H as (m1 & H1 & H2).
  apply rmatch_Lit_In in H1. destruct H1 as (E1 & _).
  rewrite E1. simpl. eexists. split; [reflexivity|].
  destruct (rmatch_reads _ _ _ _ H2) as (w2 & [E2 _]).
  rewrite E2. intros H. apply (f_equal (@length char)) in H. simpl in H.
  rewrite !length_app in H. lia.
Qed.

Lemma close_tag_gt tag st m w :
  In m (rmatch false (close_tag tag) st) -> reads st m w ->
  exists w', w = w' ++ [ch ">"].
Proof.
  unfold close_tag. intros H R. apply rmatch_Lit_In in H.
  destruct H as (E & P & _).
  assert (R' : reads st m (u "</" ++ tag ++ u ">")) by (split; auto).
  rewrite (reads_unique _ _ _ _ R R'). exists (u "</" ++ tag).
  rewrite <- app_assoc. reflexivity.
Qed.

(** Phase 4 of [fix_html_spacing]: a word, then a tag in group 1. *)
Lemma sub_word_tag word tag s :
  word <> [] ->
  spaced P_tag s
    (re_sub (WordB +++ Lit word +++ Grp 1 (open_tag tag))
            (fun m => word ++ u " " ++ m 1) s).
Proof.
  intros Hw. unfold re_sub. rewrite re_sub_with_from.
  apply sub_from_spaced. intros prev s0 n g Hm.
  apply match_at_Some in Hm.
  destruct Hm as (st' & w & Hhd & Hs & Hl & Hne & Hp & Hg).
  assert (Hin : In st' (rmatch false (WordB +++ Lit word +++ Grp 1 (open_tag tag))
                               (MState prev s0 no_groups)))
    by (rewrite Hhd; left; auto).
  apply rmatch_Cat_In in Hin. destruct Hin as (m0 & H0 & Hin).
  apply rmatch_Cat_In in Hin. destruct Hin as (m1 & H1 & H2).
  simpl in H0. destruct (xorb _ _); [|destruct H0].
  destruct H0 as [<-|[]].
  apply rmatch_Lit_In in H1. destruct H1 as (E1 & P1 & G1). simpl in E1.
  apply rmatch_Grp_In in H2. destruct H2 as (m2 & w2 & H2 & R2 & ->).
  destruct (open_tag_lt _ _ _ H2) as (rest & Er & Hne2).
  destruct R2 as [R2 _]. simpl in Hs.
  assert (Ew : w = word ++ w2).
  { rewrite E1, R2, app_assoc in Hs. apply app_inv_tail in Hs. auto. }
  destruct w2 as [|d w2].
  { simpl in R2. congruence. }
  rewrite Er in R2. simpl in R2. injection R2 as Ed _. subst d.
  destruct (exists_last Hw) as (w1 & c & ->).
  exists w1, c, (ch "<"), w2. subst g. unfold set_group. simpl.
  rewrite Ew, <- !app_assoc. simpl. repeat split; auto.
Qed.

(** Phase 5 of [fix_html_spacing]. *)
Lemma sub_camel_case s : spaced P_camel s (re_sub camel_case tpl_1_sp_2 s).
Proof.
  unfold re_sub. rewrite re_sub_with_from.
  apply sub_from_spaced. intros prev s0 n g Hm. unfold camel_case in Hm.
  destruct (two_groups false (Rep 2 lower_cz) (Cls upper_cz) not_brand_suffix
              _ _ _ _ eq_refl eq_refl Hm)
    as (m1 & m2 & m3 & w1 & w2 & w3 & H1 & R1 & H2 & R2 & H3 & R3
        & E0 & E1 & E2).
  apply rmatch_Rep_In in H1. destruct H1 as (w & Ew & F & Hn & Pw & _).
  assert (R1' : reads (MState prev s0 no_groups) m1 w) by (split; auto).
  rewrite (reads_unique _ _ _ _ R1 R1') in *. clear R1.
  assert (R2' : reads (MState (m_prev m1) (m_rest m1)
                              (set_group 1 w (m_groups m1))) m2 w2)
    by (destruct R2; split; auto).
  destruct (reads_Cls _ _ _ _ _ H2 R2') as (d & -> & Hd).
  assert (w3 = []).
  { unfold not_brand_suffix in H3. simpl in H3.
    destruct R3 as [R3 _].
    match type of H3 with In _ (match ?x with _ => _ end) =>
      destruct x; [|destruct H3] end.
    destruct H3 as [<-|[]]. simpl in R3.
    apply (f_equal (@length char)) in R3. rewrite length_app in R3.
    destruct w3; [auto|simpl in R3; lia]. }
  subst w3.
  assert (Hw : w <> []) by (destruct w; simpl in Hn; [lia|discriminate]).
  destruct (exists_last Hw) as (w0 & c & ->).
  exists w0, c, d, []. unfold tpl_1_sp_2.
  rewrite E0, E1, E2, <- !app_assoc. simpl. repeat split; auto.
  unfold P_camel. rewrite forallb_app in F. simpl in F.
  apply andb_true_iff in F as [_ F]. apply andb_true_iff in F as [F _].
  simpl in Hd. rewrite F, Hd. reflexivity.
Qed.

(** *** What becomes of a token when spaces are put into the text *)





(** *** The collapse of runs of spaces keeps a token *)





(** *** The brand fixes *)




(** *** Brand tokens through [fix_html_spacing] *)






(** *** Facts about single characters, by cases on the code point *)

Lemma small_char_In d : (d < 384)%N -> In d small_chars.
Proof.
  intros H. unfold small_chars. apply in_map_iff. exists (N.to_nat d).
  split; [apply N2Nat.id|]. apply in_seq. lia.
Qed.

(** A boolean fact about characters holds everywhere when it holds on the
    tables' range and above it. *)
Lemma char_cases (P : char -> bool) :
  forallb P small_chars = true ->
  (forall d, (384 <= d)%N -> P d = true) ->
  forall d, P d = true.
Proof.
  intros Hs Hb d. destruct (N.lt_ge_cases d 384) as [H|H]; auto.
  rewrite forallb_forall in Hs. apply Hs. apply small_char_In. exact H.
Qed.

Lemma between_big lo hi d :
  (hi < 384)%N -> (384 <= d)%N -> between lo hi d = false.
Proof.
  intros Hh Hd. unfold between. apply andb_false_iff. right.
  apply N.leb_gt. lia.
Qed.

Lemma eqb_big k d : (k < 384)%N -> (384 <= d)%N -> N.eqb d k = false.
Proof. intros Hk Hd. apply N.eqb_neq. lia. Qed.

Lemma elem_big s d :
  forallb (fun k => N.ltb k 384) s = true -> (384 <= d)%N -> elem s d = false.
Proof.
  intros Hs Hd. unfold elem. induction s as [|k s IH]; simpl; auto.
  simpl in Hs. apply andb_true_iff in Hs as [Hk Hs].
  rewrite IH by auto. rewrite eqb_big; auto. apply N.ltb_lt. exact Hk.
Qed.

Lemma lower_cz_big d : (384 <= d)%N -> lower_cz d = false.
Proof.
  intros H. unfold lower_cz, rng.
  rewrite between_big, elem_big; auto; reflexivity.
Qed.

Lemma simple_upper_big d : (384 <= d)%N -> simple_upper d = d.
Proof.
  intros H. unfold simple_upper.
  repeat rewrite between_big by (auto; reflexivity).
  repeat rewrite eqb_big by (auto; reflexivity).
  reflexivity.
Qed.

Lemma upper_big d : (384 <= d)%N -> upper d = [d].
Proof.
  intros H. unfold upper.
  repeat rewrite eqb_big by (auto; reflexivity).
  rewrite simple_upper_big; auto.
Qed.

(** The upper case of a character is made of characters that are their own
    upper case. *)
Lemma upper_stable c : forallb (fun d => str_eqb (upper d) [d]) (upper c) = true.
Proof.
  apply (char_cases (fun c => forallb (fun d => str_eqb (upper d) [d]) (upper c))).
  - vm_compute. reflexivity.
  - intros d H. rewrite (upper_big d H). simpl. rewrite (upper_big d H).
    rewrite (proj2 (str_eqb_eq _ _)); auto.
Qed.

(** An upper case is never empty and holds [>] only for [>] itself. *)
Lemma upper_nonempty c : upper c <> [].
Proof.
  unfold upper. destruct (N.eqb c 223); [discriminate|].
  destruct (N.eqb c 329); discriminate.
Qed.

Lemma upper_gt c : elem (upper c) (ch ">") = true -> c = ch ">".
Proof.
  intros H.
  assert (E : (negb (elem (upper c) (ch ">")) || N.eqb c (ch ">")) = true).
  { apply (char_cases (fun c => negb (elem (upper c) (ch ">")) || N.eqb c (ch ">"))).
    - vm_compute. reflexivity.
    - intros d Hd. rewrite (upper_big d Hd).
      assert (Hne : ch ">" <> d).
      { intros <-. vm_compute in Hd. apply Hd. reflexivity. }
      apply N.eqb_neq in Hne. unfold elem. cbn [existsb].
      rewrite Hne. reflexivity. }
  rewrite H in E. simpl in E. apply N.eqb_eq. exact E.
Qed.

(** What upper-casing does to a letter of [[a-z...]]: one character, which
    is not such a letter, not white space and none of [<], [/], [>]. *)
Lemma lower_cz_upper c :
  lower_cz c = true ->
  upper c = [simple_upper c]
  /\ lower_cz (simple_upper c) = false
  /\ simple_upper c <> ch "<" /\ simple_upper c <> ch "/"
  /\ simple_upper c <> ch ">".
Proof.
  intros H.
  assert (E : (negb (lower_cz c)
               || (str_eqb (upper c) [simple_upper c]
                   && negb (lower_cz (simple_upper c))
                   && negb (N.eqb (simple_upper c) (ch "<"))
                   && negb (N.eqb (simple_upper c) (ch "/"))
                   && negb (N.eqb (simple_upper c) (ch ">")))) = true).
  { apply (char_cases (fun c => negb (lower_cz c)
               || (str_eqb (upper c) [simple_upper c]
                   && negb (lower_cz (simple_upper c))
                   && negb (N.eqb (simple_upper c) (ch "<"))
                   && negb (N.eqb (simple_upper c) (ch "/"))
                   && negb (N.eqb (simple_upper c) (ch ">"))))).
    - vm_compute. reflexivity.
    - intros d Hd. rewrite (lower_cz_big d Hd). reflexivity. }
  rewrite H in E. simpl in E.
  repeat (apply andb_true_iff in E; destruct E as [E ?]).
  apply str_eqb_eq in E.
  repeat match goal with
         | H : negb _ = true |- _ => apply negb_true_iff in H
         end.
  repeat split; auto; apply N.eqb_neq; auto.
Qed.

Lemma lower_cz_not_special c :
  lower_cz c = true ->
  isspace c = false /\ c <> ch "<" /\ c <> ch "/" /\ c <> ch ">".
Proof.
  intros H.
  assert (E : (negb (lower_cz c)
               || (negb (isspace c) && negb (N.eqb c (ch "<"))
                   && negb (N.eqb c (ch "/")) && negb (N.eqb c (ch ">")))) = true).
  { apply (char_cases (fun c => negb (lower_cz c)
               || (negb (isspace c) && negb (N.eqb c (ch "<"))
                   && negb (N.eqb c (ch "/")) && negb (N.eqb c (ch ">"))))).
    - vm_compute. reflexivity.
    - intros d Hd. rewrite (lower_cz_big d Hd). reflexivity. }
  rewrite H in E. simpl in E.
  repeat (apply andb_true_iff in E; destruct E as [E ?]).
  repeat match goal with
         | H : negb _ = true |- _ => apply negb_true_iff in H
         end.
  repeat split; auto; apply N.eqb_neq; auto.
Qed.

(** *** Texts that differ by upper-casing only *)

Lemma recased_refl s : recased s s.
Proof. induction s; constructor; auto. Qed.

Lemma recased_app a ta b tb :
  recased a ta -> recased b tb -> recased (a ++ b) (ta ++ tb).
Proof.
  intros Ha Hb. induction Ha; simpl; auto.
  - constructor. auto.
  - rewrite <- app_assoc. constructor. auto.
Qed.

Lemma recased_app_inv : forall a b t,
  recased (a ++ b) t ->
  exists ta tb, t = ta ++ tb /\ recased a ta /\ recased b tb.
Proof.
  induction a as [|c a IH]; intros b t H.
  - exists [], t. repeat split; auto. constructor.
  - simpl in H. inversion H; subst.
    + destruct (IH _ _ H3) as (ta & tb & -> & Ha & Hb).
      exists (c :: ta), tb. repeat split; auto. constructor. auto.
    + destruct (IH _ _ H3) as (ta & tb & -> & Ha & Hb).
      exists (upper c ++ ta), tb. rewrite <- app_assoc. repeat split; auto.
      constructor. auto.
Qed.

Lemma recased_stable x t : stable x = true -> recased x t -> t = x.
Proof.
  intros Hs H. induction H; auto.
  - simpl in Hs. apply andb_true_iff in Hs as [_ Hs]. rewrite IHrecased; auto.
  - simpl in Hs. apply andb_true_iff in Hs as [Hc Hs].
    apply str_eqb_eq in Hc. rewrite Hc, IHrecased; auto.
Qed.

Lemma recased_trans s t : recased s t -> forall v, recased t v -> recased s v.
Proof.
  induction 1 as [|c s t H IH|c s t H IH]; intros v Hv; auto.
  - inversion Hv; subst; constructor; auto.
  - destruct (recased_app_inv _ _ _ Hv) as (va & vb & -> & Ha & Hb).
    rewrite (recased_stable _ _ (upper_stable c) Ha).
    constructor. auto.
Qed.

Lemma recased_flat_upper w : recased w (flat_map upper w).
Proof. induction w; simpl; constructor; auto. Qed.

Lemma recased_concat_map (F : str -> str) l :
  (forall x, recased x (F x)) -> recased (concat l) (concat (map F l)).
Proof.
  intros HF. induction l; simpl; [constructor|]. apply recased_app; auto.
Qed.

Lemma capitalize_first_letter_recased text :
  recased text (capitalize_first_letter text).
Proof.
  induction text as [|c text IH]; simpl; [constructor|].
  destruct (isalpha c).
  - constructor. apply recased_refl.
  - constructor. exact IH.
Qed.

(** A [re.sub] each of whose replacements is a recasing of the match. *)
Lemma sub_from_recased ic r f :
  (forall prev s n g, match_at ic r prev s = Some (n, g) ->
                      recased (g 0) (f g)) ->
  forall s prev, recased s (sub_from ic r f prev s).
Proof.
  intros Hf. apply (sub_from_ind ic r f (fun _ s t => recased s t)).
  - intros. constructor.
  - intros. constructor. auto.
  - intros prev w s g Hm Hne Hg IH.
    apply recased_app; auto. rewrite <- Hg. eapply Hf; eauto.
Qed.

Lemma sub_upper_group2 A B s :
  groupless B = true ->
  recased s (re_sub (Grp 1 A +++ Grp 2 B) upper_group2 s).
Proof.
  intros GB. unfold re_sub. rewrite re_sub_with_from.
  apply sub_from_recased. intros prev s0 n g Hm.
  destruct (two_groups_plain _ _ _ _ _ _ _ GB Hm)
    as (m1 & m2 & w1 & w2 & _ & _ & _ & _ & E0 & E1 & E2).
  unfold upper_group2. rewrite E0, E1, E2.
  apply recased_app; [apply recased_refl | apply recased_flat_upper].
Qed.

Lemma sub_lone_i s :
  recased s (re_sub (WordB +++ Lit (u "i") +++ WordB) (tpl_const (u "I")) s).
Proof.
  unfold re_sub. rewrite re_sub_with_from.
  apply sub_from_recased. intros prev s0 n g Hm.
  apply match_at_Some in Hm.
  destruct Hm as (st' & w & Hhd & Hs & Hl & Hne & Hp & Hg).
  assert (Hin : In st' (rmatch false (WordB +++ Lit (u "i") +++ WordB)
                               (MState prev s0 no_groups)))
    by (rewrite Hhd; left; auto).
  apply rmatch_Cat_In in Hin. destruct Hin as (m0 & H0 & Hin).
  apply rmatch_Cat_In in Hin. destruct Hin as (m1 & H1 & H2).
  simpl in H0. destruct (xorb _ _); [|destruct H0]. destruct H0 as [<-|[]].
  simpl in H2. destruct (xorb _ _); [|destruct H2]. destruct H2 as [<-|[]].
  apply rmatch_Lit_In in H1. destruct H1 as (E1 & _). simpl in E1.
  simpl in Hs. rewrite E1 in Hs.
  assert (Ew : w = [ch "i"]).
  { apply (app_inv_tail (m_rest m1)). symmetry. exact Hs. }
  subst g w.
  change (recased [ch "i"] (upper (ch "i") ++ [])).
  apply (recased_upper (ch "i") [] []). constructor.
Qed.

Lemma fix_sentence_recased sentence : recased sentence (fix_sentence sentence).
Proof.
  unfold fix_sentence.
  destruct (negb (blank sentence)); [|apply recased_refl].
  destruct (negb (re_match _ sentence)); [|apply recased_refl].
  cbv zeta.
  eapply recased_trans; [|apply sub_lone_i].
  eapply recased_trans; [|apply sub_upper_group2; reflexivity].
  apply capitalize_first_letter_recased.
Qed.

(** [fix_capitalization] changes nothing but the case of characters. *)
Lemma fix_capitalization_recased text :
  recased text (fix_capitalization text).
Proof.
  unfold fix_capitalization. destruct text as [|c text]; [constructor|].
  cbv zeta. unfold after_closing_tag, after_line_break.
  eapply recased_trans; [|apply sub_upper_group2; reflexivity].
  eapply recased_trans; [|apply sub_upper_group2; reflexivity].
  rewrite <- (concat_re_split_sentences (c :: text)) at 1.
  apply recased_concat_map. apply fix_sentence_recased.
Qed.

(** *** Letters after closing tags *)

Lemma after_name_run q r :
  forallb (except ">") q = true ->
  after_name (q ++ ch ">" :: r) = head_lower r.
Proof.
  induction q as [|d q IH]; intros H.
  - reflexivity.
  - simpl in H. apply andb_true_iff in H as [Hd Hq].
    unfold except in Hd. apply negb_true_iff in Hd.
    change ((d :: q) ++ ch ">" :: r) with (d :: (q ++ ch ">" :: r)).
    cbn [after_name]. rewrite Hd. auto.
Qed.

Lemma after_name_inv s :
  after_name s = true ->
  exists q c r, s = q ++ ch ">" :: c :: r
                /\ forallb (except ">") q = true /\ lower_cz c = true.
Proof.
  induction s as [|d s IH]; intros H; [discriminate|].
  cbn [after_name] in H. destruct (N.eqb d (ch ">")) eqn:E.
  - apply N.eqb_eq in E. subst d. destruct s as [|c r]; [discriminate|].
    exists [], c, r. repeat split; auto.
  - destruct (IH H) as (q & c & r & -> & Hq & Hc).
    exists (d :: q), c, r. repeat split; auto.
    simpl. unfold except at 1. rewrite E. auto.
Qed.

Lemma close_here_intro nm c post :
  nm <> [] -> forallb (except ">") nm = true -> lower_cz c = true ->
  close_here (u "</" ++ nm ++ u ">" ++ c :: post) = true.
Proof.
  intros Hne Hnm Hc. destruct nm as [|d q]; [congruence|].
  simpl in Hnm. apply andb_true_iff in Hnm as [Hd Hq].
  change (u "</" ++ (d :: q) ++ u ">" ++ c :: post)
    with (ch "<" :: ch "/" :: d :: (q ++ ch ">" :: c :: post)).
  cbn [close_here]. rewrite (after_name_run q (c :: post) Hq).
  unfold except in Hd. rewrite Hd. simpl. exact Hc.
Qed.

Lemma bad_close_app pre s : bad_close s = true -> bad_close (pre ++ s) = true.
Proof.
  intros H. induction pre as [|d pre IH]; auto.
  change ((d :: pre) ++ s) with (d :: (pre ++ s)). cbn [bad_close].
  rewrite IH. apply orb_true_r.
Qed.

Lemma bad_close_intro pre nm c post :
  nm <> [] -> forallb (except ">") nm = true -> lower_cz c = true ->
  bad_close (pre ++ u "</" ++ nm ++ u ">" ++ c :: post) = true.
Proof.
  intros Hne Hnm Hc. apply bad_close_app.
  pose proof (close_here_intro nm c post Hne Hnm Hc) as H.
  destruct (u "</" ++ nm ++ u ">" ++ c :: post) as [|d s] eqn:E;
    [discriminate|].
  cbn [bad_close]. rewrite H. reflexivity.
Qed.

Lemma close_here_run q r :
  forallb (except ">") q = true -> head_lower r = false ->
  close_here (q ++ ch ">" :: r) = false.
Proof.
  intros Hq Hr. destruct q as [|a [|b [|d q]]].
  - destruct r as [|b [|d r]]; reflexivity.
  - destruct r as [|d r]; [reflexivity|].
    simpl. destruct (N.eqb a _); reflexivity.
  - simpl. destruct (N.eqb a _); destruct (N.eqb b _); reflexivity.
  - change ((a :: b :: d :: q) ++ ch ">" :: r)
      with (a :: b :: d :: (q ++ ch ">" :: r)).
    cbn [close_here]. rewrite after_name_run, Hr.
    + apply andb_false_r.
    + simpl in Hq. repeat (apply andb_true_iff in Hq as [_ Hq]). exact Hq.
Qed.

Lemma bad_close_skip d t :
  d <> ch "<" -> bad_close (d :: t) = bad_close t.
Proof.
  intros Hd. cbn [bad_close]. apply N.eqb_neq in Hd.
  assert (E : close_here (d :: t) = false).
  { destruct t as [|b [|e t]]; cbn [close_here]; try reflexivity.
    rewrite Hd. reflexivity. }
  rewrite E. reflexivity.
Qed.

Lemma bad_close_run q r :
  forallb (except ">") q = true -> head_lower r = false ->
  bad_close (q ++ ch ">" :: r) = bad_close r.
Proof.
  intros Hq Hr. induction q as [|d q IH].
  - apply bad_close_skip. discriminate.
  - change ((d :: q) ++ ch ">" :: r) with (d :: (q ++ ch ">" :: r)).
    cbn [bad_close].
    change (d :: (q ++ ch ">" :: r)) with ((d :: q) ++ ch ">" :: r).
    rewrite (close_here_run (d :: q) r Hq Hr).
    simpl in Hq. apply andb_true_iff in Hq as [_ Hq]. auto.
Qed.

Lemma isspace_not_lt d : isspace d = true -> d <> ch "<".
Proof. intros H ->. vm_compute in H. discriminate. Qed.

Lemma bad_close_ws ws t :
  forallb isspace ws = true -> bad_close (ws ++ t) = bad_close t.
Proof.
  intros H. induction ws as [|d ws IH]; auto.
  simpl in H. apply andb_true_iff in H as [Hd Hws].
  change ((d :: ws) ++ t) with (d :: (ws ++ t)).
  rewrite bad_close_skip; auto. apply isspace_not_lt; auto.
Qed.

Lemma head_lower_ws ws C t :
  forallb isspace ws = true -> lower_cz C = false ->
  head_lower (ws ++ C :: t) = false.
Proof.
  intros H HC. destruct ws as [|d ws]; simpl; auto.
  simpl in H. apply andb_true_iff in H as [Hd _].
  destruct (lower_cz d) eqn:E; auto.
  destruct (lower_cz_not_special d E) as [Hs _]. congruence.
Qed.

Lemma uppered_refl s : uppered s s.
Proof. induction s; constructor; auto. left. reflexivity. Qed.

Lemma uppered_app a ta b tb :
  uppered a ta -> uppered b tb -> uppered (a ++ b) (ta ++ tb).
Proof. apply Forall2_app. Qed.

Lemma uppered_char_eqb d e k :
  k = ch "<" \/ k = ch "/" \/ k = ch ">" ->
  uppered_char d e -> N.eqb e k = N.eqb d k.
Proof.
  intros Hk [->|[Hd ->]]; auto.
  destruct (lower_cz_upper d Hd) as (_ & _ & U1 & U2 & U3).
  destruct (lower_cz_not_special d Hd) as (_ & L1 & L2 & L3).
  destruct Hk as [->|[->| ->]];
    (transitivity false; [|symmetry]); apply N.eqb_neq; auto.
Qed.

Lemma uppered_char_lower d e :
  uppered_char d e -> lower_cz e = true -> lower_cz d = true.
Proof. intros [->|[Hd _]]; auto. Qed.

Lemma head_lower_uppered x y :
  uppered x y -> head_lower y = true -> head_lower x = true.
Proof.
  intros H. destruct H as [|d e x y Hc _]; simpl; auto.
  apply uppered_char_lower; auto.
Qed.

Lemma after_name_uppered x y :
  uppered x y -> after_name y = true -> after_name x = true.
Proof.
  induction 1 as [|d e x y Hc H IH]; auto.
  cbn [after_name]. rewrite (uppered_char_eqb d e (ch ">")); auto.
  destruct (N.eqb d (ch ">")); auto. apply head_lower_uppered; auto.
Qed.

Lemma close_here_uppered x y :
  uppered x y -> close_here y = true -> close_here x = true.
Proof.
  intros H.
  destruct H as [|a a' x y Ha H]; auto.
  destruct H as [|b b' x y Hb H]; auto.
  destruct H as [|d d' x y Hd H]; auto.
  cbn [close_here].
  rewrite (uppered_char_eqb a a' (ch "<")),
          (uppered_char_eqb b b' (ch "/")),
          (uppered_char_eqb d d' (ch ">")); auto.
  intros E. apply andb_true_iff in E as [E E4].
  apply andb_true_iff in E as [E E3]. apply andb_true_iff in E as [E1 E2].
  rewrite E1, E2, E3. simpl. apply (after_name_uppered _ _ H); auto.
Qed.

Lemma bad_close_uppered x y :
  uppered x y -> bad_close y = true -> bad_close x = true.
Proof.
  induction 1 as [|d e x y Hc H IH]; auto.
  cbn [bad_close]. intros E. apply orb_true_iff in E as [E|E].
  - rewrite (close_here_uppered (d :: x) (e :: y)); auto.
    constructor; auto.
  - rewrite IH; auto. apply orb_true_r.
Qed.

(** A match of a pass [(A)([a-z...])]: what is written back. *)
Lemma upper_letter_match A prev s n g :
  match_at false (Grp 1 A +++ Grp 2 (Cls lower_cz)) prev s = Some (n, g) ->
  exists m1 w1 c,
    In m1 (rmatch false A (MState prev s no_groups))
    /\ s = w1 ++ m_rest m1
    /\ g 0 = w1 ++ [c]
    /\ upper_group2 g = w1 ++ [simple_upper c]
    /\ lower_cz c = true.
Proof.
  intros Hm.
  destruct (two_groups_plain false A (Cls lower_cz) _ _ _ _ eq_refl Hm)
    as (m1 & m2 & w1 & w2 & H1 & R1 & H2 & R2 & E0 & E1 & E2).
  assert (R2' : reads (MState (m_prev m1) (m_rest m1)
                              (set_group 1 w1 (m_groups m1))) m2 w2)
    by (destruct R2; split; auto).
  destruct (reads_Cls _ _ _ _ _ H2 R2') as (c & -> & Hc).
  simpl in Hc. exists m1, w1, c. repeat split; auto.
  - destruct R1 as [R1 _]. exact R1.
  - unfold upper_group2. rewrite E1, E2. simpl. rewrite app_nil_r.
    destruct (lower_cz_upper c Hc) as (-> & _). reflexivity.
Qed.

Lemma sub_from_upper_letter_uppered A : forall s prev,
  uppered s (sub_from false (Grp 1 A +++ Grp 2 (Cls lower_cz))
                      upper_group2 prev s).
Proof.
  apply (sub_from_ind false _ upper_group2 (fun _ s t => uppered s t)).
  - intros. constructor.
  - intros. constructor; auto. left. reflexivity.
  - intros prev w s g Hm Hne Hg IH.
    destruct (upper_letter_match _ _ _ _ _ Hm)
      as (m1 & w1 & c & _ & _ & E0 & -> & Hc).
    assert (Ew : w = w1 ++ [c]) by congruence. clear Hg E0. subst w.
    apply uppered_app; auto.
    apply uppered_app; [apply uppered_refl|].
    constructor; [|constructor]. right. split; auto.
Qed.

Lemma sub_upper_letter_uppered A s :
  uppered s (re_sub (Grp 1 A +++ Grp 2 (Cls lower_cz)) upper_group2 s).
Proof.
  unfold re_sub. rewrite re_sub_with_from.
  apply sub_from_upper_letter_uppered.
Qed.

(** What the part of [after_closing_tag] in group 1 reads. *)
Lemma closing_tag_reads st m :
  In m (rmatch false (Lit (u "</") +++ Rep 1 (except ">") +++ Lit (u ">")
                      +++ Rep 0 isspace) st) ->
  exists nm ws,
    m_rest st = u "</" ++ nm ++ u ">" ++ ws ++ m_rest m
    /\ forallb (except ">") nm = true /\ forallb isspace ws = true.
Proof.
  intros H.
  apply rmatch_Cat_In in H. destruct H as (a1 & H1 & H).
  apply rmatch_Cat_In in H. destruct H as (a2 & H2 & H).
  apply rmatch_Cat_In in H. destruct H as (a3 & H3 & H4).
  apply rmatch_Lit_In in H1. destruct H1 as (E1 & _).
  apply rmatch_Rep_In in H2. destruct H2 as (nm & E2 & Hnm & _).
  apply rmatch_Lit_In in H3. destruct H3 as (E3 & _).
  apply rmatch_Rep_In in H4. destruct H4 as (ws & E4 & Hws & _).
  exists nm, ws. split; [|split; assumption].
  rewrite E1, E2, E3, E4. reflexivity.
Qed.

Lemma closing_match prev s n g :
  match_at false after_closing_tag prev s = Some (n, g) ->
  exists nm ws c,
    g 0 = u "</" ++ nm ++ u ">" ++ ws ++ [c]
    /\ upper_group2 g = u "</" ++ nm ++ u ">" ++ ws ++ [simple_upper c]
    /\ forallb (except ">") nm = true
    /\ forallb isspace ws = true
    /\ lower_cz c = true.
Proof.
  unfold after_closing_tag. intros Hm.
  destruct (upper_letter_match _ _ _ _ _ Hm)
    as (m1 & w1 & c & H1 & Es & E0 & Eu & Hc).
  destruct (closing_tag_reads _ _ H1) as (nm & ws & E & Hnm & Hws).
  cbn [m_rest] in E.
  assert (Ew : w1 = u "</" ++ nm ++ u ">" ++ ws).
  { apply (app_inv_tail (m_rest m1)). rewrite <- Es, E.
    rewrite <- !app_assoc. reflexivity. }
  exists nm, ws, c. rewrite E0, Eu, Ew. rewrite <- !app_assoc.
  repeat split; auto.
Qed.

(** The pattern finds every letter glued to a closing tag. *)
Lemma closing_complete prev s :
  close_here s = true -> match_at false after_closing_tag prev s <> None.
Proof.
  intros H Hn.
  destruct s as [|a [|b [|d s]]]; try discriminate.
  cbn [close_here] in H.
  apply andb_true_iff in H as [H H4]. apply andb_true_iff in H as [H H3].
  apply andb_true_iff in H as [H1 H2].
  apply N.eqb_eq in H1, H2. subst a b.
  destruct (after_name_inv _ H4) as (q & c & r & -> & Hq & Hc).
  apply match_at_None_inv in Hn.
  - set (w1 := u "</" ++ (d :: q) ++ u ">").
    set (m1 := MState (Some (ch ">")) (c :: r) no_groups).
    set (g1 := MState (Some (ch ">")) (c :: r) (set_group 1 w1 no_groups)).
    set (m2 := MState (Some c) r (set_group 1 w1 no_groups)).
    set (g2 := MState (Some c) r (set_group 2 [c] (set_group 1 w1 no_groups))).
    assert (Hin : In g2 (rmatch false after_closing_tag
               (MState prev (ch "<" :: ch "/" :: d :: q ++ ch ">" :: c :: r)
                       no_groups))).
    { unfold after_closing_tag. apply rmatch_Cat_In. exists g1. split.
      - apply rmatch_Grp_In. exists m1, w1. split; [|split].
        + apply rmatch_Cat_In.
          exists (MState (Some (ch "/")) (d :: q ++ ch ">" :: c :: r)
                         no_groups).
          split; [apply rmatch_Lit_In; repeat split|].
          apply rmatch_Cat_In.
          exists (MState (last_opt (d :: q) (Some (ch "/")))
                         (ch ">" :: c :: r) no_groups).
          split.
          { apply rmatch_Rep_In. exists (d :: q). repeat split.
            - change (forallb (except ">") (d :: q) = true).
              cbn [forallb]. unfold except at 1. rewrite H3. exact Hq.
            - simpl. lia. }
          apply rmatch_Cat_In. exists m1.
          split; [apply rmatch_Lit_In; repeat split|].
          apply rmatch_Rep_In. exists []. repeat split. simpl. lia.
        + split.
          * unfold w1. simpl. rewrite <- app_assoc. reflexivity.
          * unfold w1. cbn [m_prev m1].
            rewrite !last_opt_app. reflexivity.
        + reflexivity.
      - apply rmatch_Grp_In. exists m2, [c]. split; [|split].
        + apply rmatch_Cls_In. exists c. repeat split. exact Hc.
        + split; reflexivity.
        + reflexivity. }
    rewrite Hn in Hin. destruct Hin.
  - intros st' Hin E.
    destruct (rmatch_reads _ _ _ _ Hin) as (w & R).
    unfold after_closing_tag in Hin.
    apply rmatch_Cat_In in Hin. destruct Hin as (x & Hx & Hy).
    apply rmatch_Grp_In in Hx. destruct Hx as (m & wx & Hx & Rx & ->).
    destruct (closing_tag_reads _ _ Hx) as (nm & ws & Em & _).
    apply rmatch_Grp_In in Hy. destruct Hy as (m' & wy & Hy & Ry & ->).
    destruct Ry as [Ry _]. cbn [m_rest] in *.
    rewrite Ry, E in Em.
    apply (f_equal (@length char)) in Em.
    rewrite !length_app in Em. simpl in Em. lia.
Qed.

(** After the pass over closing tags no lower-case letter is glued to a
    closing tag. *)
Lemma closing_pass_clean : forall s prev,
  uppered s (sub_from false after_closing_tag upper_group2 prev s)
  /\ bad_close (sub_from false after_closing_tag upper_group2 prev s) = false.
Proof.
  apply (sub_from_ind false after_closing_tag upper_group2
           (fun _ s t => uppered s t /\ bad_close t = false)).
  - intros. split; [constructor | reflexivity].
  - intros prev c s Hn [IHu IHb].
    assert (U : uppered (c :: s)
                  (c :: sub_from false after_closing_tag upper_group2
                                 (Some c) s)).
    { constructor; auto. left. reflexivity. }
    split; [exact U|].
    cbn [bad_close]. rewrite IHb, orb_false_r.
    destruct (close_here (c :: sub_from false after_closing_tag upper_group2
                                        (Some c) s)) eqn:E; auto.
    apply (close_here_uppered _ _ U) in E.
    destruct (closing_complete prev _ E Hn).
  - intros prev w s g Hm Hne Hg [IHu IHb].
    destruct (closing_match _ _ _ _ Hm)
      as (nm & ws & c & E0 & -> & Hnm & Hws & Hc).
    assert (Ew : w = u "</" ++ nm ++ u ">" ++ ws ++ [c]) by congruence.
    clear Hg E0. subst w.
    destruct (lower_cz_upper c Hc) as (_ & HC & HC1 & _).
    split.
    + apply uppered_app; auto.
      apply (uppered_app (u "</")); [apply uppered_refl|].
      apply uppered_app; [apply uppered_refl|].
      apply (uppered_app (u ">")); [apply uppered_refl|].
      apply uppered_app; [apply uppered_refl|].
      constructor; [|constructor]. right. split; auto.
    + rewrite <- !app_assoc.
      change (u "</" ++ nm ++ u ">" ++ ws ++ [simple_upper c] ++
              sub_from false after_closing_tag upper_group2
                (last_opt (u "</" ++ nm ++ u ">" ++ ws ++ [c]) prev) s)
        with ((u "</" ++ nm) ++ ch ">" ::
              (ws ++ simple_upper c ::
               sub_from false after_closing_tag upper_group2
                 (last_opt (u "</" ++ nm ++ u ">" ++ ws ++ [c]) prev) s)).
      rewrite bad_close_run.
      * rewrite bad_close_ws; auto. rewrite bad_close_skip; auto.
      * exact Hnm.
      * apply head_lower_ws; auto.
Qed.

Lemma fix_capitalization_clean text :
  bad_close (fix_capitalization text) = false.
Proof.
  unfold fix_capitalization. destruct text as [|c text]; [reflexivity|].
  cbv zeta.
  match goal with
  | |- bad_close (re_sub after_line_break upper_group2 ?x) = false =>
      pose proof (sub_upper_letter_uppered
                    (Lit [0x0A%N] +++ Rep 0 isspace) x) as U;
      destruct (bad_close (re_sub after_line_break upper_group2 x)) eqn:E;
      auto
  end.
  apply (bad_close_uppered _ _ U) in E.
  unfold re_sub in E at 1. rewrite re_sub_with_from in E.
  destruct (closing_pass_clean
              (concat (map fix_sentence (re_split sentence_end (c :: text))))
              None) as [_ Hb].
  congruence.
Qed.

(** C10.  A lower-case letter of the Czech or Latin alphabet that directly
    follows a closing tag (no white space in between) comes out of
    [fix_capitalization] in upper case: the output is the input with some
    characters upper-cased, the closing tag is still there (letters of its
    name may have been upper-cased by the rules for sentences, as in
    [</I>]), and what follows it is the upper case of the letter. *)
Theorem letter_glued_to_closing_tag pre name c post :
  name <> [] -> forallb (except ">") name = true -> lower_cz c = true ->
  exists pre' name' post',
    fix_capitalization (pre ++ u "</" ++ name ++ u ">" ++ c :: post)
    = pre' ++ u "</" ++ name' ++ u ">" ++ upper c ++ post'
    /\ recased pre pre' /\ recased name name' /\ recased post post'.
Proof.
  intros Hne Hnm Hc.
  pose proof (fix_capitalization_recased
                (pre ++ u "</" ++ name ++ u ">" ++ c :: post)) as R.
  pose proof (fix_capitalization_clean
                (pre ++ u "</" ++ name ++ u ">" ++ c :: post)) as B.
  destruct (recased_app_inv _ _ _ R) as (pre' & t1 & E & Rpre & R1).
  destruct (recased_app_inv _ _ _ R1) as (lt & t2 & -> & Rlt & R2).
  destruct (recased_app_inv _ _ _ R2) as (name' & t3 & -> & Rname & R3).
  destruct (recased_app_inv _ _ _ R3) as (gt & t4 & -> & Rgt & R4).
  apply (recased_stable (u "</")) in Rlt; [|reflexivity].
  apply (recased_stable (u ">")) in Rgt; [|reflexivity].
  subst lt gt.
  assert (Hname' : name' <> [] /\ forallb (except ">") name' = true).
  { clear - Rname Hne Hnm. induction Rname as [|d s t H IH|d s t H IH].
    - congruence.
    - split; [discriminate|]. simpl in *.
      apply andb_true_iff in Hnm as [Hd Hs]. rewrite Hd. simpl.
      destruct s; [inversion H; reflexivity|]. apply IH; [discriminate|auto].
    - simpl in Hnm. apply andb_true_iff in Hnm as [Hd Hs].
      split.
      + pose proof (upper_nonempty d). destruct (upper d); [congruence|].
        discriminate.
      + rewrite forallb_app. apply andb_true_iff. split.
        * apply forallb_forall. intros e He. unfold except.
          apply negb_true_iff. apply N.eqb_neq. intros ->.
          assert (Hd' : d = ch ">").
          { apply upper_gt. unfold elem. apply existsb_exists.
            exists (ch ">"). split; auto. }
          subst d. discriminate.
        * destruct s; [inversion H; reflexivity|].
          apply IH; [discriminate|auto]. }
  destruct Hname' as [Hne' Hnm'].
  inversion R4 as [|c0 s0 post' Rpost|c0 s0 post' Rpost]; subst.
  - exfalso.
    rewrite E in B.
    rewrite (bad_close_intro pre' name' c post' Hne' Hnm' Hc) in B.
    discriminate.
  - exists pre', name', post'. rewrite E. repeat split; auto.
Qed.

Lemma letter_glued_to_closing_tag_witness :
  exists pre' name' post',
    fix_capitalization (u "Ahoj <strong>svete</strong>v praze")
    = pre' ++ u "</" ++ name' ++ u ">" ++ upper (ch "v") ++ post'
    /\ recased (u "Ahoj <strong>svete") pre'
    /\ recased (u "strong") name' /\ recased (u " praze") post'.
Proof.
  apply (letter_glued_to_closing_tag (u "Ahoj <strong>svete") (u "strong")
           (ch "v") (u " praze")).
  - discriminate.
  - reflexivity.
  - reflexivity.
Defined.

(** *** Engine calls and fall-backs *)

Lemma calls_app t1 t2 : calls (t1 ++ t2) = calls t1 + calls t2.
Proof. unfold calls. rewrite filter_app, length_app. reflexivity. Qed.

Lemma preprocess_fst text self :
  fst (preprocess_for_translation text self) = shield text.
Proof.
  unfold shield, preprocess_for_translation. destruct text; auto.
  destruct (re_sub_state _ _ _ _ _) as [[? ?] ?]. reflexivity.
Qed.

Lemma preprocess_trace text self :
  trace (snd (preprocess_for_translation text self)) = trace self.
Proof.
  unfold preprocess_for_translation. destruct text; auto.
  destruct (re_sub_state _ _ _ _ _) as [[? ?] ?]. reflexivity.
Qed.

Lemma preprocess_replacements text self :
  text <> [] ->
  html_replacements (snd (preprocess_for_translation text self))
  = html_replacements (shield_state text).
Proof.
  unfold shield_state, preprocess_for_translation.
  destruct text; [congruence|]. intros _.
  destruct (re_sub_state _ _ _ _ _) as [[? ?] ?]. reflexivity.
Qed.

Lemma restore_snd text self : snd (restore_html_tags text self) = self.
Proof.
  unfold restore_html_tags. destruct text; auto.
  destruct (html_replacements self); auto.
Qed.

Lemma restore_fst text self self' :
  html_replacements self = html_replacements self' ->
  fst (restore_html_tags text self) = fst (restore_html_tags text self').
Proof.
  unfold restore_html_tags. intros <-. destruct text; auto.
  destruct (html_replacements self); auto.
Qed.

Lemma translate_chunk_fst engine c self :
  c <> [] ->
  fst (translate_chunk engine c self)
  = chunk_result engine (calls (trace self)) c.
Proof.
  intros Hc. unfold translate_chunk, chunk_result, bind, translate_call.
  pose proof (preprocess_fst c self) as E1.
  pose proof (preprocess_trace c self) as E2.
  pose proof (preprocess_replacements c self Hc) as E3.
  destruct (preprocess_for_translation c self) as [pc self1].
  simpl in E1, E2, E3. subst pc. rewrite E2.
  destruct (engine (calls (trace self)) (shield c));
    apply restore_fst; simpl; auto.
Qed.

Lemma translate_chunk_trace engine c self :
  trace (snd (translate_chunk engine c self))
  = trace self ++ [EvTranslate (shield c)].
Proof.
  unfold translate_chunk, bind, translate_call.
  pose proof (preprocess_fst c self) as E1.
  pose proof (preprocess_trace c self) as E2.
  destruct (preprocess_for_translation c self) as [pc self1].
  simpl in E1, E2. subst pc. rewrite E2.
  destruct (engine (calls (trace self)) (shield c));
    rewrite restore_snd; reflexivity.
Qed.

Lemma results_from_app engine n a b :
  results_from engine n (a ++ b)
  = results_from engine n a ++ results_from engine (n + length a) b.
Proof.
  unfold results_from. revert n. induction a as [|x a IH]; intros n.
  - simpl. rewrite Nat.add_0_r. reflexivity.
  - simpl. rewrite IH. rewrite <- Nat.add_succ_comm. reflexivity.
Qed.

Lemma flush_chunk_spec engine cur parts self :
  fst (flush_chunk engine cur parts self)
  = parts ++ results_from engine (calls (trace self)) (flush cur)
  /\ trace (snd (flush_chunk engine cur parts self))
     = trace self ++ map (fun c => EvTranslate (shield c)) (flush cur).
Proof.
  unfold flush_chunk, flush. destruct cur as [|c cur].
  - simpl. rewrite !app_nil_r. auto.
  - unfold bind, ret.
    pose proof (translate_chunk_fst engine (c :: cur) self) as E1.
    pose proof (translate_chunk_trace engine (c :: cur) self) as E2.
    destruct (translate_chunk engine (c :: cur) self) as [r self1].
    simpl in E1, E2. rewrite E1 by discriminate. split; auto.
Qed.

Lemma flush_length cur : length (flush cur) <= 1.
Proof. destruct cur; simpl; lia. Qed.

Lemma chunk_loop_spec engine : forall sentences cur parts self,
  let st := chunk_loop engine sentences cur parts self in
  let r := flush_chunk engine (fst (fst st)) (snd (fst st)) (snd st) in
  fst r = parts ++ results_from engine (calls (trace self))
                                (chunks_loop sentences cur)
  /\ trace (snd r)
     = trace self ++ map (fun c => EvTranslate (shield c))
                         (chunks_loop sentences cur).
Proof.
  induction sentences as [|part sentences IH]; intros cur parts self.
  - simpl. apply flush_chunk_spec.
  - cbn [chunk_loop chunks_loop].
    destruct (length (cur ++ part) <? 4500).
    + apply IH.
    + unfold bind.
      destruct (flush_chunk_spec engine cur parts self) as [E1 E2].
      destruct (flush_chunk engine cur parts self) as [parts1 self1].
      simpl in E1, E2.
      specialize (IH part parts1 self1). cbv zeta in IH |- *.
      destruct IH as [I1 I2]. rewrite I1, I2, E1, E2.
      rewrite results_from_app, map_app, <- !app_assoc.
      rewrite calls_app. split; [|reflexivity].
      do 3 f_equal. unfold calls at 2. f_equal.
      clear. induction (flush cur); simpl; auto.
Qed.

Lemma translate_long_text_spec engine text self :
  fst (_translate_long_text engine text self)
  = concat (results_from engine (calls (trace self)) (chunks text))
  /\ trace (snd (_translate_long_text engine text self))
     = trace self ++ map (fun c => EvTranslate (shield c)) (chunks text).
Proof.
  unfold _translate_long_text, chunks. cbv zeta. unfold bind, ret.
  pose proof (chunk_loop_spec engine (re_split sentence_end text) [] [] self)
    as H. cbv zeta in H.
  destruct (chunk_loop engine (re_split sentence_end text) [] [] self)
    as [[cur parts] self1].
  simpl fst in H. simpl snd in H.
  destruct (flush_chunk engine cur parts self1) as [parts' self2].
  simpl in H |- *. destruct H as [-> ->]. auto.
Qed.

(** One turn of the retry loop on a text short enough for one call. *)
Lemma attempts_step engine a rest p self :
  (4500 <? length p) = false ->
  translate_attempts engine (a :: rest) p self
  = match engine (calls (trace self)) p with
    | Some answer =>
        (Some (fst (restore_html_tags answer self)),
         Translator (html_replacements self) (trace self ++ [EvTranslate p]))
    | None =>
        if a <? max_retries - 1
        then translate_attempts engine rest p
               (Translator (html_replacements self)
                  (trace self ++ [EvTranslate p; EvSleep retry_delay]))
        else (Some p,
              Translator (html_replacements self)
                         (trace self ++ [EvTranslate p]))
    end.
Proof.
  intros Hlen. cbn [translate_attempts]. rewrite Hlen.
  unfold bind at 1. unfold translate_call at 1.
  destruct (engine (calls (trace self)) p) as [answer|].
  - unfold bind, ret.
    pose proof (restore_snd answer (Translator (html_replacements self)
                     (trace self ++ [EvTranslate p]))) as S'.
    pose proof (restore_fst answer (Translator (html_replacements self)
                     (trace self ++ [EvTranslate p])) self eq_refl) as F'.
    destruct (restore_html_tags answer (Translator (html_replacements self)
                     (trace self ++ [EvTranslate p]))) as [o s'].
    simpl in S', F'. subst s' o. reflexivity.
  - destruct (a <? max_retries - 1); [|reflexivity].
    unfold bind, sleep. cbn [html_replacements trace].
    rewrite <- app_assoc. reflexivity.
Qed.

(** The single-call path: which attempt returns, and what. *)
Lemma translate_attempts_spec engine p self :
  (4500 <? length p) = false ->
  let r := translate_attempts engine (seq 0 max_retries) p self in
  exists out k,
    fst r = Some out /\ k < max_retries
    /\ trace (snd r) = trace self ++ retries p k
    /\ Forall (fun i => engine (calls (trace self) + i) p = None) (seq 0 k)
    /\ match engine (calls (trace self) + k) p with
       | Some answer => out = fst (restore_html_tags answer self)
       | None => k = max_retries - 1 /\ out = p
       end.
Proof.
  intros Hlen. cbv zeta.
  change (seq 0 max_retries) with [0; 1; 2].
  set (n := calls (trace self)).
  rewrite (attempts_step engine 0 [1; 2] p self Hlen). fold n.
  destruct (engine n p) as [a0|] eqn:E0.
  { exists (fst (restore_html_tags a0 self)), 0. rewrite Nat.add_0_r, E0.
    repeat split; auto. unfold max_retries. lia. }
  change (0 <? max_retries - 1) with true. cbv iota.
  rewrite (attempts_step engine 1 [2] p _ Hlen).
  cbn [html_replacements trace]. rewrite calls_app.
  change (calls [EvTranslate p; EvSleep retry_delay]) with 1. fold n.
  destruct (engine (n + 1) p) as [a1|] eqn:E1.
  { eexists _, 1. rewrite E1. cbn [fst snd trace].
    split; [reflexivity|]. split; [unfold max_retries; lia|].
    split; [rewrite <- app_assoc; reflexivity|].
    split; [|apply restore_fst; reflexivity].
    constructor; [|constructor]. rewrite Nat.add_0_r. exact E0. }
  change (1 <? max_retries - 1) with true. cbv iota.
  rewrite (attempts_step engine 2 [] p _ Hlen).
  cbn [html_replacements trace]. rewrite !calls_app.
  change (calls [EvTranslate p; EvSleep retry_delay]) with 1. fold n.
  replace (n + 1 + 1) with (n + 2) by lia.
  destruct (engine (n + 2) p) as [a2|] eqn:E2.
  { eexists _, 2. rewrite E2. cbn [fst snd trace].
    split; [reflexivity|]. split; [unfold max_retries; lia|].
    split; [rewrite <- !app_assoc; reflexivity|].
    split; [|apply restore_fst; reflexivity].
    constructor; [|constructor; [|constructor]].
    - rewrite Nat.add_0_r. exact E0.
    - exact E1. }
  change (2 <? max_retries - 1) with false. cbv iota.
  exists p, 2. rewrite E2. cbn [fst snd trace].
  split; [reflexivity|]. split; [unfold max_retries; lia|].
  split; [rewrite <- !app_assoc; reflexivity|].
  split; [|split; reflexivity].
  constructor; [|constructor; [|constructor]].
  - rewrite Nat.add_0_r. exact E0.
  - exact E1.
Qed.

(** C4, as stated, fails.  When all three attempts fail, the text that
    comes back still carries the placeholders; unshielding it would have
    given the tags back.  And on a long text, cut into two chunks, an engine
    that always fails is called twice, once for each chunk, with no delay:
    there is no second attempt for a chunk. *)
Lemma fallback_keeps_placeholders :
  let r := translate_with_google unreachable (u "a<b>c</b>") new_translator in
  let r' := translate_with_google unreachable long_input new_translator in
  fst r = Some (u "a HTMLTAG0ENDTAG c HTMLTAG1ENDTAG ")
  /\ fst (restore_html_tags (u "a HTMLTAG0ENDTAG c HTMLTAG1ENDTAG ") (snd r))
     = u "a <b> c </b> "
  /\ trace (snd r)
     = [EvTranslate (u "a HTMLTAG0ENDTAG c HTMLTAG1ENDTAG "); EvSleep 1;
        EvTranslate (u "a HTMLTAG0ENDTAG c HTMLTAG1ENDTAG "); EvSleep 1;
        EvTranslate (u "a HTMLTAG0ENDTAG c HTMLTAG1ENDTAG ")]
  /\ calls (trace (snd r')) = 2 /\ sleeps (trace (snd r')) = [].
Proof. vm_compute. repeat split; reflexivity. Qed.

Lemma attempts_long engine a rest p self :
  (4500 <? length p) = true ->
  translate_attempts engine (a :: rest) p self
  = (Some (fst (_translate_long_text engine p self)),
     snd (_translate_long_text engine p self)).
Proof.
  intros Hlen. cbn [translate_attempts]. rewrite Hlen. unfold bind, ret.
  destruct (_translate_long_text engine p self). reflexivity.
Qed.

Lemma translate_with_google_unfold engine text self :
  blank text = false ->
  translate_with_google engine text self
  = translate_attempts engine (seq 0 max_retries)
      (fst (preprocess_for_translation text self))
      (snd (preprocess_for_translation text self)).
Proof.
  intros Hb. unfold translate_with_google. rewrite Hb. unfold bind.
  destruct (preprocess_for_translation text self). reflexivity.
Qed.

(** C4, amended.  [translate_with_google] always returns a text, whatever
    the engine does.  A shielded text of at most 4500 characters is sent up
    to three times, with a delay of one second after each failed attempt but
    the last; the answer of the first attempt that succeeds is unshielded
    and returned, and after three failures the shielded text is returned as
    it is.  A longer shielded text is cut into chunks, each chunk is sent
    exactly once, without delay, whether or not earlier chunks failed, and a
    chunk whose call fails contributes its own shielded form, unshielded. *)
Theorem translate_with_google_degrades engine text self :
  blank text = false ->
  let p := fst (preprocess_for_translation text self) in
  let self1 := snd (preprocess_for_translation text self) in
  let n := calls (trace self) in
  let r := translate_with_google engine text self in
  exists out,
    fst r = Some out
    /\ if 4500 <? length p
       then out = concat (results_from engine n (chunks p))
            /\ trace (snd r)
               = trace self ++ map (fun c => EvTranslate (shield c)) (chunks p)
       else exists k,
            k < max_retries
            /\ trace (snd r) = trace self ++ retries p k
            /\ Forall (fun i => engine (n + i) p = None) (seq 0 k)
            /\ match engine (n + k) p with
               | Some answer => out = fst (restore_html_tags answer self1)
               | None => k = max_retries - 1 /\ out = p
               end.
Proof.
  intros Hb. cbv zeta. rewrite (translate_with_google_unfold _ _ _ Hb).
  pose proof (preprocess_trace text self) as Et.
  destruct (preprocess_for_translation text self) as [p self1].
  cbn [fst snd] in *.
  destruct (4500 <? length p) eqn:Hlen.
  - change (seq 0 max_retries) with [0; 1; 2].
    rewrite (attempts_long engine 0 [1; 2] p self1 Hlen).
    destruct (translate_long_text_spec engine p self1) as [E1 E2].
    exists (fst (_translate_long_text engine p self1)).
    cbn [fst snd]. rewrite E1, E2, Et. auto.
  - destruct (translate_attempts_spec engine p self1 Hlen)
      as (out & k & E & Hk & Etr & Hf & Hm).
    rewrite Et in *. exists out. split; auto. exists k. auto.
Qed.

Lemma translate_with_google_degrades_witness :
  exists out,
    fst (translate_with_google unreachable (u "a<b>c</b>") new_translator)
    = Some out
    /\ exists k,
         k < max_retries
         /\ trace (snd (translate_with_google unreachable (u "a<b>c</b>")
                          new_translator))
            = retries (fst (preprocess_for_translation (u "a<b>c</b>")
                              new_translator)) k
         /\ k = max_retries - 1
         /\ out = fst (preprocess_for_translation (u "a<b>c</b>")
                         new_translator).
Proof.
  destruct (translate_with_google_degrades unreachable (u "a<b>c</b>")
              new_translator eq_refl) as (out & E & H).
  exists out. split; [exact E|].
  change (4500 <? length (fst (preprocess_for_translation (u "a<b>c</b>")
                                 new_translator)))
    with false in H. cbv iota in H.
  destruct H as (k & Hk & Ht & _ & Hm).
  exists k. split; [exact Hk|]. split; [exact Ht|]. exact Hm.
Defined.

(** C2, as stated, fails: the brand repair of the first run builds a word
    that the camel-case split of the second run cuts. *)
Lemma reconcile_not_idempotent :
  reconcile (u "mysketch up") = u "mySketchUp"
  /\ reconcile (reconcile (u "mysketch up")) = u "my SketchUp"
  /\ reconcile (reconcile (u "mysketch up")) <> reconcile (u "mysketch up").
Proof.
  assert (E1 : reconcile (u "mysketch up") = u "mySketchUp")
    by (vm_compute; reflexivity).
  assert (E2 : reconcile (u "mySketchUp") = u "my SketchUp")
    by (vm_compute; reflexivity).
  rewrite E1, E2. repeat split. discriminate.
Qed.

Lemma force_strong_tag_spacing_collapsed s :
  no_double (only " ") (force_strong_tag_spacing s) = true.
Proof.
  unfold force_strong_tag_spacing. destruct s as [|c s]; [reflexivity|].
  cbv zeta. unfold spaces2.
  apply (collapse_no_double (only " ") (ch " ")). reflexivity.
Qed.

(** *** Passes that only touch white space *)

Lemma occurs_nil s : occurs [] s.
Proof. exists [], s. reflexivity. Qed.

Lemma occurs_cons tok c s : occurs tok s -> occurs tok (c :: s).
Proof. intros (a & b & ->). exists (c :: a), b. reflexivity. Qed.

Lemma occurs_app tok w s : occurs tok s -> occurs tok (w ++ s).
Proof. intros H. induction w; auto. apply occurs_cons. exact IHw. Qed.

Lemma occurs_prefix tok b : occurs tok (tok ++ b).
Proof. exists [], b. reflexivity. Qed.

Lemma pulls_back_refl s : pulls_back s s.
Proof. intros tok _ H. exact H. Qed.

Lemma pulls_back_trans s t v :
  pulls_back s t -> pulls_back t v -> pulls_back s v.
Proof. intros H1 H2 tok Hw H. apply H1; auto. Qed.

Lemma gentle_id : gentle (fun s => s).
Proof. intros s. apply pulls_back_refl. Qed.

Lemma gentle_comp f g : gentle f -> gentle g -> gentle (fun s => g (f s)).
Proof. intros Hf Hg s. eapply pulls_back_trans; [apply Hf | apply Hg]. Qed.

Lemma gentle_fold {X} (F : str -> X -> str) l :
  (forall x, In x l -> gentle (fun s => F s x)) ->
  gentle (fun s => fold_left F l s).
Proof.
  induction l as [|x l IH]; intros H s; simpl.
  - apply pulls_back_refl.
  - eapply pulls_back_trans; [apply (H x); left; reflexivity|].
    apply IH. intros y Hy. apply H. right. exact Hy.
Qed.

Lemma ws_free_space tok : ws_free (space :: tok) = false.
Proof. reflexivity. Qed.

(** What a space insertion leaves of the beginning of a text. *)
Lemma spaced_prefix P s t :
  spaced P s t ->
  forall tok b, ws_free tok = true -> t = tok ++ b -> exists b', s = tok ++ b'.
Proof.
  induction 1 as [|c s t H IH|c d s t HP H IH]; intros tok b Hw E.
  - destruct tok; [|discriminate]. exists []. reflexivity.
  - destruct tok as [|x tok]; [exists (c :: s); reflexivity|].
    injection E as -> E. simpl in Hw. apply andb_true_iff in Hw as [_ Hw].
    destruct (IH tok b Hw E) as (b' & ->). exists b'. reflexivity.
  - destruct tok as [|x [|y tok]].
    + exists (c :: d :: s). reflexivity.
    + injection E as -> _. exists (d :: s). reflexivity.
    + injection E as E1 E2 _. subst x y. unfold ws_free in Hw.
      cbn [forallb] in Hw. apply andb_true_iff in Hw as [_ Hw].
      apply andb_true_iff in Hw as [Hw _]. vm_compute in Hw. discriminate.
Qed.

Lemma spaced_pulls_back P s t : spaced P s t -> pulls_back s t.
Proof.
  induction 1 as [|c s t H IH|c d s t HP H IH]; intros tok Hw (a & b & E).
  - exists a, b. exact E.
  - destruct a as [|x a].
    + destruct (spaced_prefix P (c :: s) (c :: t) (spaced_keep P c s t H)
                  tok b Hw E) as (b' & ->).
      apply occurs_prefix.
    + injection E as _ E. apply occurs_cons. apply IH; auto.
      exists a, b. exact E.
  - destruct a as [|x [|y a]].
    + destruct (spaced_prefix P (c :: d :: s) (c :: space :: t)
                  (spaced_ins P c d s t HP H) tok b Hw E) as (b' & ->).
      apply occurs_prefix.
    + injection E as _ E. destruct tok as [|z tok]; [apply occurs_nil|].
      injection E as <- _. discriminate.
    + injection E as _ _ E. apply occurs_cons. apply IH; auto.
      exists a, b. exact E.
Qed.

(** Collapsing runs of white space. *)
Lemma collapse_pulls_back p :
  forall s prev,
    pulls_back s (sub_from false (Rep 2 p) (tpl_const [space]) prev s).
Proof.
  assert (H : forall s prev,
    (forall tok b, ws_free tok = true ->
       sub_from false (Rep 2 p) (tpl_const [space]) prev s = tok ++ b ->
       exists b', s = tok ++ b')
    /\ pulls_back s (sub_from false (Rep 2 p) (tpl_const [space]) prev s)).
  { apply (sub_from_ind false (Rep 2 p) (tpl_const [space])
             (fun _ s t =>
                (forall tok b, ws_free tok = true -> t = tok ++ b ->
                               exists b', s = tok ++ b')
                /\ pulls_back s t)).
    - intros _. split.
      + intros tok b _ E. destruct tok; [|discriminate]. exists [].
        reflexivity.
      + apply pulls_back_refl.
    - intros prev c s _ [IH1 IH2].
      assert (P1 : forall tok b, ws_free tok = true ->
                c :: sub_from false (Rep 2 p) (tpl_const [space]) (Some c) s
                = tok ++ b -> exists b', c :: s = tok ++ b').
      { intros tok b Hw E. destruct tok as [|x tok].
        - exists (c :: s). reflexivity.
        - injection E as -> E. simpl in Hw.
          apply andb_true_iff in Hw as [_ Hw].
          destruct (IH1 tok b Hw E) as (b' & ->). exists b'. reflexivity. }
      split; [exact P1|].
      intros tok Hw (a & b & E). destruct a as [|x a].
      + destruct (P1 tok b Hw E) as (b' & ->). apply occurs_prefix.
      + injection E as _ E. apply occurs_cons. apply IH2; auto.
        exists a, b. exact E.
    - intros prev w s g _ _ _ [IH1 IH2].
      change (tpl_const [space] g) with [space].
      assert (P1 : forall tok b, ws_free tok = true ->
                [space] ++ sub_from false (Rep 2 p) (tpl_const [space])
                                    (last_opt w prev) s
                = tok ++ b -> exists b', w ++ s = tok ++ b').
      { intros tok b Hw E. destruct tok as [|x tok].
        - exists (w ++ s). reflexivity.
        - injection E as <- _. discriminate. }
      split; [exact P1|].
      intros tok Hw (a & b & E). destruct a as [|x a].
      + destruct (P1 tok b Hw E) as (b' & ->). apply occurs_prefix.
      + injection E as _ E. apply occurs_app. apply IH2; auto.
        exists a, b. exact E. }
  intros s prev. apply H.
Qed.

Lemma collapse_gentle p : gentle (re_sub (Rep 2 p) (tpl_const (u " "))).
Proof.
  intros s. unfold re_sub. rewrite re_sub_with_from.
  apply collapse_pulls_back.
Qed.

(** *** The passes [(class)(literal)] and [(literal)(class)] *)

Lemma reads_Lit ic L st m w :
  In m (rmatch ic (Lit L) st) -> reads st m w ->
  Forall2 (fun a c => char_eq ic a c = true) L w.
Proof.
  intros H R. cbn [rmatch] in H.
  destruct (lit_match ic L (m_prev st) (m_rest st)) as [[p' s']|] eqn:E;
    [|destruct H].
  destruct H as [<-|[]].
  destruct (lit_match_sound _ _ _ _ _ _ E) as (w0 & E1 & E2 & _ & HF).
  assert (R0 : reads st (MState p' s' (m_groups st)) w0) by (split; auto).
  rewrite (reads_unique _ _ _ _ R R0). exact HF.
Qed.

Lemma Forall2_char_eq_false L w :
  Forall2 (fun a c => char_eq false a c = true) L w -> w = L.
Proof.
  induction 1 as [|a c L w H _ IH]; auto.
  unfold char_eq in H. apply N.eqb_eq in H. subst. reflexivity.
Qed.

Lemma cls_lit_match ic X L prev s n g :
  match_at ic (Grp 1 (Cls X) +++ Grp 2 (Lit L)) prev s = Some (n, g) ->
  exists c w2,
    g 0 = c :: w2 /\ tpl_1_sp_2 g = c :: space :: w2
    /\ in_class ic X c = true
    /\ Forall2 (fun a d => char_eq ic a d = true) L w2.
Proof.
  intros Hm.
  destruct (two_groups_plain ic (Cls X) (Lit L) _ _ _ _ eq_refl Hm)
    as (m1 & m2 & w1 & w2 & H1 & R1 & H2 & R2 & E0 & E1 & E2).
  destruct (reads_Cls _ _ _ _ _ H1 R1) as (c & -> & Hc).
  assert (R2' : reads (MState (m_prev m1) (m_rest m1)
                              (set_group 1 [c] (m_groups m1))) m2 w2)
    by (destruct R2; split; auto).
  pose proof (reads_Lit _ _ _ _ _ H2 R2') as HF.
  exists c, w2. unfold tpl_1_sp_2. rewrite E0, E1, E2. auto.
Qed.

Lemma lit_cls_match ic L X prev s n g :
  match_at ic (Grp 1 (Lit L) +++ Grp 2 (Cls X)) prev s = Some (n, g) ->
  exists w1 d,
    g 0 = w1 ++ [d] /\ tpl_1_sp_2 g = w1 ++ space :: [d]
    /\ Forall2 (fun a c => char_eq ic a c = true) L w1
    /\ in_class ic X d = true.
Proof.
  intros Hm.
  destruct (two_groups_plain ic (Lit L) (Cls X) _ _ _ _ eq_refl Hm)
    as (m1 & m2 & w1 & w2 & H1 & R1 & H2 & R2 & E0 & E1 & E2).
  pose proof (reads_Lit _ _ _ _ _ H1 R1) as HF.
  assert (R2' : reads (MState (m_prev m1) (m_rest m1)
                              (set_group 1 w1 (m_groups m1))) m2 w2)
    by (destruct R2; split; auto).
  destruct (reads_Cls _ _ _ _ _ H2 R2') as (d & -> & Hd).
  exists w1, d. unfold tpl_1_sp_2. rewrite E0, E1, E2. auto.
Qed.

Lemma cls_lit_spaced ic X L :
  L <> [] ->
  forall s prev,
    spaced (fun c d => in_class ic X c && char_eq ic (hd 0%N L) d) s
           (sub_from ic (Grp 1 (Cls X) +++ Grp 2 (Lit L)) tpl_1_sp_2 prev s).
Proof.
  intros HL. apply sub_from_spaced. intros prev s n g Hm.
  destruct (cls_lit_match _ _ _ _ _ _ _ Hm) as (c & w2 & E0 & Et & Hc & HF).
  inversion HF as [|a d L' w2' Had HF' EL Ew]; subst;
    [exfalso; apply HL; reflexivity|].
  exists [], c, d, w2'. simpl. rewrite Hc, Had. auto.
Qed.

Lemma Forall2_last {A B} (R : A -> B -> Prop) (l : list A) (w : list B) a0 :
  Forall2 R l w -> l <> [] ->
  exists w' d, w = w' ++ [d] /\ R (last l a0) d.
Proof.
  induction 1 as [|a d l w H HF IH]; intros Hne; [congruence|].
  destruct HF as [|a' d' l w H' HF].
  - exists [], d. auto.
  - destruct IH as (w' & e & E & HR); [discriminate|].
    exists (d :: w'), e. rewrite E. split; auto.
Qed.

Lemma lit_cls_spaced ic L X :
  L <> [] ->
  forall s prev,
    spaced (fun c d => char_eq ic (last L 0%N) c && in_class ic X d) s
           (sub_from ic (Grp 1 (Lit L) +++ Grp 2 (Cls X)) tpl_1_sp_2 prev s).
Proof.
  intros HL. apply sub_from_spaced. intros prev s n g Hm.
  destruct (lit_cls_match _ _ _ _ _ _ _ Hm) as (w1 & d & E0 & Et & HF & Hd).
  destruct (Forall2_last _ _ _ 0%N HF HL) as (w' & c & -> & Hc).
  exists w', c, d, []. rewrite E0, Et, <- !app_assoc. simpl.
  rewrite Hc, Hd. auto.
Qed.

(** The patterns find what they are written for. *)
Lemma cls_lit_hit X L prev c b :
  X c = true ->
  match_at false (Grp 1 (Cls X) +++ Grp 2 (Lit L)) prev (c :: L ++ b) <> None.
Proof.
  intros Hc Hn. apply match_at_None_inv in Hn.
  - assert (Hin : In (MState (last_opt L (Some c)) b
                        (set_group 2 L (set_group 1 [c] no_groups)))
                     (rmatch false (Grp 1 (Cls X) +++ Grp 2 (Lit L))
                             (MState prev (c :: L ++ b) no_groups))).
    { apply rmatch_Cat_In.
      exists (MState (Some c) (L ++ b) (set_group 1 [c] no_groups)). split.
      - apply rmatch_Grp_In. exists (MState (Some c) (L ++ b) no_groups), [c].
        split; [|split; [split|]]; try reflexivity.
        apply rmatch_Cls_In. exists c. repeat split. exact Hc.
      - apply rmatch_Grp_In.
        exists (MState (last_opt L (Some c)) b (set_group 1 [c] no_groups)), L.
        split; [|split; [split|]]; try reflexivity.
        apply rmatch_Lit_In. repeat split. }
    rewrite Hn in Hin. destruct Hin.
  - intros st' Hin E.
    apply rmatch_Cat_In in Hin. destruct Hin as (x & Hx & Hy).
    apply rmatch_Grp_In in Hx. destruct Hx as (m & wx & Hx & Rx & ->).
    apply rmatch_Cls_In in Hx. destruct Hx as (c' & Ex & _).
    apply rmatch_Grp_In in Hy. destruct Hy as (m' & wy & Hy & Ry & ->).
    destruct Ry as [Ry _]. cbn [m_rest] in *.
    rewrite Ry, E in Ex. apply (f_equal (@length char)) in Ex.
    simpl in Ex. rewrite !length_app in Ex. simpl in Ex.
    rewrite !length_app in Ex. lia.
Qed.


Lemma insertion_sound : forall old new,
  insertion old new = true ->
  exists w1 c d w2, old = w1 ++ c :: d :: w2
                    /\ new = w1 ++ c :: space :: d :: w2.
Proof.
  induction old as [|c old IH]; intros new H; [discriminate|].
  destruct new as [|c' new]; [discriminate|].
  cbn [insertion] in H. apply andb_true_iff in H as [Hc H].
  apply N.eqb_eq in Hc. subst c'.
  apply orb_true_iff in H as [H|H].
  - destruct old as [|d old]; [discriminate|].
    apply str_eqb_eq in H. subst new.
    exists [], c, d, old. auto.
  - destruct (IH _ H) as (w1 & c1 & d & w2 & -> & ->).
    exists (c :: w1), c1, d, w2. auto.
Qed.

Lemma match_at_Lit_group old prev s n g :
  match_at false (Lit old) prev s = Some (n, g) -> g 0 = old.
Proof.
  intros H. apply match_at_Some in H.
  destruct H as (st' & w & Hhd & Hs & Hl & _ & _ & Hg).
  assert (Hin : In st' (rmatch false (Lit old) (MState prev s no_groups)))
    by (rewrite Hhd; left; auto).
  apply rmatch_Lit_In in Hin. destruct Hin as (E & _). cbn [m_rest] in E.
  rewrite E in Hs. apply app_inv_tail in Hs. subst g w. reflexivity.
Qed.

Lemma replace_spaced old new :
  insertion old new = true ->
  forall s, spaced (fun _ _ => true) s (replace old new s).
Proof.
  intros H s. unfold replace, re_sub. rewrite re_sub_with_from.
  apply sub_from_spaced. intros prev s0 n g Hm.
  destruct (insertion_sound _ _ H) as (w1 & c & d & w2 & E1 & E2).
  exists w1, c, d, w2. rewrite (match_at_Lit_group _ _ _ _ _ Hm).
  unfold tpl_const. auto.
Qed.

Lemma replace_gentle old new :
  insertion old new = true -> gentle (replace old new).
Proof.
  intros H s. eapply spaced_pulls_back. apply replace_spaced. exact H.
Qed.

Lemma replace_all_gentle pairs :
  forallb (fun p => insertion (fst p) (snd p)) pairs = true ->
  gentle (replace_all pairs).
Proof.
  intros H. unfold replace_all.
  apply (gentle_fold (fun acc p => replace (fst p) (snd p) acc)).
  intros p Hp. apply replace_gentle.
  rewrite forallb_forall in H. apply H. exact Hp.
Qed.


Lemma lit_cls_gentle ic L X :
  L <> [] ->
  gentle (re_sub_with ic (Grp 1 (Lit L) +++ Grp 2 (Cls X)) tpl_1_sp_2).
Proof.
  intros HL s. rewrite re_sub_with_from.
  eapply spaced_pulls_back. apply lit_cls_spaced. exact HL.
Qed.



(** *** Characters glued to the front of [<strong] *)

Lemma open_inv_ctx ctx t : open_inv [] t -> open_inv ctx t.
Proof.
  intros H v c b E Hc. destruct (H v c b E Hc) as (v' & Ev).
  simpl in Ev. exists (ctx ++ v'). rewrite Ev, app_assoc. reflexivity.
Qed.

Lemma open_inv_cons ctx c0 t :
  open_inv (ctx ++ [c0]) t ->
  (nonspace c0 = true -> starts_with (u "<strong") t = true ->
   exists v', ctx ++ [c0] = v' ++ u " <strong") ->
  open_inv ctx (c0 :: t).
Proof.
  intros H Hd v c b E Hc. destruct v as [|x v].
  - injection E as -> E. apply Hd; auto.
    apply starts_with_iff. exists b. exact E.
  - injection E as -> E. destruct (H v c b E Hc) as (v' & Ev).
    exists v'. rewrite <- Ev, <- app_assoc. reflexivity.
Qed.

Lemma open_clean_cons c0 t :
  (nonspace c0 = true -> starts_with (u "<strong") t = false) ->
  open_clean t -> open_clean (c0 :: t).
Proof.
  intros Hd H c Hc (a & b & E). destruct a as [|x a].
  - injection E as -> E.
    assert (Hs : starts_with (u "<strong") t = true)
      by (apply starts_with_iff; exists b; exact E).
    rewrite (Hd Hc) in Hs. discriminate.
  - injection E as _ E. apply (H c Hc). exists a, b. exact E.
Qed.

Lemma open_clean_nil : open_clean [].
Proof. intros c _ (a & b & E). destruct a; discriminate. Qed.

Lemma ws_free_strong c tail :
  nonspace c = true -> ws_free tail = true -> ws_free (c :: tail) = true.
Proof. intros Hc Ht. unfold ws_free. simpl. rewrite Hc. exact Ht. Qed.

Lemma open_clean_pulls_back s t :
  pulls_back s t -> open_clean s -> open_clean t.
Proof.
  intros Hp H c Hc Ho. apply (H c Hc). apply Hp; auto.
  apply ws_free_strong; auto.
Qed.

Lemma open_ready_pulls_back K s t :
  pulls_back s t -> open_ready K s -> open_ready K t.
Proof.
  intros Hp [H1 H2]. split.
  - intros c Hc HK Ho. apply (H1 c Hc HK). apply Hp; auto.
    apply ws_free_strong; auto.
  - intros c Hc Ho. apply (H2 c Hc). apply Hp; auto.
    apply ws_free_strong; auto.
Qed.

Lemma open_ready_app K w s : open_ready K (w ++ s) -> open_ready K s.
Proof.
  intros [H1 H2]. split.
  - intros c Hc HK Ho. apply (H1 c Hc HK). apply occurs_app. exact Ho.
  - intros c Hc Ho. apply (H2 c Hc). apply occurs_app. exact Ho.
Qed.

Lemma open_ready_nil K : open_ready K [].
Proof.
  split.
  - intros c _ _ (a & b & E). destruct a; discriminate.
  - intros c _ (a & b & E). destruct a; discriminate.
Qed.

Lemma last_eq {A} (x y : list A) a b : x ++ [a] = y ++ [b] -> x = y /\ a = b.
Proof. intros H. apply app_inj_tail in H. exact H. Qed.

Lemma open_inv_ready K t :
  K (ch "g") = true -> open_inv [] t -> open_ready K t.
Proof.
  intros Kg H. split.
  - intros c Hc HK (a & b & E).
    destruct (H a c b E Hc) as (v' & Ev). simpl in Ev.
    change (v' ++ u " <strong") with (v' ++ u " <stron" ++ [ch "g"]) in Ev.
    rewrite app_assoc in Ev. apply last_eq in Ev as [_ ->]. congruence.
  - intros c Hc (a & b & E).
    assert (E' : t = (a ++ c :: u "<stron") ++ ch "g" :: u "<strong" ++ b).
    { rewrite E, <- app_assoc. reflexivity. }
    destruct (H _ _ _ E' eq_refl) as (v' & Ev). simpl in Ev.
    change (v' ++ u " <strong") with (v' ++ space :: u "<stron" ++ [ch "g"])
      in Ev.
    rewrite <- !app_assoc in Ev.
    change ((c :: u "<stron") ++ [ch "g"]) with (c :: u "<stron" ++ [ch "g"])
      in Ev.
    destruct (app_same_length a (c :: u "<stron" ++ [ch "g"])
                v' (space :: u "<stron" ++ [ch "g"])) as [_ Ec].
    + exact Ev.
    + apply (f_equal (@length char)) in Ev. rewrite !length_app in Ev.
      simpl in Ev. lia.
    + injection Ec as ->. discriminate.
Qed.

Lemma strong_open_ws_free : ws_free (u "<strong") = true.
Proof. reflexivity. Qed.

(** What the pass [(X)(<strong)] writes for a match. *)
Lemma open_match X prev s n g :
  match_at false (Grp 1 (Cls X) +++ Grp 2 (Lit (u "<strong"))) prev s
  = Some (n, g) ->
  exists c, g 0 = c :: u "<strong"
            /\ tpl_1_sp_2 g = c :: space :: u "<strong" /\ X c = true.
Proof.
  intros Hm.
  destruct (cls_lit_match _ _ _ _ _ _ _ Hm) as (c & w2 & E0 & Et & Hc & HF).
  apply Forall2_char_eq_false in HF. subst w2. exists c. auto.
Qed.

(** After a pass [(X)(<strong)], [X] holding all characters other than
    white space, a character is glued to [<strong] only where the pass has
    just written a [<strong] itself. *)
Lemma open_pass_inv X :
  (forall c, nonspace c = true -> X c = true) ->
  forall s prev,
    open_inv [] (sub_from false (Grp 1 (Cls X) +++ Grp 2 (Lit (u "<strong")))
                          tpl_1_sp_2 prev s).
Proof.
  intros HX.
  apply (sub_from_ind false _ tpl_1_sp_2 (fun _ _ t => open_inv [] t)).
  - intros _ v c b E. destruct v; discriminate.
  - intros prev c0 s Hn IH. apply open_inv_cons.
    + apply open_inv_ctx. exact IH.
    + intros Hc Hs. exfalso. apply starts_with_iff in Hs as (b & Hs).
      destruct (spaced_prefix _ _ _
                  (cls_lit_spaced false X (u "<strong") ltac:(discriminate)
                                  s (Some c0))
                  (u "<strong") b strong_open_ws_free Hs) as (b' & ->).
      exact (cls_lit_hit X (u "<strong") prev c0 b' (HX c0 Hc) Hn).
  - intros prev w s g Hm _ _ IH.
    destruct (open_match _ _ _ _ _ Hm) as (c & _ & -> & _).
    change ((c :: space :: u "<strong") ++ ?t)
      with (c :: space :: ch "<" :: ch "s" :: ch "t" :: ch "r" :: ch "o"
              :: ch "n" :: ch "g" :: t).
    apply open_inv_cons; [|intros _ H; vm_compute in H; discriminate].
    apply open_inv_cons; [|intros H; vm_compute in H; discriminate].
    apply open_inv_cons; [|intros H; vm_compute in H; discriminate].
    apply open_inv_cons; [|intros _ H; vm_compute in H; discriminate].
    apply open_inv_cons; [|intros _ H; vm_compute in H; discriminate].
    apply open_inv_cons; [|intros _ H; vm_compute in H; discriminate].
    apply open_inv_cons; [|intros _ H; vm_compute in H; discriminate].
    apply open_inv_cons; [|intros _ H; vm_compute in H; discriminate].
    apply open_inv_cons; [|intros _ _; exists [c]; reflexivity].
    apply open_inv_ctx. exact IH.
Qed.

(** A pass [(K)(<strong)] on a text that is ready for it leaves nothing
    glued to the front of [<strong]. *)
Lemma open_pass_clean K :
  (forall c, K c = true -> nonspace c = true) ->
  forall s prev,
    open_ready K s ->
    open_clean (sub_from false (Grp 1 (Cls K) +++ Grp 2 (Lit (u "<strong")))
                         tpl_1_sp_2 prev s).
Proof.
  intros HK.
  apply (sub_from_ind false _ tpl_1_sp_2
           (fun _ s t => open_ready K s -> open_clean t)).
  - intros _ _. apply open_clean_nil.
  - intros prev c0 s Hn IH Hr. apply open_clean_cons.
    + intros Hc.
      destruct (starts_with (u "<strong") _) eqn:Hs; [|reflexivity].
      exfalso. apply starts_with_iff in Hs as (b & Hs).
      destruct (spaced_prefix _ _ _
                  (cls_lit_spaced false K (u "<strong") ltac:(discriminate)
                                  s (Some c0))
                  (u "<strong") b strong_open_ws_free Hs) as (b' & ->).
      destruct (K c0) eqn:Kc.
      * exact (cls_lit_hit K (u "<strong") prev c0 b' Kc Hn).
      * destruct Hr as [H1 _]. apply (H1 c0 Hc Kc).
        exists [], b'. reflexivity.
    + apply IH. apply (open_ready_app K [c0]). exact Hr.
  - intros prev w s g Hm _ Hg IH Hr.
    destruct (open_match _ _ _ _ _ Hm) as (c & E0 & -> & Kc).
    assert (Ew : w = c :: u "<strong") by congruence. clear Hg E0. subst w.
    pose proof (IH (open_ready_app K _ _ Hr)) as Hclean.
    change ((c :: space :: u "<strong") ++ ?t)
      with (c :: space :: ch "<" :: ch "s" :: ch "t" :: ch "r" :: ch "o"
              :: ch "n" :: ch "g" :: t).
    apply open_clean_cons; [intros _; reflexivity|].
    apply open_clean_cons; [intros H; vm_compute in H; discriminate|].
    apply open_clean_cons; [intros _; reflexivity|].
    apply open_clean_cons; [intros _; reflexivity|].
    apply open_clean_cons; [intros _; reflexivity|].
    apply open_clean_cons; [intros _; reflexivity|].
    apply open_clean_cons; [intros _; reflexivity|].
    apply open_clean_cons; [intros _; reflexivity|].
    apply open_clean_cons; [|exact Hclean].
    intros _.
    destruct (starts_with (u "<strong") _) eqn:Hs; [|reflexivity].
    exfalso. apply starts_with_iff in Hs as (b & Hs).
    destruct (spaced_prefix _ _ _
                (cls_lit_spaced false K (u "<strong") ltac:(discriminate)
                   s (last_opt (c :: u "<strong") prev))
                (u "<strong") b strong_open_ws_free Hs) as (b' & ->).
    destruct Hr as [_ H2]. apply (H2 c (HK c Kc)).
    exists [], b'. reflexivity.
Qed.

(** *** Characters glued to the back of [</strong>] *)










Lemma close_ready_nil : close_ready [].
Proof. intros d _ (a & b & E). destruct a; discriminate. Qed.






(** *** The last passes of [translate_text], cut at the passes that
    matter for [<strong] and [</strong>] *)

Lemma force_split c s :
  force_strong_tag_spacing (c :: s)
  = force_rest (force_pass2 (force_pass1 (c :: s))).
Proof. reflexivity. Qed.



Lemma force_pass2_gentle : gentle force_pass2.
Proof. apply lit_cls_gentle. discriminate. Qed.







Lemma cz_alnum_punct_nonspace c :
  cz_alnum_punct c = true -> nonspace c = true.
Proof.
  intros H.
  assert (E : (negb (cz_alnum_punct c) || nonspace c) = true).
  { apply (char_cases (fun c => negb (cz_alnum_punct c) || nonspace c)).
    - vm_compute. reflexivity.
    - intros d Hd. unfold cz_alnum_punct, rng.
      rewrite !between_big, !elem_big; auto; try (vm_compute; reflexivity).
      all: try (intros e He; vm_compute in He;
                repeat (destruct He as [<-|He]; [vm_compute; reflexivity|]);
                destruct He). }
  rewrite H in E. exact E.
Qed.










(** *** Texts up to spaces *)

Lemma strip_app a b : strip (a ++ b) = strip a ++ strip b.
Proof. apply filter_app. Qed.

Lemma strip_spaceless w : spaceless w = true -> strip w = w.
Proof.
  induction w as [|c w IH]; intros H; auto.
  simpl in H. apply andb_true_iff in H as [Hc Hw].
  unfold strip. simpl. rewrite Hc. f_equal. apply IH. exact Hw.
Qed.

Lemma words_nonempty s : words s <> [].
Proof.
  destruct s as [|c s]; simpl; [discriminate|].
  destruct (N.eqb c space); [discriminate|].
  destruct (words s); discriminate.
Qed.

Lemma words_spaceless s : Forall (fun w => spaceless w = true) (words s).
Proof.
  induction s as [|c s IH]; simpl.
  - constructor; auto.
  - destruct (N.eqb c space) eqn:E.
    + constructor; auto.
    + destruct (words s) as [|w ws]; [constructor; [|constructor]|].
      * simpl. rewrite E. reflexivity.
      * inversion IH; subst. constructor; auto.
        simpl. rewrite E. simpl. assumption.
Qed.

Lemma unwords_words s : unwords (words s) = s.
Proof.
  induction s as [|c s IH]; simpl; auto.
  destruct (N.eqb c space) eqn:E.
  - apply N.eqb_eq in E. subst c. simpl.
    destruct (words s) as [|w ws] eqn:Ew; [destruct (words_nonempty s Ew)|].
    simpl in IH |- *. rewrite IH. reflexivity.
  - destruct (words s) as [|w ws] eqn:Ew; [destruct (words_nonempty s Ew)|].
    simpl in IH |- *. rewrite IH. reflexivity.
Qed.

Lemma words_app_space a b : words (a ++ space :: b) = words a ++ words b.
Proof.
  induction a as [|c a IH]; simpl.
  - reflexivity.
  - destruct (N.eqb c space); rewrite IH; [reflexivity|].
    destruct (words a) as [|w ws] eqn:Ew; [destruct (words_nonempty a Ew)|].
    reflexivity.
Qed.

Lemma words_of_spaceless w : spaceless w = true -> words w = [w].
Proof.
  induction w as [|c w IH]; intros H; auto.
  simpl in H. apply andb_true_iff in H as [Hc Hw].
  simpl. apply negb_true_iff in Hc. rewrite Hc, (IH Hw). reflexivity.
Qed.

Lemma strip_flat ws :
  strip (flat_map (fun x => space :: x) ws) = strip (concat ws).
Proof.
  induction ws as [|w ws IH]; simpl; auto.
  change (space :: w ++ flat_map (fun x => space :: x) ws)
    with ([space] ++ w ++ flat_map (fun x => space :: x) ws).
  rewrite !strip_app, IH. reflexivity.
Qed.

Lemma strip_unwords ws : strip (unwords ws) = strip (concat ws).
Proof.
  destruct ws as [|w ws]; auto. simpl.
  rewrite !strip_app, strip_flat. reflexivity.
Qed.

Lemma strip_concat_spaceless ws :
  Forall (fun w => spaceless w = true) ws -> strip (concat ws) = concat ws.
Proof.
  induction 1 as [|w ws H _ IH]; simpl; auto.
  rewrite strip_app, IH, (strip_spaceless w H). reflexivity.
Qed.

Lemma strip_words s : strip s = concat (words s).
Proof.
  rewrite <- (unwords_words s) at 1. rewrite strip_unwords.
  apply strip_concat_spaceless. apply words_spaceless.
Qed.

(** Pieces that hold spaces themselves can be cut further. *)
Lemma unwords_flat_words xs :
  unwords (flat_map words xs) = unwords xs.
Proof.
  assert (H : forall xs,
    flat_map (fun x => space :: x) (flat_map words xs)
    = flat_map (fun x => space :: x) xs).
  { induction xs0 as [|x xs0 IH]; [reflexivity|].
    change (flat_map words (x :: xs0)) with (words x ++ flat_map words xs0).
    rewrite flat_map_app.
    change (flat_map (fun x => space :: x) (x :: xs0))
      with ((space :: x) ++ flat_map (fun x => space :: x) xs0).
    f_equal; [|exact IH].
    pose proof (unwords_words x) as E.
    destruct (words x) as [|w ws] eqn:Ew; [destruct (words_nonempty x Ew)|].
    cbn [unwords] in E. cbn [flat_map].
    change ((space :: w) ++ ?y) with (space :: (w ++ y)). f_equal. exact E. }
  destruct xs as [|x xs]; [reflexivity|].
  change (flat_map words (x :: xs)) with (words x ++ flat_map words xs).
  pose proof (unwords_words x) as E.
  destruct (words x) as [|w ws] eqn:Ew; [destruct (words_nonempty x Ew)|].
  cbn [unwords] in E |- *.
  change ((w :: ws) ++ flat_map words xs) with (w :: ws ++ flat_map words xs).
  cbn [unwords]. rewrite flat_map_app, app_assoc. subst x.
  f_equal. apply H.
Qed.

Lemma spaced_strip P s t : spaced P s t -> strip t = strip s.
Proof.
  induction 1 as [|c s t H IH|c d s t HP H IH]; auto.
  - unfold strip in *. simpl. rewrite IH. reflexivity.
  - unfold strip in *. simpl. rewrite IH. reflexivity.
Qed.

(** *** [str.replace] piece by piece *)

Lemma spaceless_app a b :
  spaceless (a ++ b) = spaceless a && spaceless b.
Proof. apply forallb_app. Qed.

Lemma occurs_suffix P c w : ~ occurs P (c :: w) -> ~ occurs P w.
Proof. intros H Ho. apply H. apply occurs_cons. exact Ho. Qed.

(** A key without spaces does not begin in a piece in which it does not
    occur. *)
Lemma no_key_here P prev w rest :
  spaceless P = true -> w <> [] -> ~ occurs P w -> at_gap rest ->
  match_at false (Lit P) prev (w ++ rest) = None.
Proof.
  intros HP Hne Ho Hg.
  destruct (match_at false (Lit P) prev (w ++ rest)) as [[n g]|] eqn:E; auto.
  exfalso. apply match_at_Lit in E. destruct E as (s' & E & _).
  apply app_eq_app_cases in E. destruct E as [(l & E1 & E2)|(l & Hl & E1 & E2)].
  - apply Ho. exists [], l. rewrite E1. reflexivity.
  - destruct Hg as [->|(rest' & ->)].
    + destruct l; [congruence|discriminate].
    + destruct l as [|x l]; [congruence|]. injection E2 as <- _.
      rewrite E1, spaceless_app in HP. simpl in HP.
      rewrite andb_false_r in HP. discriminate.
Qed.

Lemma skip_piece P tag w : forall prev rest,
  spaceless P = true -> ~ occurs P w -> at_gap rest ->
  sub_from false (Lit P) (tpl_const tag) prev (w ++ rest)
  = w ++ sub_from false (Lit P) (tpl_const tag) (last_opt w prev) rest.
Proof.
  induction w as [|c w IH]; intros prev rest HP Ho Hg; [reflexivity|].
  change ((c :: w) ++ rest) with (c :: (w ++ rest)).
  rewrite sub_from_copy.
  - rewrite (IH (Some c) rest HP (occurs_suffix _ _ _ Ho) Hg). reflexivity.
  - apply (no_key_here P prev (c :: w) rest HP); auto. discriminate.
Qed.

Lemma hit_piece P tag prev rest :
  P <> [] ->
  sub_from false (Lit P) (tpl_const tag) prev (P ++ rest)
  = tag ++ sub_from false (Lit P) (tpl_const tag) (last_opt P prev) rest.
Proof.
  intros HP.
  destruct (match_at false (Lit P) prev (P ++ rest)) as [[n g]|] eqn:E.
  - destruct (match_at_Lit _ _ _ _ _ E) as (s' & _ & Hn).
    rewrite (sub_from_match _ _ _ _ P rest n g E); auto.
  - destruct (match_at_Lit_hit P prev rest HP E).
Qed.

Lemma skip_space P tag prev rest :
  P <> [] -> spaceless P = true ->
  sub_from false (Lit P) (tpl_const tag) prev (space :: rest)
  = space :: sub_from false (Lit P) (tpl_const tag) (Some space) rest.
Proof.
  intros Hne HP. apply sub_from_copy.
  destruct (match_at false (Lit P) prev (space :: rest)) as [[n g]|] eqn:E;
    auto.
  exfalso. apply match_at_Lit in E. destruct E as (s' & E & _).
  destruct P as [|x P]; [congruence|]. injection E as <- _.
  simpl in HP. discriminate.
Qed.

Lemma replace_pieces P tag :
  P <> [] -> spaceless P = true ->
  forall ws prev,
    Forall (piece_ok P) ws ->
    sub_from false (Lit P) (tpl_const tag) prev
             (flat_map (fun x : str => space :: x) ws)
    = flat_map (fun x : str => space :: x) (map (swap P tag) ws).
Proof.
  intros Hne HP. induction ws as [|w ws IH]; intros prev H; [reflexivity|].
  inversion H as [|w' ws' [Hw Hc] Hrest]; subst.
  cbn [flat_map map].
  change ((space :: w) ++ ?y) with (space :: (w ++ y)).
  rewrite (skip_space P tag prev _ Hne HP).
  assert (Hg : at_gap (flat_map (fun x : str => space :: x) ws)).
  { destruct ws; [left; reflexivity|right; eexists; reflexivity]. }
  unfold swap at 1. destruct (str_eqb w P) eqn:E.
  - apply str_eqb_eq in E. subst w.
    rewrite (hit_piece P tag _ _ Hne), IH; auto.
  - destruct Hc as [->|Hc].
    + assert (E' : str_eqb P P = true) by (apply str_eqb_eq; reflexivity).
      congruence.
    + rewrite (skip_piece P tag w _ _ HP Hc Hg), IH; auto.
Qed.

Lemma replace_unwords P tag ws :
  P <> [] -> spaceless P = true ->
  Forall (piece_ok P) ws ->
  replace P tag (unwords ws) = unwords (map (swap P tag) ws).
Proof.
  intros Hne HP H. unfold replace, re_sub. rewrite re_sub_with_from.
  destruct ws as [|w ws]; [reflexivity|].
  inversion H as [|w' ws' [Hw Hc] Hrest]; subst.
  cbn [unwords map].
  assert (Hg : at_gap (flat_map (fun x : str => space :: x) ws)).
  { destruct ws; [left; reflexivity|right; eexists; reflexivity]. }
  unfold swap at 1. destruct (str_eqb w P) eqn:E.
  - apply str_eqb_eq in E. subst w.
    rewrite (hit_piece P tag _ _ Hne), (replace_pieces P tag Hne HP); auto.
  - destruct Hc as [->|Hc].
    + assert (E' : str_eqb P P = true) by (apply str_eqb_eq; reflexivity).
      congruence.
    + rewrite (skip_piece P tag w _ _ HP Hc Hg),
              (replace_pieces P tag Hne HP); auto.
Qed.

(** *** Placeholders as keys *)

Lemma uint_chars_inj : forall d1 d2, uint_chars d1 = uint_chars d2 -> d1 = d2.
Proof.
  induction d1; destruct d2; simpl; intros H; try discriminate;
    try reflexivity; injection H as H; f_equal; auto.
Qed.

Lemma str_of_nat_inj j k : str_of_nat j = str_of_nat k -> j = k.
Proof.
  unfold str_of_nat. intros H. apply Unsigned.to_uint_inj.
  apply uint_chars_inj. exact H.
Qed.

Lemma digits_then_E : forall d1 d2 x y,
  forallb digit d1 = true -> forallb digit d2 = true ->
  d1 ++ ch "E" :: x = d2 ++ ch "E" :: y -> d1 = d2.
Proof.
  induction d1 as [|a d1 IH]; intros [|b d2] x y H1 H2 E; simpl in *.
  - reflexivity.
  - injection E as <- _. apply andb_true_iff in H2 as [H2 _].
    vm_compute in H2. discriminate.
  - injection E as -> _. apply andb_true_iff in H1 as [H1 _].
    vm_compute in H1. discriminate.
  - injection E as -> E. apply andb_true_iff in H1 as [_ H1].
    apply andb_true_iff in H2 as [_ H2]. f_equal. eapply IH; eauto.
Qed.

Lemma digit_spaceless d : forallb digit d = true -> spaceless d = true.
Proof.
  induction d as [|c d IH]; simpl; auto. intros H.
  apply andb_true_iff in H as [Hc Hd]. rewrite (IH Hd), andb_true_r.
  destruct (N.eqb c space) eqn:E; auto.
  apply N.eqb_eq in E. subst c. vm_compute in Hc. discriminate.
Qed.

Lemma digit_no_H d : forallb digit d = true -> forallb not_H d = true.
Proof.
  induction d as [|c d IH]; cbn [forallb]; auto. intros H.
  apply andb_true_iff in H as [Hc Hd]. rewrite (IH Hd), andb_true_r.
  unfold not_H. destruct (N.eqb c (ch "H")) eqn:E; auto.
  apply N.eqb_eq in E. subst c. vm_compute in Hc. discriminate.
Qed.

Lemma placeholder_nonempty j : placeholder j <> [].
Proof. discriminate. Qed.

Lemma placeholder_spaceless j : spaceless (placeholder j) = true.
Proof.
  unfold placeholder. rewrite !spaceless_app.
  rewrite (digit_spaceless _ (str_of_nat_digits j)). reflexivity.
Qed.

Lemma placeholder_has_tag j : occurs (u "HTMLTAG") (placeholder j).
Proof. exists [], (str_of_nat j ++ u "ENDTAG"). reflexivity. Qed.

Lemma placeholder_inj j k : placeholder j = placeholder k -> j = k.
Proof.
  unfold placeholder. intros H. apply app_inv_head in H.
  apply str_of_nat_inj.
  apply (digits_then_E _ _ (u "NDTAG") (u "NDTAG"));
    auto using str_of_nat_digits.
Qed.

(** One placeholder is not found inside another. *)
Lemma placeholder_occurs j k :
  occurs (placeholder j) (placeholder k) -> j = k.
Proof.
  intros (a & b & E). destruct a as [|x a].
  - unfold placeholder in E. simpl in E.
    repeat (injection E as E). rewrite <- !app_assoc in E.
    apply str_of_nat_inj. symmetry.
    apply (digits_then_E _ _ (u "NDTAG") (u "NDTAG" ++ b));
      auto using str_of_nat_digits.
  - exfalso.
    assert (HH : forallb not_H (u "TMLTAG" ++ str_of_nat k ++ u "ENDTAG")
                 = true).
    { rewrite !forallb_app, (digit_no_H _ (str_of_nat_digits k)).
      reflexivity. }
    unfold placeholder in E.
    change (u "HTMLTAG" ++ str_of_nat k ++ u "ENDTAG")
      with (ch "H" :: u "TMLTAG" ++ str_of_nat k ++ u "ENDTAG") in E.
    injection E as _ E.
    assert (E2 : u "TMLTAG" ++ str_of_nat k ++ u "ENDTAG"
                 = a ++ (u "HTMLTAG" ++ str_of_nat j ++ u "ENDTAG") ++ b)
      by exact E.
    rewrite E2 in HH.
    rewrite forallb_app in HH. apply andb_true_iff in HH as [_ HH].
    vm_compute in HH. discriminate.
Qed.

Lemma tag_free_no_key x j : tag_free x -> ~ occurs (placeholder j) x.
Proof.
  intros H (a & b & E). apply H.
  exists a, (str_of_nat j ++ u "ENDTAG" ++ b). rewrite E.
  unfold placeholder. rewrite <- !app_assoc. reflexivity.
Qed.

Lemma tag_free_prefix x y : tag_free (x ++ y) -> tag_free x.
Proof.
  intros H (a & b & E). apply H. exists a, (b ++ y).
  rewrite E, <- !app_assoc. reflexivity.
Qed.

Lemma tag_free_suffix x y : tag_free (x ++ y) -> tag_free y.
Proof. intros H Ho. apply H. apply occurs_app. exact Ho. Qed.

Lemma tag_free_nil : tag_free [].
Proof. intros (a & b & E). destruct a; discriminate. Qed.

(** *** Restoring the tags, up to spaces *)

Lemma words_occur : forall x w0 ws0,
  words x = w0 :: ws0 ->
  (exists b, x = w0 ++ b) /\ forall w, In w ws0 -> occurs w x.
Proof.
  induction x as [|c x IH]; intros w0 ws0 E; simpl in E.
  - injection E as <- <-. split; [exists []; reflexivity|].
    intros w [].
  - destruct (words x) as [|w1 ws1] eqn:Ew;
      [destruct (words_nonempty x Ew)|].
    destruct (IH _ _ eq_refl) as [(b & Hb) Hin].
    destruct (N.eqb c space).
    + injection E as <- <-. split; [exists (c :: x); reflexivity|].
      intros w [<-|Hw].
      * apply occurs_cons. rewrite Hb. apply occurs_prefix.
      * apply occurs_cons. apply Hin. exact Hw.
    + injection E as <- <-. split; [exists b; rewrite Hb; reflexivity|].
      intros w Hw. apply occurs_cons. apply Hin. exact Hw.
Qed.

Lemma in_words_occurs x w : In w (words x) -> occurs w x.
Proof.
  intros H. destruct (words x) as [|w0 ws0] eqn:E; [destruct H|].
  destruct (words_occur _ _ _ E) as [(b & Hb) Hin].
  destruct H as [<-|H]; [rewrite Hb; apply occurs_prefix|auto].
Qed.

Lemma occurs_trans a b c : occurs a b -> occurs b c -> occurs a c.
Proof.
  intros (x & y & ->) (x' & y' & ->).
  exists (x' ++ x), (y ++ y'). rewrite <- !app_assoc. reflexivity.
Qed.

Lemma tag_free_words x w : tag_free x -> In w (words x) -> tag_free w.
Proof.
  intros H Hw Ho. apply H. eapply occurs_trans; [exact Ho|].
  apply in_words_occurs. exact Hw.
Qed.

Lemma lookup_tag_free d w : dict_ok d -> tag_free w -> lookup d w = None.
Proof.
  induction 1 as [|[k v] d [(j & Hk) _] _ IH]; intros Hw; [reflexivity|].
  simpl in *. destruct (str_eqb w k) eqn:E; [|auto].
  apply str_eqb_eq in E. subst w k. destruct Hw. apply placeholder_has_tag.
Qed.

Lemma subst_tag_free d w : dict_ok d -> tag_free w -> subst d w = w.
Proof. intros Hd Hw. unfold subst. rewrite lookup_tag_free; auto. Qed.

Lemma str_eqb_refl w : str_eqb w w = true.
Proof. apply str_eqb_eq. reflexivity. Qed.

Lemma concat_subst_words d x :
  dict_ok d -> tag_free x -> concat (map (subst d) (words x)) = strip x.
Proof.
  intros Hd Hx. rewrite strip_words. f_equal.
  rewrite <- (map_id (words x)) at 2. apply map_ext_in.
  intros w Hw. apply subst_tag_free; auto. eapply tag_free_words; eauto.
Qed.

(** Replacing the placeholders one after the other, as
    [restore_html_tags] does, puts each tag where its placeholder is. *)
Lemma replace_all_pieces : forall d ws,
  dict_ok d -> Forall (word_ok d) ws ->
  strip (replace_all d (unwords ws)) = concat (map (subst d) ws).
Proof.
  induction d as [|[P tag] d IH]; intros ws Hd Hws.
  - rewrite replace_all_nil, strip_unwords.
    rewrite strip_concat_spaceless.
    + f_equal. rewrite <- (map_id ws) at 1. apply map_ext. reflexivity.
    + eapply Forall_impl; [|exact Hws]. intros w [H _]. exact H.
  - inversion Hd as [|p d' [(j & Hj) Htag] Hd']; subst. simpl in Hj, Htag.
    subst P.
    change (replace_all ((placeholder j, tag) :: d) (unwords ws))
      with (replace_all d (replace (placeholder j) tag (unwords ws))).
    rewrite (replace_unwords (placeholder j) tag ws
               (placeholder_nonempty j) (placeholder_spaceless j)).
    2:{ eapply Forall_impl; [|exact Hws]. intros w [Hs Hw].
        split; [exact Hs|]. destruct Hw as [Hk|Hf].
        - unfold is_key in Hk. simpl in Hk. destruct Hk as [<-|Hk]; auto.
          apply in_map_iff in Hk. destruct Hk as (p & <- & Hp).
          rewrite Forall_forall in Hd'. destruct (Hd' p Hp) as [(k & Hk) _].
          rewrite Hk. destruct (Nat.eq_dec j k) as [->|Hne]; auto.
          right. intros Ho. apply Hne. apply placeholder_occurs. exact Ho.
        - right. apply tag_free_no_key. exact Hf. }
    rewrite <- unwords_flat_words. rewrite IH; auto.
    + clear IH. induction ws as [|w ws IHws]; [reflexivity|].
      inversion Hws as [|w' ws' [Hs Hw] Hrest]; subst.
      cbn [map flat_map concat]. rewrite map_app, concat_app, IHws; auto.
      f_equal. unfold swap, subst at 2. cbn [lookup].
      destruct (str_eqb w (placeholder j)) eqn:E.
      * apply concat_subst_words; auto.
      * rewrite (words_of_spaceless w Hs). simpl. apply app_nil_r.
    + apply Forall_forall. intros w' Hw'.
      apply in_flat_map in Hw'. destruct Hw' as (x & Hx & Hw').
      apply in_map_iff in Hx. destruct Hx as (w & <- & Hin).
      rewrite Forall_forall in Hws. destruct (Hws w Hin) as [Hs Hw].
      unfold swap in Hw'. destruct (str_eqb w (placeholder j)) eqn:E.
      * split.
        -- pose proof (words_spaceless tag) as Hsp.
           rewrite Forall_forall in Hsp. auto.
        -- right. eapply tag_free_words; eauto.
      * rewrite (words_of_spaceless w Hs) in Hw'.
        destruct Hw' as [<-|[]].
        split; [exact Hs|]. destruct Hw as [Hk|Hf]; [|right; exact Hf].
        left. unfold is_key in *. simpl in Hk. destruct Hk as [<-|Hk]; auto.
        rewrite str_eqb_refl in E. discriminate.
Qed.

(** *** Collapsing runs of spaces, piece by piece *)

Lemma same_pieces_all s t :
  same_pieces s t ->
  filter nonempty (words t) = filter nonempty (words s).
Proof.
  intros [H1 H2].
  destruct (words s) as [|h1 t1] eqn:E1; [destruct (words_nonempty s E1)|].
  destruct (words t) as [|h2 t2] eqn:E2; [destruct (words_nonempty t E2)|].
  simpl in *. subst h2. rewrite H2. reflexivity.
Qed.

Lemma words_spaces w s :
  forallb (only " ") w = true ->
  words (w ++ s) = map (fun _ => []) w ++ words s.
Proof.
  induction w as [|c w IH]; intros H; [reflexivity|].
  simpl in H. apply andb_true_iff in H as [Hc Hw].
  simpl. unfold only in Hc. change (ch " ") with space in Hc.
  rewrite Hc, (IH Hw). reflexivity.
Qed.

Lemma filter_nonempty_blank (w : str) (l : list str) :
  filter nonempty (map (fun _ => []) w ++ l) = filter nonempty l.
Proof. induction w; simpl; auto. Qed.

Lemma collapse_same_pieces : forall s prev,
  same_pieces s (sub_from false spaces2 (tpl_const (u " ")) prev s).
Proof.
  apply (sub_from_ind false spaces2 (tpl_const (u " "))
           (fun _ s t => same_pieces s t)).
  - intros _. split; reflexivity.
  - intros prev c s _ IH.
    pose proof (same_pieces_all _ _ IH) as Hall. destruct IH as [H1 H2].
    unfold same_pieces. cbn [words].
    destruct (words s) as [|h1 t1] eqn:E1; [destruct (words_nonempty s E1)|].
    destruct (words (sub_from false spaces2 (tpl_const (u " ")) (Some c) s))
      as [|h2 t2] eqn:E2; [destruct (words_nonempty _ E2)|].
    simpl in H1, H2. subst h2.
    destruct (N.eqb c space); simpl; split; auto.
  - intros prev w s g Hm Hne _ IH.
    pose proof (same_pieces_all _ _ IH) as Hall.
    destruct (match_at_Rep _ _ _ _ _ _ _ Hm Hne) as (Hw & _).
    change (forallb (only " ") w = true) in Hw.
    change (tpl_const (u " ") g) with [space].
    unfold same_pieces. rewrite (words_spaces w s Hw).
    change (words ([space] ++ ?t)) with ([] :: words t).
    destruct w as [|c w]; [congruence|]. cbn [map app hd tl].
    rewrite filter_nonempty_blank. split; [reflexivity|]. exact Hall.
Qed.



Lemma concat_map_nonempty (f : str -> str) l :
  f [] = [] ->
  concat (map f (filter nonempty l)) = concat (map f l).
Proof.
  intros H0. induction l as [|w l IH]; [reflexivity|].
  destruct w as [|c w]; simpl; rewrite IH; [rewrite H0|]; reflexivity.
Qed.


Lemma same_pieces_concat (f : str -> str) s t :
  same_pieces s t -> f [] = [] ->
  concat (map f (words t)) = concat (map f (words s)).
Proof.
  intros H H0.
  rewrite <- (concat_map_nonempty f (words t) H0).
  rewrite <- (concat_map_nonempty f (words s) H0).
  rewrite (same_pieces_all _ _ H). reflexivity.
Qed.

Lemma collapse_strip s :
  strip (re_sub spaces2 (tpl_const (u " ")) s) = strip s.
Proof.
  rewrite !strip_words. unfold re_sub. rewrite re_sub_with_from.
  rewrite <- (map_id (words s)), <- (map_id (words (sub_from _ _ _ _ _))).
  apply (same_pieces_concat (fun w => w)); [|reflexivity].
  apply collapse_same_pieces.
Qed.

(** *** The shielded text, piece by piece *)

Lemma dict_set_fresh k v d :
  ~ In k (map fst d) -> dict_set k v d = d ++ [(k, v)].
Proof.
  induction d as [|[k' v'] d IH]; intros H; [reflexivity|].
  simpl in *. destruct (str_eqb k' k) eqn:E.
  - apply str_eqb_eq in E. subst k'. destruct H. left. reflexivity.
  - rewrite IH; auto.
Qed.

Lemma keys_below_fresh k d : keys_below k d -> ~ In (placeholder k) (map fst d).
Proof.
  intros H Hin. apply in_map_iff in Hin. destruct Hin as (p & Hp & Hin).
  unfold keys_below in H. rewrite Forall_forall in H.
  destruct (H p Hin) as (j & Hj & E). rewrite E in Hp.
  apply placeholder_inj in Hp. lia.
Qed.

Lemma entries_dict_ok k k' new : entries k k' new -> dict_ok new.
Proof.
  intros H. eapply Forall_impl; [|exact H].
  intros p [(j & _ & E) Hf]. split; [exists j; exact E|exact Hf].
Qed.

Lemma lookup_nil d : dict_ok d -> lookup d [] = None.
Proof. intros H. apply lookup_tag_free; auto. apply tag_free_nil. Qed.

Lemma subst_nil d : dict_ok d -> subst d [] = [].
Proof. intros H. unfold subst. rewrite lookup_nil; auto. Qed.

Lemma strip_cons_space s : strip (space :: s) = strip s.
Proof. reflexivity. Qed.

Lemma strip_cons_other c s :
  N.eqb c space = false -> strip (c :: s) = c :: strip s.
Proof. intros H. unfold strip. simpl. rewrite H. reflexivity. Qed.

(** One more character in front of the shielded text. *)
Lemma shielded_as_cons c s new out k k' :
  entries k k' new -> tag_free (c :: s) ->
  shielded_as s new out -> shielded_as (c :: s) new (c :: out).
Proof.
  intros Hnew Hs ((b & Hb) & Hall & Hcat).
  pose proof (entries_dict_ok _ _ _ Hnew) as Hd.
  unfold shielded_as. cbn [words].
  destruct (words out) as [|h tl] eqn:E; [destruct (words_nonempty out E)|].
  simpl in Hb. destruct (N.eqb c space) eqn:Ec.
  - apply N.eqb_eq in Ec. subst c. split; [exists (space :: s); reflexivity|].
    split.
    + constructor; auto. right. apply tag_free_nil.
    + cbn [map concat] in Hcat |- *.
      rewrite (subst_nil _ Hd), Hcat. reflexivity.
  - assert (Hh : tag_free (c :: h)).
    { apply (tag_free_prefix (c :: h) b). simpl. rewrite <- Hb. exact Hs. }
    assert (Hh' : tag_free h).
    { intros Ho. apply Hh. apply occurs_cons. exact Ho. }
    split; [exists b; simpl; rewrite <- Hb; reflexivity|]. split.
    + inversion Hall; subst. constructor; auto.
    + cbn [map concat] in Hcat |- *.
      rewrite (subst_tag_free _ _ Hd Hh).
      rewrite (subst_tag_free _ _ Hd Hh') in Hcat.
      rewrite (strip_cons_other _ _ Ec), <- Hcat. reflexivity.
Qed.

(** A padded placeholder in front of the shielded text. *)
Lemma shielded_as_tag k k' tag s new out :
  S k <= k' -> entries (S k) k' new -> tag_free tag ->
  shielded_as s new out ->
  shielded_as (tag ++ s) ((placeholder k, tag) :: new)
              ((u " " ++ placeholder k ++ u " ") ++ out).
Proof.
  intros Hk Hnew Htag (_ & Hall & Hcat).
  pose proof (entries_dict_ok _ _ _ Hnew) as Hd.
  assert (Hw : words ((u " " ++ placeholder k ++ u " ") ++ out)
               = [] :: placeholder k :: words out).
  { change ((u " " ++ placeholder k ++ u " ") ++ out)
      with (space :: ((placeholder k ++ [space]) ++ out)).
    rewrite <- app_assoc. cbn [words]. rewrite N.eqb_refl.
    change ([space] ++ out) with (space :: out).
    rewrite words_app_space, (words_of_spaceless _ (placeholder_spaceless k)).
    reflexivity. }
  unfold shielded_as. rewrite Hw. split; [exists (tag ++ s); reflexivity|].
  assert (Hother : forall w, In w (words out) ->
                     str_eqb w (placeholder k) = false).
  { intros w Hin. rewrite Forall_forall in Hall.
    destruct (str_eqb w (placeholder k)) eqn:E; auto.
    apply str_eqb_eq in E. subst w. exfalso.
    destruct (Hall _ Hin) as [Hkey|Hf].
    - unfold is_key in Hkey. apply in_map_iff in Hkey.
      destruct Hkey as (p & Hp & Hin').
      unfold entries in Hnew. rewrite Forall_forall in Hnew.
      destruct (Hnew p Hin') as [(j & Hj & E) _]. rewrite E in Hp.
      apply placeholder_inj in Hp. lia.
    - apply Hf. apply placeholder_has_tag. }
  split.
  - constructor; [right; apply tag_free_nil|].
    constructor; [left; left; reflexivity|].
    eapply Forall_impl; [|exact Hall].
    intros w [Hkey|Hf]; [left; right; exact Hkey|right; exact Hf].
  - cbn [map concat]. unfold subst at 1 2. cbn [lookup].
    rewrite str_eqb_refl.
    assert (E0 : str_eqb [] (placeholder k) = false) by reflexivity.
    rewrite E0. fold (subst new []). rewrite (subst_nil _ Hd).
    rewrite strip_app, <- Hcat. cbn [app]. f_equal. f_equal.
    apply map_ext_in. intros w Hin. unfold subst. cbn [lookup].
    rewrite (Hother w Hin). reflexivity.
Qed.

(** Shielding, from any counter and dictionary on. *)
Lemma shield_loop : forall s prev st,
  tag_free s -> keys_below (fst st) (snd st) ->
  let r := sub_loop false html_pattern replace_tag 0 prev s st in
  exists new,
    snd (fst r) = snd st ++ new /\ fst st <= fst (fst r)
    /\ entries (fst st) (fst (fst r)) new
    /\ shielded_as s new (snd r).
Proof.
  apply (sub_loop_ind false html_pattern replace_tag
           (fun _ s st r =>
              tag_free s -> keys_below (fst st) (snd st) ->
              exists new,
                snd (fst r) = snd st ++ new /\ fst st <= fst (fst r)
                /\ entries (fst st) (fst (fst r)) new
                /\ shielded_as s new (snd r))).
  - intros _ st _ _. exists []. cbn [fst snd]. rewrite app_nil_r.
    repeat split; auto; try constructor.
    + exists []. reflexivity.
    + right. apply tag_free_nil.
    + constructor.
  - intros prev c s st st2 t _ _ IH Hs Hk.
    destruct (IH (tag_free_suffix [c] s Hs) Hk)
      as (new & E & Hle & Hnew & Hsh).
    exists new. cbn [fst snd] in *. repeat split; auto.
    + destruct (shielded_as_cons c s new t _ _ Hnew Hs Hsh) as (H & _).
      exact H.
    + destruct (shielded_as_cons c s new t _ _ Hnew Hs Hsh) as (_ & H & _).
      exact H.
    + destruct (shielded_as_cons c s new t _ _ Hnew Hs Hsh) as (_ & _ & H).
      exact H.
  - intros prev w s g [k d0] st1 out st2 t _ _ Hg Hf _ IH Hs Hk.
    cbn [fst snd] in Hk. unfold replace_tag in Hf. rewrite Hg in Hf.
    injection Hf as <- <-.
    rewrite (dict_set_fresh _ _ _ (keys_below_fresh _ _ Hk)) in IH.
    cbn [fst snd] in IH.
    destruct IH as (new & E & Hle & Hnew & Hsh).
    { apply (tag_free_suffix w s Hs). }
    { unfold keys_below. apply Forall_app. split.
      - eapply Forall_impl; [|exact Hk].
        intros p (j & Hj & Ep). exists j. split; [lia|exact Ep].
      - constructor; [|constructor]. exists k. split; [lia|reflexivity]. }
    exists ((placeholder k, w) :: new). cbn [fst snd].
    split; [rewrite E, <- app_assoc; reflexivity|].
    split; [lia|]. split.
    + constructor.
      * split; [exists k; split; [lia|reflexivity]|].
        apply (tag_free_prefix w s Hs).
      * eapply Forall_impl; [|exact Hnew].
        intros p [(j & Hj & Ep) Hp]. split; [exists j; split; [lia|auto]|auto].
    + apply (shielded_as_tag k (fst st2)); auto.
      apply (tag_free_prefix w s Hs).
Qed.

(** *** The spacing passes of [restore_html_tags] *)

Lemma other_open_tag_lt st m :
  In m (rmatch false (Lit (u "<") +++ tag_names_not_strong
                      +++ Rep 0 (except ">") +++ Lit (u ">")) st) ->
  exists rest, m_rest st = ch "<" :: rest /\ m_rest st <> m_rest m.
Proof.
  intros H.
  destruct (rmatch_reads _ _ _ _ H) as (w & [E _]).
  apply rmatch_Cat_In in H. destruct H as (m1 & H1 & H2).
  apply rmatch_Lit_In in H1. destruct H1 as (E1 & _).
  rewrite E1. simpl. eexists. split; [reflexivity|].
  destruct (rmatch_reads _ _ _ _ H2) as (w2 & [E2 _]).
  rewrite E2. intros H. apply (f_equal (@length char)) in H. simpl in H.
  rewrite !length_app in H. lia.
Qed.

Lemma other_close_tag_gt st m w :
  In m (rmatch false (Lit (u "</") +++ tag_names_not_strong +++ Lit (u ">"))
               st) ->
  reads st m w -> exists w', w = w' ++ [ch ">"].
Proof.
  intros H [R _].
  apply rmatch_Cat_In in H. destruct H as (m1 & H1 & H2).
  apply rmatch_Cat_In in H2. destruct H2 as (m2 & H2 & H3).
  destruct (rmatch_reads _ _ _ _ H1) as (w1 & [E1 _]).
  destruct (rmatch_reads _ _ _ _ H2) as (w2 & [E2 _]).
  apply rmatch_Lit_In in H3. destruct H3 as (E3 & _).
  exists (w1 ++ w2). apply (app_inv_tail (m_rest m)).
  rewrite <- R, E1, E2, E3, <- !app_assoc. reflexivity.
Qed.

Lemma restore_spacing_strip x : strip (restore_spacing x) = strip x.
Proof.
  unfold restore_spacing. cbv zeta. rewrite collapse_strip.
  rewrite (spaced_strip _ _ _ (sub_after_tag _ latin_alnum_punct _
                                 other_close_tag_gt)).
  rewrite (spaced_strip _ _ _
             (sub_before_tag latin_alnum_punct
                (Lit (u "<") +++ tag_names_not_strong
                 +++ Rep 0 (except ">") +++ Lit (u ">")) _
                eq_refl other_open_tag_lt)).
  rewrite (spaced_strip _ _ _ (sub_after_tag _ latin_alnum_punct _
                                 (close_tag_gt (u "strong")))).
  rewrite (spaced_strip _ _ _
             (sub_before_tag latin_alnum_punct (open_tag (u "strong")) _
                eq_refl (open_tag_lt (u "strong")))).
  reflexivity.
Qed.


Lemma replace_all_empty d : replace_all d [] = [].
Proof. induction d as [|[k v] d IH]; [reflexivity|exact IH]. Qed.

Lemma restore_with d tr s :
  fst (restore_html_tags s (Translator (Some d) tr))
  = restore_spacing (replace_all d s).
Proof.
  unfold restore_html_tags. cbn [html_replacements].
  destruct s as [|c s]; [rewrite replace_all_empty|]; reflexivity.
Qed.





(** *** What one run of the spacing passes settles *)

(** [force_strong_tag_spacing] leaves nothing but white space directly
    before [<strong]: what its first pass cannot reach, its fifth does. *)
Lemma force_strong_open_clean x : open_clean (force_strong_tag_spacing x).
Proof.
  destruct x as [|c0 x]; [apply open_clean_nil|].
  rewrite force_split. unfold force_rest. cbv zeta.
  set (t1 := force_pass1 (c0 :: x)).
  set (t2 := force_pass2 t1).
  set (t3 := replace_all problematic_patterns t2).
  set (t4 := replace_all closing_patterns t3).
  assert (O1 : open_ready cz_alnum_punct t1).
  { apply open_inv_ready; [reflexivity|].
    unfold t1, force_pass1, re_sub. rewrite re_sub_with_from.
    apply open_pass_inv. auto. }
  assert (O4 : open_ready cz_alnum_punct t4).
  { apply (open_ready_pulls_back _ t3);
      [apply (replace_all_gentle closing_patterns);
       vm_compute; reflexivity|].
    apply (open_ready_pulls_back _ t2);
      [apply (replace_all_gentle problematic_patterns);
       vm_compute; reflexivity|].
    apply (open_ready_pulls_back _ t1); [apply force_pass2_gentle|].
    exact O1. }
  eapply open_clean_pulls_back; [apply (collapse_gentle (only " "))|].
  eapply open_clean_pulls_back;
    [apply (lit_cls_gentle false (u "</strong>") cz_alnum_punct);
     discriminate|].
  unfold re_sub. rewrite re_sub_with_from.
  apply open_pass_clean; [apply cz_alnum_punct_nonspace|exact O4].
Qed.

(** On a text with nothing glued to the front of [<strong], the first pass
    of [force_strong_tag_spacing] finds nothing to do. *)
Lemma open_clean_pass1_id s : open_clean s -> force_pass1 s = s.
Proof.
  intros H. unfold force_pass1, re_sub. rewrite re_sub_with_from.
  apply (sub_from_no_match false _ tpl_1_sp_2 open_clean); auto.
  - intros c s0 Hc d Hd Ho. apply (Hc d Hd). apply occurs_cons. exact Ho.
  - intros prev s0 H0.
    destruct (match_at false _ prev s0) as [[n g]|] eqn:E; auto.
    exfalso.
    destruct (open_match _ _ _ _ _ E) as (c & E0 & _ & Hc).
    apply match_at_Some in E.
    destruct E as (st' & w & _ & Hs & _ & _ & _ & Hg).
    assert (Ew : w = c :: u "<strong") by (rewrite <- E0, Hg; reflexivity).
    apply (H0 c Hc). exists [], (m_rest st'). rewrite Hs, Ew. reflexivity.
Qed.

(** C2, amended.  A second run of the spacing passes can change the text,
    but not what the first run has settled about spaces and the front of
    [<strong]: the reconciled text holds no run of two or more spaces and
    no character other than white space directly before [<strong], and the
    passes that bring this about, the collapse of runs of spaces and the
    pass [([^\s])(<strong)], leave it as it is. *)
Theorem reconcile_fixed_points s :
  no_double (only " ") (reconcile s) = true
  /\ re_sub spaces2 (tpl_const (u " ")) (reconcile s) = reconcile s
  /\ (forall c, nonspace c = true -> ~ occurs (c :: u "<strong") (reconcile s))
  /\ re_sub (Grp 1 (Cls nonspace) +++ Grp 2 (Lit (u "<strong"))) tpl_1_sp_2
            (reconcile s)
     = reconcile s.
Proof.
  assert (H : no_double (only " ") (reconcile s) = true)
    by apply force_strong_tag_spacing_collapsed.
  assert (O : open_clean (reconcile s)) by apply force_strong_open_clean.
  split; [exact H|]. split; [apply collapse_id; exact H|].
  split; [exact O|]. apply (open_clean_pass1_id _ O).
Qed.

(* ================================================================== *)

(** ** C9: the spacing scenario *)

(** C9, as stated, fails: the three spacing passes do not leave the input
    ["tool for<strong>3D modeling</strong>."] with the period glued to the
    closing tag. *)
Lemma reconcile_scenario_as_stated_fails :
  reconcile scenario_input <> u "tool for <strong>3D modeling</strong>.".
Proof. apply str_eqb_neq. vm_compute. reflexivity. Qed.

(** C9, amended: the spacing passes turn
    ["tool for<strong>3D modeling</strong>."] into
    ["tool for <strong>3D modeling</strong> ."]: one space before the
    opening tag and one space between the closing tag and the period. *)
Theorem reconcile_scenario :
  reconcile scenario_input = u "tool for <strong>3D modeling</strong> .".
Proof. vm_compute. reflexivity. Qed.

(* ================================================================== *)

(** ** C7: the term overrides applied twice *)

(* ================================================================== *)

(** C7, as stated, fails: on ["vykreslování vykreslování D5"] the first
    application yields ["vykreslování D5 Render"], in which the source term
    ["vykreslování D5"] occurs again; the second yields
    ["D5 Render Render"]. *)
Lemma apply_critical_terms_not_idempotent :
  let t := u "vykreslování vykreslování D5" in
  apply_critical_terms t = u "vykreslování D5 Render"
  /\ apply_critical_terms (apply_critical_terms t) = u "D5 Render Render"
  /\ apply_critical_terms (apply_critical_terms t) <> apply_critical_terms t.
Proof.
  repeat split; try (vm_compute; reflexivity).
  apply str_eqb_neq. vm_compute. reflexivity.
Qed.

Lemma Forall_forallb {A} (f : A -> bool) (l : list A) :
  forallb f l = true -> forall x, In x l -> f x = true.
Proof. intros H x Hx. rewrite forallb_forall in H. auto. Qed.

(** C7, amended: on the terms of the table itself the overrides are
    idempotent: applied to a source term or to a canonical term of
    [critical_terms], a second application changes nothing. *)
Theorem apply_critical_terms_idempotent_on_table :
  forall k v, In (k, v) critical_terms ->
    apply_critical_terms (apply_critical_terms k) = apply_critical_terms k
    /\ apply_critical_terms (apply_critical_terms v) = apply_critical_terms v.
Proof.
  intros k v H.
  assert (E : forallb (fun kv =>
              str_eqb (apply_critical_terms (apply_critical_terms (fst kv)))
                      (apply_critical_terms (fst kv))
              && str_eqb (apply_critical_terms (apply_critical_terms (snd kv)))
                         (apply_critical_terms (snd kv)))
            critical_terms = true) by (vm_compute; reflexivity).
  apply (Forall_forallb _ _ E) in H. simpl in H.
  apply andb_prop in H as [H1 H2].
  split; apply str_eqb_eq; assumption.
Qed.

Lemma apply_critical_terms_idempotent_on_table_witness :
  In (u "skicip", u "SketchUp") critical_terms
  /\ apply_critical_terms (apply_critical_terms (u "skicip"))
     = apply_critical_terms (u "skicip").
Proof.
  assert (H : In (u "skicip", u "SketchUp") critical_terms).
  { vm_compute. right. left. reflexivity. }
  split; [exact H|].
  exact (proj1 (apply_critical_terms_idempotent_on_table _ _ H)).
Defined.

(* ================================================================== *)

(** ** C3: chunked translation and the placeholder map *)

(* ================================================================== *)

(** C3: the code at an input whose shielded form is longer than 4500
    characters, with an engine that returns its input: the text that comes
    back still holds both placeholders, and the tags [<b>] and [</b>] are
    gone. *)
Theorem long_text_keeps_placeholders :
  fst (run (translate_with_google passthrough long_input))
  = Some (u " HTMLTAG0ENDTAG bold HTMLTAG1ENDTAG . " ++ repeat (ch "a") 4500).
Proof. vm_compute. reflexivity. Qed.

(* ================================================================== *)

(** ** Tag shielding: what the shielded text and the map look like *)

(* ================================================================== *)

Lemma tag_here_None prev s :
  tag_here s = false -> match_at false html_pattern prev s = None.
Proof.
  intros H. unfold match_at.
  destruct (rmatch false html_pattern (MState prev s no_groups)) eqn:E;
    [reflexivity|].
  assert (Ht : tag_here s = true).
  { apply (html_pattern_tag_here prev s no_groups). rewrite E. discriminate. }
  congruence.
Qed.

Lemma has_tag_skipn s n : has_tag s = false -> has_tag (skipn n s) = false.
Proof.
  intros H. rewrite <- (firstn_skipn n s) in H.
  exact (has_tag_suffix _ _ H).
Qed.

Lemma has_tag_false_here s : has_tag s = false -> tag_here s = false.
Proof.
  destruct s as [|c s]; [reflexivity|].
  cbn [has_tag]. intros H. apply orb_false_iff in H. tauto.
Qed.

Lemma no_match_has_tag s :
  (forall n prev, match_at false html_pattern prev (skipn n s) = None) ->
  has_tag s = false.
Proof.
  induction s as [|c s IH]; intros H; [reflexivity|].
  cbn [has_tag]. apply orb_false_iff. split.
  - apply (html_pattern_None None). exact (H 0 None).
  - apply IH. intros n prev. exact (H (S n) prev).
Qed.

(** X1: the shielded text holds no inline tag any more, at no position,
    and no two adjacent spaces. *)
Theorem shielded_text_has_no_tag text self n prev :
  match_at false html_pattern prev
           (skipn n (fst (preprocess_for_translation text self))) = None
  /\ no_double (only " ") (fst (preprocess_for_translation text self)) = true.
Proof.
  destruct (preprocess_shield_clean text self) as [Ht Hd].
  split; [|exact Hd].
  apply tag_here_None, has_tag_false_here, has_tag_skipn, Ht.
Qed.

(** X2: on a text without inline tag the shielding only collapses the
    runs of spaces, and it leaves an empty placeholder map behind. *)
Theorem tagless_text_only_collapsed text self :
  text <> [] ->
  (forall n prev, match_at false html_pattern prev (skipn n text) = None) ->
  preprocess_for_translation text self
  = (re_sub spaces2 (tpl_const (u " ")) text,
     Translator (Some []) (trace self)).
Proof.
  intros Hne H. apply no_match_has_tag in H.
  destruct text as [|c s]; [congruence|].
  unfold preprocess_for_translation.
  rewrite (shield_tagless_id (c :: s) (0, []) H). reflexivity.
Qed.

Lemma tagless_text_only_collapsed_witness :
  preprocess_for_translation (u "a  1 > b") (Translator (Some [uu "k" "<b>"]) [])
  = (u "a 1 > b", Translator (Some []) []).
Proof.
  apply (tagless_text_only_collapsed (u "a  1 > b")
           (Translator (Some [uu "k" "<b>"]) [])).
  - discriminate.
  - intros n prev.
    do 8 (destruct n as [|n]; [vm_compute; reflexivity|]).
    destruct n; reflexivity.
Defined.

(** *** The placeholder map *)

Lemma one_gt a r a' r' :
  forallb (except ">") a = true -> forallb (except ">") a' = true ->
  a ++ ch ">" :: r = a' ++ ch ">" :: r' -> a = a' /\ r = r'.
Proof.
  revert a'. induction a as [|x a IH]; intros [|y a'] Ha Ha' E.
  - injection E as E. auto.
  - simpl in E. injection E as E1 E2. subst y.
    simpl in Ha'. discriminate Ha'.
  - simpl in E. injection E as E1 E2. subst x.
    simpl in Ha. discriminate Ha.
  - simpl in E. injection E as E1 E2. subst y.
    simpl in Ha, Ha'. apply andb_true_iff in Ha, Ha'.
    destruct (IH a' (proj2 Ha) (proj2 Ha') E2) as [-> ->]. auto.
Qed.

Lemma tag_prefix_no_gt pfx :
  In pfx tag_prefixes -> forallb (except ">") pfx = true.
Proof.
  intros H. vm_compute in H.
  repeat (destruct H as [H|H]; [subst pfx; reflexivity|]). destruct H.
Qed.

Lemma forallb_app_true {A} (p : A -> bool) a b :
  forallb p a = true -> forallb p b = true -> forallb p (a ++ b) = true.
Proof. intros Ha Hb. rewrite forallb_app, Ha, Hb. reflexivity. Qed.

(** What a match of [html_pattern] reads. *)
Lemma html_match_shape prev w s g :
  match_at false html_pattern prev (w ++ s) = Some (length w, g) ->
  exists pfx body,
    In pfx tag_prefixes /\ forallb (except ">") body = true
    /\ w = pfx ++ body ++ [ch ">"].
Proof.
  intros H.
  destruct (match_at_Some _ _ _ _ _ _ H)
    as (st' & w' & Hr & Hs & Hl & _ & _ & _).
  destruct (app_same_length _ _ _ _ Hs (eq_sym Hl)) as [<- Hrest].
  assert (Hin : In st' (rmatch false html_pattern
                               (MState prev (w ++ s) no_groups))).
  { rewrite Hr. left. reflexivity. }
  apply html_pattern_In in Hin.
  destruct Hin as (pfx & body & Hp & E & Hb & _).
  cbn [m_rest] in E. rewrite <- Hrest in E.
  exists pfx, body. repeat split; auto.
  apply (app_inv_tail s).
  rewrite E, <- !app_assoc. reflexivity.
Qed.

Lemma whole_tag_intro pfx body :
  In pfx tag_prefixes -> forallb (except ">") body = true ->
  whole_tag (pfx ++ body ++ [ch ">"]).
Proof.
  intros Hp Hb. unfold whole_tag.
  set (tag := pfx ++ body ++ [ch ">"]).
  assert (Hall : forall st',
             In st' (rmatch false html_pattern (MState None tag no_groups)) ->
             m_rest st' = []).
  { intros st' Hin. apply html_pattern_In in Hin.
    destruct Hin as (pfx' & body' & Hp' & E & Hb' & _).
    cbn [m_rest] in E. unfold tag in E.
    rewrite !app_assoc in E.
    change (((pfx ++ body) ++ [ch ">"])) with ((pfx ++ body) ++ ch ">" :: [])
      in E.
    apply one_gt in E.
    - symmetry. exact (proj2 E).
    - apply forallb_app_true; [apply tag_prefix_no_gt; exact Hp|exact Hb].
    - apply forallb_app_true; [apply tag_prefix_no_gt; exact Hp'|exact Hb']. }
  destruct (match_at_complete false html_pattern None tag) as (n & g & E).
  - intros st' Hin. rewrite (Hall st' Hin). unfold tag.
    intros Hc. apply (f_equal (@length char)) in Hc.
    rewrite !length_app in Hc. simpl in Hc. lia.
  - apply (html_pattern_tag_here None tag no_groups).
    apply tag_here_iff. exists pfx, body, []. auto.
  - exists g. rewrite E. f_equal. f_equal.
    destruct (match_at_Some _ _ _ _ _ _ E)
      as (st' & w & Hr & Hs & Hl & _ & _ & _).
    rewrite (Hall st'), app_nil_r in Hs.
    + subst n. rewrite Hs. reflexivity.
    + rewrite Hr. left. reflexivity.
Qed.

Lemma numbered_fresh k (d : dict) :
  map fst d = map placeholder (seq 0 k) -> ~ In (placeholder k) (map fst d).
Proof.
  intros E Hin. rewrite E in Hin. apply in_map_iff in Hin.
  destruct Hin as (j & Ej & Hj). apply placeholder_inj in Ej.
  apply in_seq in Hj. lia.
Qed.

Lemma shield_loop_map : forall s prev st,
  map fst (snd st) = map placeholder (seq 0 (fst st)) ->
  let r := sub_loop false html_pattern replace_tag 0 prev s st in
  map fst (snd (fst r)) = map placeholder (seq 0 (fst (fst r)))
  /\ exists new,
       snd (fst r) = snd st ++ new
       /\ Forall (fun tag => occurs tag s /\ whole_tag tag) (map snd new).
Proof.
  apply (sub_loop_ind false html_pattern replace_tag
           (fun _ s st r =>
              map fst (snd st) = map placeholder (seq 0 (fst st)) ->
              map fst (snd (fst r)) = map placeholder (seq 0 (fst (fst r)))
              /\ exists new,
                   snd (fst r) = snd st ++ new
                   /\ Forall (fun tag => occurs tag s /\ whole_tag tag)
                             (map snd new))).
  - intros _ st H. cbn [fst snd]. split; [exact H|].
    exists []. rewrite app_nil_r. split; [reflexivity|constructor].
  - intros prev c s st st2 t _ _ IH H.
    destruct (IH H) as (Hk & new & E & Hall).
    cbn [fst snd] in *. split; [exact Hk|].
    exists new. split; [exact E|].
    eapply Forall_impl; [|exact Hall].
    intros tag [Ho Hw]. split; [apply occurs_cons; exact Ho|exact Hw].
  - intros prev w s g [k d0] st1 out st2 t Hm _ Hg Hf _ IH H.
    cbn [fst snd] in H. unfold replace_tag in Hf. rewrite Hg in Hf.
    injection Hf as <- <-.
    rewrite (dict_set_fresh _ _ _ (numbered_fresh _ _ H)) in IH.
    cbn [fst snd] in IH.
    destruct IH as (Hk & new & E & Hall).
    { rewrite map_app, seq_S, map_app, H. reflexivity. }
    cbn [fst snd]. split; [exact Hk|].
    exists ((placeholder k, w) :: new).
    split; [rewrite E, <- app_assoc; reflexivity|].
    cbn [map snd]. constructor.
    + split; [exists [], s; reflexivity|].
      destruct (html_match_shape _ _ _ _ Hm) as (pfx & body & Hp & Hb & ->).
      apply whole_tag_intro; auto.
    + eapply Forall_impl; [|exact Hall].
      intros tag [Ho Hw]. split; [apply occurs_app; exact Ho|exact Hw].
Qed.

(** X3: the placeholders of the map are [HTMLTAG0ENDTAG], [HTMLTAG1ENDTAG],
    ... in this order, one per entry, and every stored value is one whole
    inline tag of the text. *)
Theorem placeholders_are_numbered text self :
  text <> [] ->
  exists replacements,
    html_replacements (snd (preprocess_for_translation text self))
    = Some replacements
    /\ map fst replacements
       = map placeholder (seq 0 (length replacements))
    /\ Forall (fun tag => occurs tag text /\ whole_tag tag)
              (map snd replacements).
Proof.
  intros Hne. destruct text as [|c s]; [congruence|].
  unfold preprocess_for_translation, re_sub_state.
  pose proof (shield_loop_map (c :: s) None (0, []) eq_refl) as H.
  cbv zeta in H.
  destruct (sub_loop false html_pattern replace_tag 0 None (c :: s) (0, []))
    as [[k d] out].
  cbn [fst snd] in H. destruct H as (Hk & new & E & Hall).
  exists d. cbn [snd html_replacements]. split; [reflexivity|].
  simpl in E. subst new.
  assert (Hl : length d = k).
  { rewrite <- (length_map fst d), Hk, length_map, length_seq. reflexivity. }
  rewrite Hl. split; [exact Hk|exact Hall].
Qed.

Lemma placeholders_are_numbered_witness :
  exists replacements,
    html_replacements
      (snd (preprocess_for_translation (u "a<b>c</b>") new_translator))
    = Some replacements
    /\ map fst replacements
       = map placeholder (seq 0 (length replacements))
    /\ Forall (fun tag => occurs tag (u "a<b>c</b>") /\ whole_tag tag)
              (map snd replacements).
Proof.
  apply (placeholders_are_numbered (u "a<b>c</b>") new_translator).
  discriminate.
Defined.

(* ================================================================== *)

(** ** The requests that reach the translation engine *)

(* ================================================================== *)

(** *** The size of the chunks *)

Lemma chunks_loop_sizes (all : list str) : forall sentences cur,
  (cur = [] \/ length cur < 4500 \/ In cur all) ->
  incl sentences all ->
  Forall (fun c => c <> [] /\ (length c < 4500 \/ In c all))
         (chunks_loop sentences cur).
Proof.
  assert (Hflush : forall cur,
             (cur = [] \/ length cur < 4500 \/ In cur all) ->
             Forall (fun c => c <> [] /\ (length c < 4500 \/ In c all))
                    (flush cur)).
  { intros [|c cur] H; [constructor|].
    constructor; [|constructor]. split; [discriminate|].
    destruct H as [H|H]; [discriminate|exact H]. }
  induction sentences as [|part sentences IH]; intros cur Hcur Hall.
  - apply Hflush. exact Hcur.
  - cbn [chunks_loop].
    assert (Hrest : incl sentences all).
    { intros x Hx. apply Hall. right. exact Hx. }
    destruct (length (cur ++ part) <? 4500) eqn:E.
    + apply IH; [|exact Hrest].
      apply Nat.ltb_lt in E. right. left. exact E.
    + apply Forall_app. split; [apply Hflush; exact Hcur|].
      apply IH; [|exact Hrest].
      right. right. apply Hall. left. reflexivity.
Qed.

Lemma shield_clean_pieces l :
  shield_clean (concat l) -> Forall shield_clean l.
Proof.
  induction l as [|c l IH]; intros H; [constructor|].
  cbn [concat] in H. constructor.
  - exact (shield_clean_prefix _ _ H).
  - apply IH. exact (shield_clean_suffix _ _ H).
Qed.

Lemma shield_of_clean c : shield_clean c -> shield c = c.
Proof.
  intros H. destruct c as [|x c]; [reflexivity|].
  unfold shield. rewrite preprocess_clean; [reflexivity|exact H|discriminate].
Qed.

Lemma requests_of_clean l :
  shield_clean (concat l) ->
  map (fun c => EvTranslate (shield c)) l = map EvTranslate l.
Proof.
  intros H. apply shield_clean_pieces in H.
  induction H as [|c l Hc _ IH]; [reflexivity|].
  cbn [map]. rewrite IH, (shield_of_clean c Hc). reflexivity.
Qed.

(** X4: what [_translate_long_text] sends to the engine when
    [translate_with_google] hands it the shielded text: the requests are
    the shielded text cut into pieces, none of them empty, and each one is
    shorter than 4500 characters or is a single piece of the split at the
    sentence ends. *)
Theorem long_text_requests engine text self :
  let p := fst (preprocess_for_translation text self) in
  let self1 := snd (preprocess_for_translation text self) in
  exists requests,
    trace (snd (_translate_long_text engine p self1))
    = trace self ++ map EvTranslate requests
    /\ concat requests = p
    /\ Forall (fun x => x <> []
                        /\ (length x < 4500
                            \/ In x (re_split sentence_end p)))
              requests.
Proof.
  intros p self1. exists (chunks p).
  destruct (translate_long_text_spec engine p self1) as [_ Ht].
  pose proof (preprocess_shield_clean text self) as Hc. fold p in Hc.
  split; [|split].
  - rewrite Ht. unfold self1. rewrite preprocess_trace. f_equal.
    apply requests_of_clean. rewrite concat_chunks. exact Hc.
  - apply concat_chunks.
  - unfold chunks. apply chunks_loop_sizes.
    + left. reflexivity.
    + intros x Hx. exact Hx.
Qed.

(** *** When the engine is consulted *)

Lemma calls_requests (f : str -> str) l :
  calls (map (fun c => EvTranslate (f c)) l) = length l.
Proof.
  unfold calls. induction l as [|c l IH]; [reflexivity|].
  cbn [map filter is_call length]. rewrite IH. reflexivity.
Qed.

Lemma calls_retries p k : calls (retries p k) = S k.
Proof.
  unfold retries. rewrite calls_app.
  induction k as [|k IH]; [reflexivity|].
  cbn [repeat concat]. rewrite calls_app. simpl in *. lia.
Qed.

Lemma chunks_nonempty p : p <> [] -> chunks p <> [].
Proof.
  intros Hp E. apply Hp. rewrite <- (concat_chunks p), E. reflexivity.
Qed.

Lemma translate_with_google_calls engine text self :
  blank text = false ->
  calls (trace self)
  < calls (trace (snd (translate_with_google engine text self))).
Proof.
  intros Hb. rewrite (translate_with_google_unfold engine text self Hb).
  set (p := fst (preprocess_for_translation text self)).
  set (self1 := snd (preprocess_for_translation text self)).
  assert (Ht : trace self1 = trace self) by apply preprocess_trace.
  destruct (4500 <? length p) eqn:E.
  - change (seq 0 max_retries) with (0 :: seq 1 2).
    rewrite (attempts_long engine 0 (seq 1 2) p self1 E). cbn [snd].
    destruct (translate_long_text_spec engine p self1) as [_ H].
    rewrite H, calls_app, calls_requests, Ht.
    assert (Hne : chunks p <> []).
    { apply chunks_nonempty. intros Hp. rewrite Hp in E. discriminate E. }
    destruct (chunks p); [congruence|simpl; lia].
  - destruct (translate_attempts_spec engine p self1 E)
      as (out & k & _ & _ & H & _).
    rewrite H, calls_app, calls_retries, Ht. lia.
Qed.

(** X5: a blank text comes back as it is and the engine is not asked;
    for any other text the engine is asked at least once, whatever it
    answers. *)
Theorem translate_text_consults_engine engine text self :
  if blank text
  then translate_text engine text self = (Some text, self)
  else calls (trace self)
       < calls (trace (snd (translate_text engine text self))).
Proof.
  destruct (blank text) eqn:Hb.
  - unfold translate_text. rewrite Hb. reflexivity.
  - pose proof (translate_with_google_calls engine text self Hb) as H.
    unfold translate_text. rewrite Hb. unfold bind, ret.
    destruct (translate_with_google engine text self) as [translated self'].
    exact H.
Qed.

(* ================================================================== *)

(** ** What the spacing repairs leave alone *)

(* ================================================================== *)

(** *** Passes that only move spaces *)

Lemma space_only_comp F G :
  space_only F -> space_only G -> space_only (fun s => G (F s)).
Proof. intros HF HG s. rewrite HG. apply HF. Qed.

Lemma space_only_fold {X} (step : str -> X -> str) l :
  (forall x, In x l -> space_only (fun s => step s x)) ->
  space_only (fun s => fold_left step l s).
Proof.
  induction l as [|x l IH]; intros H s; [reflexivity|].
  cbn [fold_left]. rewrite IH.
  - apply (H x). left. reflexivity.
  - intros y Hy. apply H. right. exact Hy.
Qed.

Lemma spaced_space_only P F :
  (forall s, spaced P s (F s)) -> space_only F.
Proof. intros H s. exact (spaced_strip _ _ _ (H s)). Qed.

Lemma collapse_space_only :
  space_only (re_sub spaces2 (tpl_const (u " "))).
Proof. intros s. apply collapse_strip. Qed.

Lemma before_tag_space_only K B :
  groupless B = true ->
  (forall st m, In m (rmatch false B st) ->
                exists rest, m_rest st = ch "<" :: rest
                             /\ m_rest st <> m_rest m) ->
  space_only (re_sub (Grp 1 (Cls K) +++ Grp 2 B) tpl_1_sp_2).
Proof.
  intros Hg HB. apply (spaced_space_only P_tag). intros s.
  apply sub_before_tag; assumption.
Qed.

Lemma after_tag_space_only A K :
  (forall st m w, In m (rmatch false A st) -> reads st m w ->
                  exists w', w = w' ++ [ch ">"]) ->
  space_only (re_sub (Grp 1 A +++ Grp 2 (Cls K)) tpl_1_sp_2).
Proof.
  intros HA. apply (spaced_space_only P_tag). intros s.
  apply sub_after_tag. exact HA.
Qed.

Lemma any_close_tag_gt st m w :
  In m (rmatch false any_close_tag st) -> reads st m w ->
  exists w', w = w' ++ [ch ">"].
Proof.
  intros H [R _]. unfold any_close_tag in H.
  apply rmatch_Cat_In in H. destruct H as (m1 & H1 & H2).
  apply rmatch_Cat_In in H2. destruct H2 as (m2 & H2 & H3).
  destruct (rmatch_reads _ _ _ _ H1) as (w1 & [E1 _]).
  destruct (rmatch_reads _ _ _ _ H2) as (w2 & [E2 _]).
  apply rmatch_Lit_In in H3. destruct H3 as (E3 & _).
  exists (w1 ++ w2). apply (app_inv_tail (m_rest m)).
  rewrite <- R, E1, E2, E3, <- !app_assoc. reflexivity.
Qed.

Lemma lit_gt L st m w :
  In m (rmatch false (Lit (L ++ u ">")) st) -> reads st m w ->
  exists w', w = w' ++ [ch ">"].
Proof.
  intros H R. apply rmatch_Lit_In in H. destruct H as (E & P & _).
  assert (R' : reads st m (L ++ u ">")) by (split; auto).
  rewrite (reads_unique _ _ _ _ R R'). exists L. reflexivity.
Qed.

Lemma replace_space_only old new :
  insertion old new = true -> space_only (replace old new).
Proof.
  intros H. apply (spaced_space_only (fun _ _ => true)).
  apply replace_spaced. exact H.
Qed.

Lemma replace_all_space_only pairs :
  forallb (fun p => insertion (fst p) (snd p)) pairs = true ->
  space_only (replace_all pairs).
Proof.
  intros H. unfold replace_all.
  apply (space_only_fold (fun acc p => replace (fst p) (snd p) acc)).
  intros p Hp. apply replace_space_only.
  rewrite forallb_forall in H. apply H. exact Hp.
Qed.

Lemma cls_lit_space_only X L :
  L <> [] ->
  space_only (re_sub (Grp 1 (Cls X) +++ Grp 2 (Lit L)) tpl_1_sp_2).
Proof.
  intros HL s. unfold re_sub. rewrite re_sub_with_from.
  exact (spaced_strip _ _ _ (cls_lit_spaced false X L HL s None)).
Qed.

Lemma lit_cls_space_only L X :
  L <> [] ->
  space_only (re_sub (Grp 1 (Lit L) +++ Grp 2 (Cls X)) tpl_1_sp_2).
Proof.
  intros HL s. unfold re_sub. rewrite re_sub_with_from.
  exact (spaced_strip _ _ _ (lit_cls_spaced false L X HL s None)).
Qed.

(** X6: [post_translation_spacing_fix] changes nothing but spaces: without
    the space characters its result and its argument are the same text;
    and it leaves no two adjacent spaces. *)
Theorem post_translation_spacing_fix_moves_spaces_only text :
  strip (post_translation_spacing_fix text) = strip text
  /\ no_double (only " ") (post_translation_spacing_fix text) = true.
Proof.
  unfold post_translation_spacing_fix.
  destruct text as [|c0 text']; [split; reflexivity|].
  remember (c0 :: text') as result eqn:E. clear E. cbv zeta.
  split; [|apply (collapse_no_double (only " ") (ch " ")); reflexivity].
  rewrite collapse_space_only.
  rewrite (after_tag_space_only _ latin_letter (lit_gt (u "</em"))).
  rewrite (before_tag_space_only latin_alnum (open_tag (u "em")) eq_refl
             (open_tag_lt (u "em"))).
  rewrite (after_tag_space_only _ latin_letter (lit_gt (u "</strong"))).
  rewrite (before_tag_space_only latin_alnum (open_tag (u "strong")) eq_refl
             (open_tag_lt (u "strong"))).
  rewrite (after_tag_space_only any_close_tag _ any_close_tag_gt).
  rewrite (before_tag_space_only (elem (u ".!?")) any_open_tag eq_refl
             any_open_tag_lt).
  rewrite (space_only_fold
             (fun result word =>
                let result :=
                  re_sub (Lit (word ++ u "<strong>"))
                         (tpl_const (word ++ u " <strong>")) result in
                re_sub (Lit (word ++ u "<em>"))
                       (tpl_const (word ++ u " <em>")) result)
             czech_prepositions).
  - rewrite (before_tag_space_only (elem (u ".,;:!?")) any_open_tag eq_refl
               any_open_tag_lt).
    rewrite (after_tag_space_only any_close_tag isword any_close_tag_gt).
    rewrite (before_tag_space_only isword any_open_tag eq_refl
               any_open_tag_lt).
    reflexivity.
  - intros word Hw. cbv zeta.
    assert (Hi : insertion (word ++ u "<strong>") (word ++ u " <strong>")
                 = true
                 /\ insertion (word ++ u "<em>") (word ++ u " <em>") = true).
    { revert word Hw. apply Forall_forall. vm_compute.
      repeat (constructor; [split; reflexivity|]). constructor. }
    apply (space_only_comp (replace (word ++ u "<strong>")
                                    (word ++ u " <strong>"))
                           (replace (word ++ u "<em>") (word ++ u " <em>"))).
    + apply replace_space_only. exact (proj1 Hi).
    + apply replace_space_only. exact (proj2 Hi).
Qed.

(** X7: [force_strong_tag_spacing] changes nothing but spaces: without
    the space characters its result and its argument are the same text. *)
Theorem force_strong_tag_spacing_moves_spaces_only text :
  strip (force_strong_tag_spacing text) = strip text.
Proof.
  destruct text as [|c0 text']; [reflexivity|].
  rewrite force_split. unfold force_rest, force_pass2, force_pass1.
  cbv zeta.
  rewrite collapse_space_only.
  rewrite (lit_cls_space_only (u "</strong>") cz_alnum_punct);
    [|discriminate].
  rewrite (cls_lit_space_only cz_alnum_punct (u "<strong")); [|discriminate].
  rewrite (replace_all_space_only closing_patterns); [|reflexivity].
  rewrite (replace_all_space_only problematic_patterns); [|reflexivity].
  rewrite (lit_cls_space_only (u "</strong>") nonspace); [|discriminate].
  rewrite (cls_lit_space_only nonspace (u "<strong")); [|discriminate].
  reflexivity.
Qed.

(** *** The brand fixes change case only *)

Lemma skeleton_app a b : skeleton (a ++ b) = skeleton a ++ skeleton b.
Proof. unfold skeleton. rewrite strip_app, map_app. reflexivity. Qed.

Lemma sub_from_invariant (h : str -> str) ic r f :
  (forall a b, h (a ++ b) = h a ++ h b) ->
  (forall prev s n g, match_at ic r prev s = Some (n, g) ->
                      h (f g) = h (g 0)) ->
  forall s prev, h (sub_from ic r f prev s) = h s.
Proof.
  intros Happ Hm.
  apply (sub_from_ind ic r f (fun _ s t => h t = h s)).
  - reflexivity.
  - intros prev c s _ IH.
    change (c :: sub_from ic r f (Some c) s)
      with ([c] ++ sub_from ic r f (Some c) s).
    change (c :: s) with ([c] ++ s). rewrite !Happ, IH. reflexivity.
  - intros prev w s g Hw _ Hg IH.
    rewrite !Happ, IH, (Hm _ _ _ _ Hw), Hg. reflexivity.
Qed.

Lemma replace_skeleton old new s :
  skeleton new = skeleton old ->
  skeleton (replace old new s) = skeleton s.
Proof.
  intros H. unfold replace, re_sub. rewrite re_sub_with_from.
  apply sub_from_invariant.
  - apply skeleton_app.
  - intros prev s0 n g Hm. rewrite (match_at_Lit_group _ _ _ _ _ Hm).
    exact H.
Qed.

Lemma brand_fixes_skeleton s :
  skeleton (replace_all brand_fixes s) = skeleton s.
Proof.
  unfold replace_all.
  assert (H : Forall (fun p => skeleton (snd p) = skeleton (fst p))
                     brand_fixes).
  { repeat (constructor; [reflexivity|]). constructor. }
  revert s. induction H as [|p l Hp _ IH]; intros s; [reflexivity|].
  cbn [fold_left]. rewrite IH. apply replace_skeleton. exact Hp.
Qed.

(** X8: [fix_html_spacing] changes nothing but spaces and, in the brand
    names it restores, the case of ASCII letters: without the spaces and
    with [A-Z] lowered, its result and its argument are the same text. *)
Theorem fix_html_spacing_keeps_skeleton text :
  skeleton (fix_html_spacing text) = skeleton text.
Proof.
  unfold fix_html_spacing.
  destruct text as [|c0 text']; [reflexivity|].
  remember (c0 :: text') as result eqn:E. clear E. cbv zeta.
  rewrite brand_fixes_skeleton. unfold skeleton. f_equal.
  rewrite collapse_space_only.
  rewrite (spaced_strip _ _ _ (sub_camel_case _)).
  rewrite (space_only_fold
             (fun result word =>
                fold_left (fun result tag =>
                             re_sub (WordB +++ Lit word
                                     +++ Grp 1 (open_tag tag))
                                    (fun m => word ++ u " " ++ m 1) result)
                          html_tags result)
             czech_words).
  2:{ intros word Hw.
      assert (Hne : word <> []).
      { revert word Hw. apply Forall_forall.
        repeat (constructor; [discriminate|]). constructor. }
      apply (space_only_fold
               (fun result tag =>
                  re_sub (WordB +++ Lit word +++ Grp 1 (open_tag tag))
                         (fun m => word ++ u " " ++ m 1) result)).
      intros tag _. apply (spaced_space_only P_tag). intros s.
      apply sub_word_tag. exact Hne. }
  rewrite (before_tag_space_only (elem (u ".!?:;,")) any_open_tag eq_refl
             any_open_tag_lt).
  rewrite (space_only_fold
             (fun result tag =>
                re_sub (Grp 1 (close_tag tag) +++ Grp 2 (Cls isword))
                       tpl_1_sp_2 result)
             html_tags).
  2:{ intros tag _. apply after_tag_space_only.
      intros st m w. apply close_tag_gt. }
  rewrite (space_only_fold
             (fun result tag =>
                re_sub (Grp 1 (Cls word_punct) +++ Grp 2 (open_tag tag))
                       tpl_1_sp_2 result)
             html_tags).
  2:{ intros tag _. apply before_tag_space_only; [reflexivity|].
      intros st m. apply open_tag_lt. }
  reflexivity.
Qed.

(** *** The brand fixes and the collapsed spaces *)

Lemma no_double_cons p c s :
  no_double p (c :: s) = true ->
  no_double p s = true
  /\ (p c = true -> match s with [] => True | d :: _ => p d = false end).
Proof.
  destruct s as [|d s]; [auto|].
  change (no_double p (c :: d :: s))
    with (negb (p c && p d) && no_double p (d :: s)).
  intros H. apply andb_true_iff in H. destruct H as [H1 H2].
  split; [exact H2|]. intros Hc. rewrite Hc in H1.
  destruct (p d); [discriminate|reflexivity].
Qed.

Lemma no_double_cons_intro p c s :
  no_double p s = true ->
  (p c = true -> match s with [] => True | d :: _ => p d = false end) ->
  no_double p (c :: s) = true.
Proof.
  destruct s as [|d s]; [reflexivity|].
  intros Hs H.
  change (no_double p (c :: d :: s))
    with (negb (p c && p d) && no_double p (d :: s)).
  rewrite Hs, andb_true_r.
  destruct (p c); [rewrite H; reflexivity|reflexivity].
Qed.

Lemma no_double_app p : forall a b,
  no_double p a = true -> no_double p b = true ->
  p (last a 0%N) = false ->
  no_double p (a ++ b) = true.
Proof.
  induction a as [|c a IH]; intros b Ha Hb Hl; [exact Hb|].
  destruct (no_double_cons _ _ _ Ha) as [Ha' Hc].
  cbn [app]. apply no_double_cons_intro.
  - destruct a as [|d a]; [exact Hb|].
    apply IH; auto.
  - intros Hpc. destruct a as [|d a].
    + simpl in Hl. congruence.
    + exact (Hc Hpc).
Qed.

Lemma replace_no_double old new :
  tight new = true ->
  forall s, no_double (only " ") s = true ->
            no_double (only " ") (replace old new s) = true.
Proof.
  unfold tight. intros H.
  apply andb_true_iff in H. destruct H as [H Hnd].
  apply andb_true_iff in H. destruct H as [H Hlast].
  apply andb_true_iff in H. destruct H as [Hne Hhd].
  apply negb_true_iff in Hhd, Hlast.
  intros s. unfold replace, re_sub. rewrite re_sub_with_from.
  generalize (@None char).
  intros prev. revert s prev.
  apply (sub_from_ind false (Lit old) (tpl_const new)
           (fun _ s t =>
              no_double (only " ") s = true ->
              no_double (only " ") t = true
              /\ (match t with
                  | [] => True
                  | d :: _ => only " " d = true ->
                              match s with
                              | [] => False
                              | d' :: _ => only " " d' = true
                              end
                  end))).
  - intros _ _. split; [reflexivity|exact I].
  - intros prev c s _ IH Hs.
    destruct (no_double_cons _ _ _ Hs) as [Hs' Hc].
    destruct (IH Hs') as [Ht Hh]. split; [|auto].
    apply no_double_cons_intro; [exact Ht|].
    intros Hpc. specialize (Hc Hpc).
    destruct (sub_from false (Lit old) (tpl_const new) (Some c) s)
      as [|d t]; [exact I|].
    destruct (only " " d) eqn:Ed; [|reflexivity].
    specialize (Hh eq_refl). destruct s as [|d' s]; [destruct Hh|].
    congruence.
  - intros prev w s g _ Hw _ IH Hs.
    destruct (IH (no_double_suffix _ _ _ Hs)) as [Ht _].
    unfold tpl_const. split.
    + apply no_double_app; auto.
    + destruct new as [|d new']; [discriminate|].
      cbn [app]. simpl in Hhd. intros Hd. congruence.
Qed.

(** X9: [fix_html_spacing] never returns two adjacent spaces: the brand
    fixes, which run after the runs of spaces are collapsed, cannot bring
    any back. *)
Theorem fix_html_spacing_collapsed text :
  no_double (only " ") (fix_html_spacing text) = true.
Proof.
  unfold fix_html_spacing.
  destruct text as [|c0 text']; [reflexivity|].
  remember (c0 :: text') as result eqn:E. clear E. cbv zeta.
  unfold replace_all.
  assert (H : Forall (fun p : str * str => tight (snd p) = true) brand_fixes).
  { repeat (constructor; [reflexivity|]). constructor. }
  match goal with
  | |- no_double _ (fold_left _ _ ?x) = true =>
      assert (Hx : no_double (only " ") x = true)
        by (apply (collapse_no_double (only " ") (ch " ")); reflexivity);
      generalize dependent x
  end.
  induction H as [|p l Hp _ IH]; intros x Hx; [exact Hx|].
  cbn [fold_left]. apply IH. apply replace_no_double; assumption.
Qed.

(* ================================================================== *)

(** ** What the capitalisation repair leaves alone *)

(* ================================================================== *)

(** *** Upper-casing after the repair *)

Lemma flat_upper_stable x :
  forallb (fun d => str_eqb (upper d) [d]) x = true -> flat_map upper x = x.
Proof.
  induction x as [|d x IH]; intros H; [reflexivity|].
  cbn [forallb] in H. apply andb_true_iff in H. destruct H as [Hd Hx].
  apply str_eqb_eq in Hd. cbn [flat_map]. rewrite Hd, (IH Hx). reflexivity.
Qed.

Lemma recased_flat_map_upper s t :
  recased s t -> flat_map upper t = flat_map upper s.
Proof.
  induction 1 as [|c s t _ IH|c s t _ IH].
  - reflexivity.
  - cbn [flat_map]. rewrite IH. reflexivity.
  - rewrite flat_map_app, IH. cbn [flat_map]. f_equal.
    apply flat_upper_stable, upper_stable.
Qed.

(** X10: [fix_capitalization] changes the case of letters and nothing
    else: upper-casing its result gives what upper-casing its argument
    gives. *)
Theorem fix_capitalization_changes_case_only text :
  flat_map upper (fix_capitalization text) = flat_map upper text.
Proof. apply recased_flat_map_upper, fix_capitalization_recased. Qed.

(** X11: a text of the tables in which no character has another upper
    case (capitals, digits, punctuation, white space) comes back
    unchanged. *)
Theorem fix_capitalization_keeps_capitals text :
  forallb cased_up text = true -> fix_capitalization text = text.
Proof.
  intros H. apply recased_stable; [|apply fix_capitalization_recased].
  unfold stable. rewrite forallb_forall in *. intros d Hd.
  specialize (H d Hd). unfold cased_up in H.
  apply andb_true_iff in H. tauto.
Qed.

Lemma fix_capitalization_keeps_capitals_witness :
  fix_capitalization (u "OK. <B>D5 RENDER</B> 4K!")
  = u "OK. <B>D5 RENDER</B> 4K!".
Proof.
  apply (fix_capitalization_keeps_capitals (u "OK. <B>D5 RENDER</B> 4K!")).
  vm_compute. reflexivity.
Defined.

(** *** The first letter of the text *)

Lemma isalpha_big d : (384 <= d)%N -> isalpha d = false.
Proof.
  intros H. unfold isalpha.
  rewrite !between_big, !eqb_big by (auto; reflexivity). reflexivity.
Qed.

(** A letter is neither white space nor sentence punctuation, and no
    character of its upper case begins a match. *)
Lemma isalpha_facts c :
  isalpha c = true ->
  isspace c = false /\ elem (u ".!?") c = false
  /\ forallb (fun y => negb (starter y)) (upper c) = true.
Proof.
  intros H.
  assert (E : (negb (isalpha c)
               || (negb (isspace c) && negb (elem (u ".!?") c)
                   && forallb (fun y => negb (starter y)) (upper c))) = true).
  { apply (char_cases (fun c => negb (isalpha c)
               || (negb (isspace c) && negb (elem (u ".!?") c)
                   && forallb (fun y => negb (starter y)) (upper c)))).
    - vm_compute. reflexivity.
    - intros d Hd. rewrite (isalpha_big d Hd). reflexivity. }
  rewrite H in E. simpl in E.
  apply andb_true_iff in E. destruct E as [E E3].
  apply andb_true_iff in E. destruct E as [E1 E2].
  apply negb_true_iff in E1, E2. auto.
Qed.

Lemma starter_parts y :
  starter y = false ->
  elem (u ".!?") y = false /\ N.eqb y (ch "i") = false
  /\ N.eqb y (ch "<") = false /\ N.eqb y 0x0A = false.
Proof.
  unfold starter. intros H.
  apply orb_false_iff in H. destruct H as [H H4].
  apply orb_false_iff in H. destruct H as [H H3].
  apply orb_false_iff in H. destruct H as [H1 H2]. auto.
Qed.

Lemma no_match_after_punct y prev s :
  starter y = false ->
  match_at false (Grp 1 (Cls (elem (u ".!?")) +++ Rep 1 isspace)
                  +++ Grp 2 (Cls lower_cz)) prev (y :: s) = None.
Proof.
  intros H. destruct (starter_parts y H) as (H1 & _).
  apply match_at_None. cbn [rmatch m_rest flat_map map in_class].
  rewrite H1. reflexivity.
Qed.

Lemma no_match_lone_i y prev s :
  starter y = false ->
  match_at false (WordB +++ Lit (u "i") +++ WordB) prev (y :: s) = None.
Proof.
  intros H. destruct (starter_parts y H) as (_ & H2 & _).
  apply match_at_None. cbn [rmatch m_rest m_prev hd_error].
  destruct (xorb (is_word_opt prev) (is_word_opt (Some y))); [|reflexivity].
  cbn [flat_map app]. rewrite app_nil_r.
  change (u "i") with [ch "i"]. cbn [rmatch lit_match m_rest m_prev char_eq].
  rewrite N.eqb_sym, H2. reflexivity.
Qed.

Lemma no_match_after_closing_tag y prev s :
  starter y = false ->
  match_at false after_closing_tag prev (y :: s) = None.
Proof.
  intros H. destruct (starter_parts y H) as (_ & _ & H3 & _).
  apply match_at_None. unfold after_closing_tag.
  change (u "</") with [ch "<"; ch "/"].
  cbn [rmatch lit_match m_rest m_prev char_eq flat_map map].
  rewrite N.eqb_sym, H3. reflexivity.
Qed.

Lemma no_match_after_line_break y prev s :
  starter y = false ->
  match_at false after_line_break prev (y :: s) = None.
Proof.
  intros H. destruct (starter_parts y H) as (_ & _ & _ & H4).
  apply match_at_None. unfold after_line_break.
  cbn [rmatch lit_match m_rest m_prev char_eq flat_map map].
  rewrite N.eqb_sym, H4. reflexivity.
Qed.

(** A substitution copies a prefix at whose characters no match begins. *)
Lemma head_kept r f :
  (forall y prev s, starter y = false ->
                    match_at false r prev (y :: s) = None) ->
  forall w prev s,
    forallb (fun y => negb (starter y)) w = true ->
    sub_from false r f prev (w ++ s)
    = w ++ sub_from false r f (last_opt w prev) s.
Proof.
  intros Hr. induction w as [|y w IH]; intros prev s Hw; [reflexivity|].
  cbn [forallb] in Hw. apply andb_true_iff in Hw. destruct Hw as [Hy Hw].
  apply negb_true_iff in Hy.
  cbn [app last_opt]. rewrite (sub_from_copy _ _ _ _ _ _ (Hr y prev _ Hy)).
  rewrite (IH (Some y) s Hw). reflexivity.
Qed.

Lemma split_loop_head r : forall s skip prev cur,
  exists x rest, split_loop r skip prev s cur = (rev cur ++ x) :: rest.
Proof.
  induction s as [|c s IH]; intros skip prev cur.
  - exists [], []. simpl. rewrite app_nil_r. reflexivity.
  - cbn [split_loop]. destruct skip as [|k].
    + destruct (match_at false r prev (c :: s)) as [[n g]|].
      * eexists [], _. rewrite app_nil_r. reflexivity.
      * destruct (IH 0 (Some c) (c :: cur)) as (x & rest & E).
        exists (c :: x), rest. rewrite E. cbn [rev].
        rewrite <- app_assoc. reflexivity.
    + apply IH.
Qed.

Lemma first_sentence c s :
  elem (u ".!?") c = false ->
  exists x rest, re_split sentence_end (c :: s) = (c :: x) :: rest.
Proof.
  intros H. unfold re_split. cbn [split_loop].
  assert (E : match_at false sentence_end None (c :: s) = None).
  { apply match_at_None. unfold sentence_end.
    cbn [rmatch m_rest m_prev flat_map map rep_match in_class].
    rewrite H. reflexivity. }
  rewrite E.
  destruct (split_loop_head sentence_end s 0 (Some c) [c]) as (x & rest & Ex).
  exists x, rest. exact Ex.
Qed.

Lemma fix_sentence_first_letter c x :
  isalpha c = true -> exists x', fix_sentence (c :: x) = upper c ++ x'.
Proof.
  intros H. destruct (isalpha_facts c H) as (Hs & Hp & Hu).
  unfold fix_sentence.
  assert (Eb : blank (c :: x) = false).
  { unfold blank. cbn [forallb]. rewrite Hs. reflexivity. }
  rewrite Eb. cbn [negb].
  assert (Em : re_match (Bol +++ Rep 1 (fun c => elem (u ".!?") c || isspace c)
                         +++ Eol) (c :: x) = false).
  { unfold re_match. rewrite match_at_None; [reflexivity|].
    cbn [rmatch m_rest m_prev flat_map map rep_match in_class app].
    rewrite Hp, Hs. reflexivity. }
  rewrite Em. cbn [negb]. cbv zeta.
  cbn [capitalize_first_letter]. rewrite H.
  unfold re_sub. rewrite !re_sub_with_from.
  rewrite (head_kept _ upper_group2 no_match_after_punct (upper c) None x Hu).
  rewrite (head_kept _ (tpl_const (u "I")) no_match_lone_i (upper c) None _ Hu).
  eexists. reflexivity.
Qed.

(** X12: when the text begins with a letter, the result begins with the
    upper case of that letter. *)
Theorem fix_capitalization_first_letter c s :
  isalpha c = true ->
  exists rest, fix_capitalization (c :: s) = upper c ++ rest.
Proof.
  intros H. destruct (isalpha_facts c H) as (Hs & Hp & Hu).
  unfold fix_capitalization. cbv zeta.
  destruct (first_sentence c s Hp) as (x & pieces & E). rewrite E.
  cbn [map concat].
  destruct (fix_sentence_first_letter c x H) as (x' & Ex). rewrite Ex.
  rewrite <- app_assoc.
  unfold re_sub. rewrite !re_sub_with_from.
  rewrite (head_kept _ upper_group2 no_match_after_closing_tag
                     (upper c) None _ Hu).
  rewrite (head_kept _ upper_group2 no_match_after_line_break
                     (upper c) None _ Hu).
  eexists. reflexivity.
Qed.

Lemma fix_capitalization_first_letter_witness :
  exists rest,
    fix_capitalization (ch "v" :: u " praze. a i ty") = upper (ch "v") ++ rest.
Proof.
  apply (fix_capitalization_first_letter (ch "v") (u " praze. a i ty")).
  reflexivity.
Defined.

(* ================================================================== *)

(** ** Topic detection and call-to-action links *)

(* ================================================================== *)

(** *** Substrings *)

Lemma contains_occurs s p : contains s p = true <-> occurs p s.
Proof.
  induction s as [|c s IH].
  - simpl. rewrite orb_false_r, starts_with_iff. split.
    + intros [s' E]. exists [], s'. exact E.
    + intros (a & b & E). destruct a as [|x a]; [|discriminate].
      exists b. exact E.
  - cbn [contains]. rewrite orb_true_iff, IH, starts_with_iff. split.
    + intros [[s' E]|(a & b & E)].
      * exists [], s'. exact E.
      * exists (c :: a), b. rewrite E. reflexivity.
    + intros (a & b & E). destruct a as [|x a].
      * left. exists b. exact E.
      * right. exists a, b. simpl in E. congruence.
Qed.

(** *** The detection loop *)

Lemma scan_patterns_found tl cl software patterns detected :
  scan_patterns tl cl software patterns detected
  = if found tl cl patterns then detected ++ [software] else detected.
Proof.
  induction patterns as [|p ps IH]; [reflexivity|].
  cbn [scan_patterns found existsb].
  destruct (contains tl p || contains cl p); [reflexivity|].
  rewrite IH. reflexivity.
Qed.

Lemma detect_loop tl cl : forall table detected,
  fold_left (fun detected_software entry =>
               scan_patterns tl cl (fst entry) (snd entry) detected_software)
            table detected
  = detected
    ++ map fst (filter (fun entry => found tl cl (snd entry)) table).
Proof.
  induction table as [|[software patterns] table IH]; intros detected.
  - simpl. rewrite app_nil_r. reflexivity.
  - cbn [fold_left filter fst snd]. rewrite IH, scan_patterns_found.
    destruct (found tl cl patterns).
    + rewrite <- app_assoc. reflexivity.
    + reflexivity.
Qed.

Lemma detect_filter title content_text :
  detect_software_topic title content_text
  = map fst (filter (fun entry => found (lower title) (lower content_text)
                                         (snd entry))
                    software_patterns).
Proof. unfold detect_software_topic. rewrite detect_loop. reflexivity. Qed.

Lemma subsequence_map_filter {A B} (f : A -> B) (p : A -> bool) l :
  subsequence (map f (filter p l)) (map f l).
Proof.
  induction l as [|x l IH]; simpl.
  - constructor.
  - destruct (p x); simpl; constructor; exact IH.
Qed.

Lemma subsequence_In {A} (l l' : list A) x :
  subsequence l l' -> In x l -> In x l'.
Proof.
  induction 1 as [|y l l' _ IH|y l l' _ IH]; intros H.
  - exact H.
  - right. auto.
  - destruct H as [H|H]; [left; exact H|right; auto].
Qed.

Lemma subsequence_NoDup {A} (l l' : list A) :
  subsequence l l' -> NoDup l' -> NoDup l.
Proof.
  induction 1 as [|y l l' Hs IH|y l l' Hs IH]; intros H.
  - exact H.
  - inversion H; auto.
  - inversion H as [|? ? Hn Hd]; subst. constructor; auto.
    intros Hi. apply Hn. eapply subsequence_In; eauto.
Qed.

Lemma software_keys_NoDup : NoDup (map fst software_patterns).
Proof.
  repeat (constructor; [intros H; repeat (destruct H as [H|H];
                                          [discriminate H|]); exact H|]).
  constructor.
Qed.

(** X13: a software is reported exactly when one of its patterns occurs
    in the lower-cased title or in the lower-cased content. *)
Theorem detect_software_topic_spec title content_text software :
  In software (detect_software_topic title content_text) <->
  exists patterns pattern,
    In (software, patterns) software_patterns /\ In pattern patterns
    /\ (occurs pattern (lower title) \/ occurs pattern (lower content_text)).
Proof.
  rewrite detect_filter, in_map_iff. split.
  - intros ([sw patterns] & E & H). simpl in E. subst sw.
    apply filter_In in H. destruct H as [Hin Hf].
    unfold found in Hf. simpl in Hf. apply existsb_exists in Hf.
    destruct Hf as (pattern & Hp & Hc).
    exists patterns, pattern. repeat split; auto.
    apply orb_true_iff in Hc.
    destruct Hc as [Hc|Hc]; [left|right]; apply contains_occurs; exact Hc.
  - intros (patterns & pattern & Hin & Hp & Ho).
    exists (software, patterns). split; [reflexivity|].
    apply filter_In. split; [exact Hin|].
    unfold found. simpl. apply existsb_exists. exists pattern.
    split; [exact Hp|]. apply orb_true_iff.
    destruct Ho as [Ho|Ho]; [left|right]; apply contains_occurs; exact Ho.
Qed.

Lemma detect_subsequence title content_text :
  subsequence (detect_software_topic title content_text)
              (map fst software_patterns).
Proof. rewrite detect_filter. apply subsequence_map_filter. Qed.

(** X14: the softwares are reported in the order of the pattern table,
    each one at most once, however often and wherever its patterns
    occur. *)
Theorem detect_software_topic_order title content_text :
  subsequence (detect_software_topic title content_text)
              (map fst software_patterns)
  /\ NoDup (detect_software_topic title content_text).
Proof.
  pose proof (detect_subsequence title content_text) as H.
  split; [exact H|].
  eapply subsequence_NoDup; [exact H|apply software_keys_NoDup].
Qed.

(** X15: the topic line is the default one exactly when no software is
    detected; otherwise it is the entry of the first detected software in
    the topic table. *)
Theorem topic_of_detected_software title content_text :
  match detect_software_topic title content_text with
  | [] =>
      get_czech_topic_name (detect_software_topic title content_text)
      = default_topic
  | software :: _ =>
      In (software,
          get_czech_topic_name (detect_software_topic title content_text))
         czech_topics
      /\ get_czech_topic_name (detect_software_topic title content_text)
         <> default_topic
  end.
Proof.
  pose proof (detect_subsequence title content_text) as H.
  destruct (detect_software_topic title content_text) as [|software rest].
  - reflexivity.
  - assert (Hin : In software (map fst software_patterns)).
    { eapply subsequence_In; [exact H|left; reflexivity]. }
    cbn [get_czech_topic_name].
    repeat (destruct Hin as [Hin|Hin];
            [subst software; split;
             [vm_compute; tauto|vm_compute; discriminate]|]).
    destruct Hin.
Qed.

(** *** The link choice *)

Lemma get_czech_cta_links_choice software_list original_href :
  get_czech_cta_links software_list original_href
  = cta_choice (links_of software_list) (lower original_href).
Proof. reflexivity. Qed.

Lemma dict_get_cases {V} (d : list (str * V)) k default :
  dict_get d k default = default
  \/ In (k, dict_get d k default) d.
Proof.
  induction d as [|[k' v] d IH]; [left; reflexivity|].
  cbn [dict_get]. unfold str_eqb.
  destruct (list_eq_dec N.eq_dec k' k) as [E|E].
  - right. left. subst. reflexivity.
  - destruct IH as [IH|IH]; [left; exact IH|right; right; exact IH].
Qed.

Lemma links_of_cases software_list :
  In (links_of software_list) (map snd czech_links).
Proof.
  unfold links_of.
  destruct (dict_get_cases czech_links
              (hd [] (match software_list with
                      | [] => [u "general"]
                      | _ :: _ => software_list
                      end))
              (dict_get czech_links (u "general") [])) as [E|E].
  - rewrite E. vm_compute. tauto.
  - apply in_map_iff. eexists. split; [|exact E]. reflexivity.
Qed.

Ltac each_table H :=
  repeat (destruct H as [H|H]; [subst|]); [..|destruct H].

Ltac each_choice h :=
  unfold cta_choice;
  repeat match goal with
         | |- context [any_in h ?l] => destruct (any_in h l)
         end.

(** X16: the new link is always a path of the site: it begins and ends
    with a slash, so [replace_cta_links] would treat it as an internal
    link again. *)
Theorem cta_link_is_internal software_list original_href :
  starts_with (u "/") (get_czech_cta_links software_list original_href) = true
  /\ last (get_czech_cta_links software_list original_href) 0%N = ch "/".
Proof.
  rewrite get_czech_cta_links_choice.
  pose proof (links_of_cases software_list) as H.
  remember (links_of software_list) as links eqn:E. clear E.
  remember (lower original_href) as h eqn:E. clear E.
  vm_compute in H.
  each_table H; each_choice h; vm_compute; split; reflexivity.
Qed.

(** X17: converting a link that is already converted changes nothing. *)
Theorem cta_link_idempotent software_list original_href :
  get_czech_cta_links software_list
    (get_czech_cta_links software_list original_href)
  = get_czech_cta_links software_list original_href.
Proof.
  rewrite !get_czech_cta_links_choice.
  pose proof (links_of_cases software_list) as H.
  remember (links_of software_list) as links eqn:E. clear E.
  remember (lower original_href) as h eqn:E. clear E.
  vm_compute in H.
  each_table H; each_choice h; vm_compute; reflexivity.
Qed.

Lemma dict_get_missing {V} (d : list (str * V)) k default :
  ~ In k (map fst d) -> dict_get d k default = default.
Proof.
  induction d as [|[k' v] d IH]; intros H; [reflexivity|].
  cbn [dict_get]. unfold str_eqb.
  destruct (list_eq_dec N.eq_dec k' k) as [E|E].
  - exfalso. apply H. left. exact E.
  - apply IH. intros Hi. apply H. right. exact Hi.
Qed.

(** X18: a software without a link table of its own gets the general
    links, the ones of an empty software list; only the first software of
    the list counts. *)
Theorem cta_link_without_table software_list original_href :
  ~ In (hd (u "general") software_list) softwares_with_links ->
  get_czech_cta_links software_list original_href
  = get_czech_cta_links [] original_href.
Proof.
  intros H. rewrite !get_czech_cta_links_choice. f_equal.
  unfold links_of.
  destruct software_list as [|primary rest]; [reflexivity|].
  cbn [hd] in *.
  unfold str_eqb.
  destruct (list_eq_dec N.eq_dec primary (u "general")) as [E|E].
  - subst primary. reflexivity.
  - rewrite dict_get_missing; [reflexivity|].
    intros Hi. vm_compute in Hi.
    repeat (destruct Hi as [Hi|Hi];
            [first [apply E; rewrite <- Hi; reflexivity
                   |apply H; rewrite <- Hi; vm_compute; tauto]|]).
    exact Hi.
Qed.

Lemma cta_link_without_table_witness :
  get_czech_cta_links [u "blender"; u "sketchup"] (u "/predaj/licencie/")
  = get_czech_cta_links [] (u "/predaj/licencie/").
Proof.
  apply (cta_link_without_table [u "blender"; u "sketchup"]
                                (u "/predaj/licencie/")).
  vm_compute. intros H.
  repeat (destruct H as [H|H]; [discriminate H|]). exact H.
Defined.

(** *** Unshielding what the engine answers *)

Lemma contains_tag_free w : contains w (u "HTMLTAG") = false -> tag_free w.
Proof.
  intros H Ho. apply contains_occurs in Ho. congruence.
Qed.

(** X19: unshielding an answer of the engine.  When [HTMLTAG] does not
    occur in the text and every word of the answer (the pieces between its
    spaces) is a placeholder of the map or holds no [HTMLTAG], the answer
    comes back, up to spaces, with every placeholder replaced by its tag,
    wherever the engine has moved it and however often it occurs. *)
Theorem restore_after_translation text answer self replacements :
  text <> [] ->
  contains text (u "HTMLTAG") = false ->
  html_replacements (snd (preprocess_for_translation text self))
  = Some replacements ->
  Forall (fun w => In w (map fst replacements)
                   \/ contains w (u "HTMLTAG") = false)
         (words answer) ->
  strip (fst (restore_html_tags answer
                (snd (preprocess_for_translation text self))))
  = concat (map (subst replacements) (words answer)).
Proof.
  intros Hne Hfree Hmap Hws.
  apply contains_tag_free in Hfree.
  destruct text as [|c text]; [congruence|].
  unfold preprocess_for_translation in *.
  destruct (shield_loop (c :: text) None (0, []) Hfree)
    as (new & Ed & _ & Hnew & _).
  { constructor. }
  unfold re_sub_state in *.
  destruct (sub_loop false html_pattern replace_tag 0 None (c :: text) (0, []))
    as [[k d] result].
  cbn [fst snd html_replacements] in *.
  injection Hmap as ->. simpl in Ed. subst new.
  pose proof (entries_dict_ok _ _ _ Hnew) as Hd.
  rewrite restore_with, restore_spacing_strip.
  rewrite <- (unwords_words answer) at 1.
  apply replace_all_pieces; [exact Hd|].
  pose proof (words_spaceless answer) as Hsp.
  rewrite Forall_forall in *. intros w Hw. split; [auto|].
  destruct (Hws w Hw) as [H|H]; [left; exact H|right].
  apply contains_tag_free. exact H.
Qed.

Lemma restore_after_translation_witness :
  strip (fst (restore_html_tags (u "HTMLTAG1ENDTAG x HTMLTAG0ENDTAG y")
                (snd (preprocess_for_translation (u "a<b>c</b>")
                        new_translator))))
  = u "</b>x<b>y".
Proof.
  apply (restore_after_translation (u "a<b>c</b>")
           (u "HTMLTAG1ENDTAG x HTMLTAG0ENDTAG y") new_translator
           [uu "HTMLTAG0ENDTAG" "<b>"; uu "HTMLTAG1ENDTAG" "</b>"]).
  - discriminate.
  - vm_compute. reflexivity.
  - vm_compute. reflexivity.
  - vm_compute. constructor; [left; right; left; reflexivity|].
    constructor; [right; reflexivity|].
    constructor; [left; left; reflexivity|].
    constructor; [right; reflexivity|]. constructor.
Defined.
